(** * A set-associative CPU cache simulator: model and verified properties

    Shallow embedding of the Python classes [TagQueue], [CacheBlock],
    [CacheSet], [Cache] and [CacheSim].

    Conventions of the embedding.
    - Python [int] is [Z]; a [bytearray] is a [list Z] of bytes.
    - Python sequence indexing (negative indices count from the end, an
      index outside [-len, len) raises [IndexError]) is [py_index].
    - Every object holds a reference to the one [memory] bytearray; the
      model keeps that shared store once, next to the object a method
      runs on, so a store made through any block is seen by all.
    - Methods are computations in a state-and-exception monad; a raised
      exception keeps the state reached so far, as in-place mutation does.
    - The source computes with float arithmetic ([/], [%], [//],
      [math.pow], [math.log], [math.floor]) and converts back with [int].
      + [split_address] converts the address to a double and then takes
        remainders and quotients by powers of two.  The model rounds
        where the code rounds ([float_of_int], [float_mod],
        [float_floordiv]), so it answers what the code answers also from
        [2 ^ 53] on and for negative addresses (up to the [OverflowError]
        the code raises from [2 ^ 1024] on).
      + [Cache.__init__] and [find_range] are written with the integer
        operations the float ones agree with on small magnitudes:
        [Z.quot] for [int(a / b)] and [/] for [math.floor(a / b)], equal
        when the operands are below [2 ^ 53] in magnitude; [Z.log2] for
        [int(math.log(n, 2))], equal for [n] below [2 ^ 45] and for powers
        of two.  Statements about the values these compute carry the
        bound as a hypothesis.
    - [CacheBlock.write_to_cache] keeps the bytearray it is handed; the
      model stores its bytes.  The two agree when no other reference to
      that bytearray is used afterwards, as in [CacheSim.write], which
      builds a new bytearray for every call. *)

From stdpp Require Import base numbers list.

Local Open Scope Z_scope.

(** ** Python primitives *)

Inductive exn : Type :=
  | IndexError
  | ZeroDivisionError
  | ValueError
  | AssertionError.

(** Position denoted by index [i] in a sequence of length [len]. *)
Definition py_index (len : nat) (i : Z) : option nat :=
  if bool_decide (0 <= i < Z.of_nat len) then Some (Z.to_nat i)
  else if bool_decide (- Z.of_nat len <= i < 0) then Some (Z.to_nat (Z.of_nat len + i))
  else None.

(** [l[i]] *)
Definition py_get {A} (l : list A) (i : Z) : option A :=
  n ← py_index (length l) i; l !! n.

(** [l[i] = x] *)
Definition py_set {A} (l : list A) (i : Z) (x : A) : option (list A) :=
  n ← py_index (length l) i; Some (<[n:=x]> l).

(** [bytearray(n)] for [0 <= n] *)
Definition bytearray (n : Z) : list Z := replicate (Z.to_nat n) 0.

(** ** State and exceptions *)

Inductive outcome (St A : Type) : Type :=
  | Done (a : A) (s : St)
  | Raise (e : exn) (s : St).
Arguments Done {St A} a s.
Arguments Raise {St A} e s.

Definition final_state {St A} (o : outcome St A) : St :=
  match o with Done _ s => s | Raise _ s => s end.

Definition M (St A : Type) : Type := St -> outcome St A.

Definition ret {St A} (a : A) : M St A := fun s => Done a s.

Definition bind {St A B} (m : M St A) (f : A -> M St B) : M St B :=
  fun s => match m s with
           | Done a s' => f a s'
           | Raise e s' => Raise e s'
           end.

Definition raise {St A} (e : exn) : M St A := fun s => Raise e s.

Definition gets {St A} (f : St -> A) : M St A := fun s => Done (f s) s.

Definition modify {St} (f : St -> St) : M St unit := fun s => Done tt (f s).

(** Value of an optional lookup, or the given exception. *)
Definition orelse {St A} (o : option A) (e : exn) : M St A :=
  match o with Some a => ret a | None => raise e end.

(** Run a computation of a component on the component stored inside a
    larger state; the component is written back also when it raises. *)
Definition zoom {S T A} (proj : T -> S) (upd : S -> T -> T) (m : M S A) : M T A :=
  fun t => match m (proj t) with
           | Done a s => Done a (upd s t)
           | Raise e s => Raise e (upd s t)
           end.

Declare Scope py_scope.
Delimit Scope py_scope with py.
Notation "'let*' x := c1 'in' c2" := (bind c1 (fun x => c2))
  (at level 10, x pattern, c1 at level 100, c2 at level 200) : py_scope.
Notation "c1 ;;; c2" := (bind c1 (fun _ => c2))
  (at level 100, c2 at level 200, right associativity) : py_scope.
Local Open Scope py_scope.

Abbreviation Memory := (list Z).

(** [float(n)] for an [int]: the double nearest to [n], ties going to the
    even mantissa, written as the integer it is (a double of magnitude
    [2 ^ 53] or more is an integer, and below [2 ^ 53] every integer is a
    double).  Python raises [OverflowError] from [2 ^ 1024] on. *)
Definition float_of_int (n : Z) : Z :=
  if bool_decide (Z.abs n < 2 ^ 53) then n else
  let e := Z.log2 (Z.abs n) - 52 in
  let q := Z.abs n / 2 ^ e in
  let r := Z.abs n mod 2 ^ e in
  let q' := if bool_decide (2 * r < 2 ^ e) then q
            else if bool_decide (2 ^ e < 2 * r) then q + 1
            else if Z.even q then q else q + 1 in
  Z.sgn n * (q' * 2 ^ e).

(** [x % w] and [x // w] for doubles [x] and [w] that hold integers, [w] a
    positive power of two.  [fmod] and the quotient of [x - fmod(x, w)] by
    [w] are exact; when the remainder is negative the code adds [w] to it
    and subtracts 1 from the quotient, and each of the two results is
    rounded to a double. *)
Definition float_mod (x w : Z) : Z :=
  let m := Z.rem x w in
  if bool_decide (m < 0) then float_of_int (m + w) else m.

Definition float_floordiv (x w : Z) : Z :=
  let m := Z.rem x w in
  let div := Z.quot (x - m) w in
  if bool_decide (m < 0) then float_of_int (div - 1) else div.

(** ** class TagQueue *)

Module TagQueue.

Record t : Type := mk { queue : list Z; size : Z }.

(** [__init__]: [size] copies of the invalid tag [-1]. *)
Definition init (size : Z) : t :=
  {| queue := replicate (Z.to_nat size) (-1); size := size |}.

(** The search loop of [update_queue]: [for i in range(i, i + n)],
    answering the first position whose entry equals [tag]. *)
Fixpoint search (q : list Z) (tag : Z) (i n : nat) : outcome unit (option nat) :=
  match n with
  | O => Done None tt
  | S n' =>
      match q !! i with
      | None => Raise IndexError tt
      | Some x => if bool_decide (x = tag) then Done (Some i) tt
                  else search q tag (S i) n'
      end
  end.

Definition update_queue (tag : Z) : M t bool :=
  fun self =>
    match search (queue self) tag 0 (Z.to_nat (size self)) with
    | Raise e _ => Raise e self
    | Done (Some i) _ =>
        Done true {| queue := delete i (queue self) ++ [tag]; size := size self |}
    | Done None _ =>
        match queue self with
        | [] => Raise IndexError self
        | _ :: rest => Done false {| queue := rest ++ [tag]; size := size self |}
        end
    end.

Definition get_least_recently_used : M t Z :=
  fun self => match queue self with
              | [] => Raise IndexError self
              | x :: _ => Done x self
              end.

End TagQueue.

(** ** class CacheBlock *)

Module CacheBlock.

(** The [memory] reference is the shared store of the state;
    [block_size] is read by the constructor only. *)
Record t : Type := mk { occupied : bool; dirty : bool; tag : Z; word : list Z }.

Definition set_occupied (v : bool) (b : t) : t :=
  {| occupied := v; dirty := dirty b; tag := tag b; word := word b |}.
Definition set_dirty (v : bool) (b : t) : t :=
  {| occupied := occupied b; dirty := v; tag := tag b; word := word b |}.
Definition set_tag (v : Z) (b : t) : t :=
  {| occupied := occupied b; dirty := dirty b; tag := v; word := word b |}.
Definition set_word (v : list Z) (b : t) : t :=
  {| occupied := occupied b; dirty := dirty b; tag := tag b; word := v |}.

Abbreviation St := (Memory * t)%type.

Definition upd (f : t -> t) : M St unit := modify (fun '(mem, b) => (mem, f b)).

(** [__init__]; [bytearray] of a negative count raises [ValueError]. *)
Definition init (block_size : Z) : exn + t :=
  let bytes_per_block := Z.quot block_size 8 in
  if bool_decide (bytes_per_block < 0) then inl ValueError
  else inr {| occupied := false; dirty := false; tag := -1;
              word := bytearray bytes_per_block |}.

(** [self.word[i] = self.memory[address + i]] *)
Definition load_byte (address i : Z) : M St unit :=
  fun '(mem, b) =>
    match py_get mem (address + i) with
    | None => Raise IndexError (mem, b)
    | Some x =>
        match py_set (word b) i x with
        | None => Raise IndexError (mem, b)
        | Some w => Done tt (mem, set_word w b)
        end
    end.

Definition read_from_memory (address tag : Z) : M St unit :=
  upd (set_occupied true) ;;;
  upd (set_tag tag) ;;;
  load_byte address 0 ;;;
  load_byte address 1 ;;;
  load_byte address 2 ;;;
  load_byte address 3.

Definition read_from_cache (tag : Z) : M St unit :=
  upd (set_tag tag) ;;;
  upd (set_occupied true).

(** [self.memory[address + i] = self.word[i]] *)
Definition store_byte (address i : Z) : M St unit :=
  fun '(mem, b) =>
    match py_get (word b) i with
    | None => Raise IndexError (mem, b)
    | Some x =>
        match py_set mem (address + i) x with
        | None => Raise IndexError (mem, b)
        | Some mem' => Done tt (mem', b)
        end
    end.

Definition write_to_memory (address : Z) : M St unit :=
  store_byte address 0 ;;;
  store_byte address 1 ;;;
  store_byte address 2 ;;;
  store_byte address 3.

(** [self.word = word] keeps the caller's bytearray; the bytes are stored
    here, which is the same as long as the caller hands over a bytearray it
    does not use again ([CacheSim.write] builds a new one for each call). *)
Definition write_to_cache (w : list Z) : M St unit := upd (set_word w).

Definition clear_block : M St unit :=
  upd (set_occupied false) ;;;
  upd (set_dirty false) ;;;
  upd (set_tag (-1)) ;;;
  upd (set_word (bytearray 4)).

Definition word_dec (w : list Z) : option Z :=
  b0 ← py_get w 0; b1 ← py_get w 1; b2 ← py_get w 2; b3 ← py_get w 3;
  Some (b0 + 256 * (b1 + 256 * (b2 + 256 * b3))).

Definition get_word_dec : M St Z :=
  fun '(mem, b) => orelse (word_dec (word b)) IndexError (mem, b).

End CacheBlock.

(** ** Operation details

    The dictionaries the methods return, with one field per key.  A key a
    method does not set is marked absent; the merge [d1 | d2] of the source
    always joins dictionaries with disjoint keys. *)

Inductive HitOrMiss : Type := hit | miss.

(** Values of the key ["replace_details"]. *)
Inductive ReplaceDetails : Type :=
  | ReplaceNone
  | Replaced (evict_tag evict_index : Z).

(** Values of the key ["write_back"]: absent, [None], the flushed range
    (set by an eviction), or a boolean (set by a write). *)
Inductive WriteBack : Type :=
  | WriteBackAbsent
  | WriteBackNone
  | WriteBackRange (lower_limit upper_limit : Z)
  | WriteBackFlag (b : bool).

Record OperationDetails : Type := mkDetails {
  hit_or_miss : option HitOrMiss;
  address : Z;
  offset : Z;
  set_index : Z;
  tag : Z;
  word : Z;
  block_range : Z * Z;
  tag_queue : list Z;
  replace_details : option ReplaceDetails;
  write_back : WriteBack
}.

Definition with_hit_or_miss (h : HitOrMiss) (d : OperationDetails) : OperationDetails :=
  {| hit_or_miss := Some h; address := address d; offset := offset d;
     set_index := set_index d; tag := tag d; word := word d;
     block_range := block_range d; tag_queue := tag_queue d;
     replace_details := replace_details d; write_back := write_back d |}.

(** [find_range].  [math.floor(address / block_size)] floors a float
    quotient, equal to the integer quotient for an address and a block
    size below [2 ^ 53] in magnitude.  For a [block_size] of 0 the code
    raises [ZeroDivisionError]; no set has one, [Cache.__init__] failing on
    it before any set is built. *)
Definition find_range (address block_size : Z) : Z * Z :=
  let lower_limit := block_size * (address / block_size) in
  let upper_limit := lower_limit + (block_size - 1) in
  (lower_limit, upper_limit).

(** ** class CacheSet *)

Module CacheSet.

Record t : Type := mk {
  write_back : bool;
  tag_queue : TagQueue.t;
  blocks : list CacheBlock.t;
  num_blocks : Z;
  block_size : Z;
  set_index : Z;
  evicted_tag : Z;
  evicted_block_index : Z;
  last_write_address : Z
}.

Definition set_tag_queue (q : TagQueue.t) (s : t) : t :=
  {| write_back := write_back s; tag_queue := q; blocks := blocks s;
     num_blocks := num_blocks s; block_size := block_size s;
     set_index := set_index s; evicted_tag := evicted_tag s;
     evicted_block_index := evicted_block_index s;
     last_write_address := last_write_address s |}.
Definition set_blocks (bs : list CacheBlock.t) (s : t) : t :=
  {| write_back := write_back s; tag_queue := tag_queue s; blocks := bs;
     num_blocks := num_blocks s; block_size := block_size s;
     set_index := set_index s; evicted_tag := evicted_tag s;
     evicted_block_index := evicted_block_index s;
     last_write_address := last_write_address s |}.
Definition set_evicted (tg ix : Z) (s : t) : t :=
  {| write_back := write_back s; tag_queue := tag_queue s; blocks := blocks s;
     num_blocks := num_blocks s; block_size := block_size s;
     set_index := set_index s; evicted_tag := tg;
     evicted_block_index := ix;
     last_write_address := last_write_address s |}.
Definition set_last_write_address (a : Z) (s : t) : t :=
  {| write_back := write_back s; tag_queue := tag_queue s; blocks := blocks s;
     num_blocks := num_blocks s; block_size := block_size s;
     set_index := set_index s; evicted_tag := evicted_tag s;
     evicted_block_index := evicted_block_index s;
     last_write_address := a |}.

Abbreviation St := (Memory * t)%type.

Definition upd (f : t -> t) : M St unit := modify (fun '(mem, s) => (mem, f s)).

Definition self {A} (f : t -> A) : M St A := gets (fun '(_, s) => f s).

(** A method of the tag queue, run on [self.tag_queue]. *)
Definition on_tag_queue {A} (m : M TagQueue.t A) : M St A :=
  zoom (fun '(_, s) => tag_queue s)
       (fun q '(mem, s) => (mem, set_tag_queue q s)) m.

(** A method of a block, run on the block at position [n] of
    [self.blocks] and on the shared memory. *)
Definition on_block_at {A} (n : nat) (b : CacheBlock.t) (m : M CacheBlock.St A) : M St A :=
  zoom (fun '(mem, _) => (mem, b))
       (fun '(mem', b') '(_, s) => (mem', set_blocks (<[n:=b']> (blocks s)) s)) m.

(** A method of a block, run on [self.blocks[i]]. *)
Definition on_block {A} (i : Z) (m : M CacheBlock.St A) : M St A :=
  fun '(mem, s) =>
    match py_index (length (blocks s)) i with
    | None => Raise IndexError (mem, s)
    | Some n =>
        match blocks s !! n with
        | None => Raise IndexError (mem, s)
        | Some b => on_block_at n b m (mem, s)
        end
    end.

Fixpoint replicate_blocks (n : nat) (block_size : Z) : exn + list CacheBlock.t :=
  match n with
  | O => inr []
  | S n' =>
      match CacheBlock.init block_size with
      | inl e => inl e
      | inr b =>
          match replicate_blocks n' block_size with
          | inl e => inl e
          | inr bs => inr (b :: bs)
          end
      end
  end.

Definition init (write_back : bool) (num_blocks block_size set_index : Z) : exn + t :=
  match replicate_blocks (Z.to_nat num_blocks) block_size with
  | inl e => inl e
  | inr bs =>
      inr {| write_back := write_back; tag_queue := TagQueue.init num_blocks;
             blocks := bs; num_blocks := num_blocks; block_size := block_size;
             set_index := set_index; evicted_tag := -1;
             evicted_block_index := -1; last_write_address := -1 |}
  end.

(** Position of the first block that is not occupied. *)
Fixpoint first_free (bs : list CacheBlock.t) (i : nat) : option nat :=
  match bs with
  | [] => None
  | b :: rest => if CacheBlock.occupied b then first_free rest (S i) else Some i
  end.

Definition find_free_block (s : t) : option nat := first_free (blocks s) 0.

Fixpoint first_match (bs : list CacheBlock.t) (tag : Z) (i : Z) : Z :=
  match bs with
  | [] => -1
  | b :: rest =>
      if bool_decide (CacheBlock.tag b = tag) && CacheBlock.occupied b then i
      else first_match rest tag (i + 1)
  end.

Definition find_block_index (tag : Z) (s : t) : Z := first_match (blocks s) tag 0.

Definition add_basic_operation_details
    (w : Z) (rd : option ReplaceDetails) (wb : WriteBack)
    (address offset tag : Z) (s : t) : OperationDetails :=
  mkDetails None address offset (set_index s) tag w
            (find_range address (block_size s))
            (TagQueue.queue (tag_queue s)) rd wb.

(** Answers the index of the block filled, and the values stored under
    ["write_back"] and ["replace_details"]. *)
Definition replace_cache_block (address tag : Z) : M St (Z * WriteBack * ReplaceDetails) :=
  let* least_recently_used_tag := on_tag_queue TagQueue.get_least_recently_used in
  let* least_recently_used_block_index := self (find_block_index least_recently_used_tag) in
  let* least_recently_used_block :=
    (let* bs := self blocks in orelse (py_get bs least_recently_used_block_index) IndexError) in
  let* wb_mode := self write_back in
  let* wb :=
    (if wb_mode && CacheBlock.dirty least_recently_used_block then
       on_block least_recently_used_block_index (CacheBlock.write_to_memory address) ;;;
       upd (set_last_write_address address) ;;;
       let* bsz := self block_size in
       ret (WriteBackRange (fst (find_range address bsz)) (snd (find_range address bsz)))
     else ret WriteBackNone) in
  on_block least_recently_used_block_index CacheBlock.clear_block ;;;
  on_block least_recently_used_block_index (CacheBlock.read_from_memory address tag) ;;;
  ret (least_recently_used_block_index, wb,
       Replaced least_recently_used_tag least_recently_used_block_index).

Definition read_from_memory (address tag offset : Z) : M St OperationDetails :=
  upd (set_last_write_address (-1)) ;;;
  let* free_block := self find_free_block in
  let* (block_accessed, wb, rd) :=
    match free_block with
    | Some n =>
        on_block (Z.of_nat n) (CacheBlock.read_from_memory address tag) ;;;
        upd (set_evicted (-1) (-1)) ;;;
        ret (Z.of_nat n, WriteBackAbsent, ReplaceNone)
    | None => replace_cache_block address tag
    end in
  let* _ := on_tag_queue (TagQueue.update_queue tag) in
  let* w := on_block block_accessed CacheBlock.get_word_dec in
  self (add_basic_operation_details w (Some rd) wb address offset tag).

Definition read_from_cache (address tag block_index offset : Z) : M St OperationDetails :=
  on_block block_index (CacheBlock.read_from_cache tag) ;;;
  let* _ := on_tag_queue (TagQueue.update_queue tag) in
  let* w := on_block block_index CacheBlock.get_word_dec in
  self (add_basic_operation_details w (Some ReplaceNone) WriteBackAbsent address offset tag).

(** Answers the values stored under ["word"] and ["write_back"]. *)
Definition write_to_cache_wb (block_index : Z) (w : list Z) : M St (Z * WriteBack) :=
  on_block block_index (CacheBlock.write_to_cache w) ;;;
  on_block block_index (CacheBlock.upd (CacheBlock.set_dirty true)) ;;;
  let* v := on_block block_index CacheBlock.get_word_dec in
  ret (v, WriteBackFlag true).

Definition write_to_cache_wt (address block_index : Z) (w : list Z) : M St (Z * WriteBack) :=
  on_block block_index (CacheBlock.write_to_cache w) ;;;
  on_block block_index (CacheBlock.write_to_memory address) ;;;
  let* v := on_block block_index CacheBlock.get_word_dec in
  ret (v, WriteBackFlag false).

Definition write_to_cache (address tag block_index offset : Z) (w : list Z) (write_back : bool)
    : M St OperationDetails :=
  let* (v, wb) :=
    (if write_back then write_to_cache_wb block_index w
     else write_to_cache_wt address block_index w) in
  self (add_basic_operation_details v None wb address offset tag).

End CacheSet.

(** ** class Cache *)

Module Cache.

Record t : Type := mk {
  address_size : Z;
  cache_size : Z;
  block_size : Z;
  associativity : Z;
  write_back : bool;
  num_blocks : Z;
  num_sets : Z;
  num_blocks_per_set : Z;
  index_size : Z;
  block_offset_size : Z;
  tag_size : Z;
  sets : list CacheSet.t
}.

Definition set_sets (ss : list CacheSet.t) (c : t) : t :=
  {| address_size := address_size c; cache_size := cache_size c;
     block_size := block_size c; associativity := associativity c;
     write_back := write_back c; num_blocks := num_blocks c;
     num_sets := num_sets c; num_blocks_per_set := num_blocks_per_set c;
     index_size := index_size c; block_offset_size := block_offset_size c;
     tag_size := tag_size c; sets := ss |}.

Abbreviation St := (Memory * t)%type.

Definition self {A} (f : t -> A) : M St A := gets (fun '(_, c) => f c).

(** A method of a set, run on [self.sets[i]]. *)
Definition on_set {A} (i : Z) (m : M CacheSet.St A) : M St A :=
  fun '(mem, c) =>
    match py_index (length (sets c)) i with
    | None => Raise IndexError (mem, c)
    | Some n =>
        match sets c !! n with
        | None => Raise IndexError (mem, c)
        | Some s =>
            zoom (fun '(mem0, _) => (mem0, s))
                 (fun '(mem', s') '(_, c0) => (mem', set_sets (<[n:=s']> (sets c0)) c0))
                 m (mem, c)
        end
    end.

(** The loop [for i in range(i, i + n)] that builds the sets. *)
Fixpoint build_sets (n : nat) (i : Z) (write_back : bool) (num_blocks_per_set block_size : Z)
    : exn + list CacheSet.t :=
  match n with
  | O => inr []
  | S n' =>
      match CacheSet.init write_back num_blocks_per_set block_size i with
      | inl e => inl e
      | inr s =>
          match build_sets n' (i + 1) write_back num_blocks_per_set block_size with
          | inl e => inl e
          | inr ss => inr (s :: ss)
          end
      end
  end.

(** [__init__].  A true division by zero raises [ZeroDivisionError];
    [math.log] of a number that is not positive raises [ValueError].
    [int(a / b)] is written [Z.quot a b] and [int(math.log(n, 2))] is
    written [Z.log2 n]: the values of the code for a [cache_size] below
    [2 ^ 45] in magnitude. *)
Definition init (address_size cache_size block_size associativity : Z) (write_back : bool)
    : exn + t :=
  if bool_decide (block_size = 0) then inl ZeroDivisionError else
  let num_blocks := Z.quot cache_size block_size in
  if bool_decide (associativity = 0) then inl ZeroDivisionError else
  let num_sets := Z.quot num_blocks associativity in
  if bool_decide (num_sets = 0) then inl ZeroDivisionError else
  let num_blocks_per_set := Z.quot num_blocks num_sets in
  if bool_decide (num_sets <= 0) then inl ValueError else
  let index_size := Z.log2 num_sets in
  if bool_decide (block_size <= 0) then inl ValueError else
  let block_offset_size := Z.log2 block_size in
  let tag_size := address_size - (index_size + block_offset_size) in
  match build_sets (Z.to_nat num_sets) 0 write_back num_blocks_per_set block_size with
  | inl e => inl e
  | inr ss =>
      inr {| address_size := address_size; cache_size := cache_size;
             block_size := block_size; associativity := associativity;
             write_back := write_back; num_blocks := num_blocks;
             num_sets := num_sets; num_blocks_per_set := num_blocks_per_set;
             index_size := index_size; block_offset_size := block_offset_size;
             tag_size := tag_size; sets := ss |}
  end.

(** Answers [(block_offset, index, tag)].  [address % math.pow(...)] turns
    the address into a double first, and the fields are computed on
    doubles. *)
Definition split_address (c : t) (address : Z) : Z * Z * Z :=
  let address_split := float_of_int address in
  let block_offset := float_mod address_split (2 ^ block_offset_size c) in
  let address_split := float_floordiv address_split (2 ^ block_offset_size c) in
  let index := float_mod address_split (2 ^ index_size c) in
  let address_split := float_floordiv address_split (2 ^ index_size c) in
  let tag := address_split in
  (block_offset, index, tag).

Definition read (address : Z) : M St OperationDetails :=
  let* (block_offset, index, tag) := self (fun c => split_address c address) in
  let* block_index := on_set index (CacheSet.self (CacheSet.find_block_index tag)) in
  if bool_decide (block_index = -1) then
    let* d := on_set index (CacheSet.read_from_memory address tag block_offset) in
    ret (with_hit_or_miss miss d)
  else
    let* d := on_set index (CacheSet.read_from_cache address tag block_index block_offset) in
    ret (with_hit_or_miss hit d).

Definition write (address : Z) (w : list Z) : M St OperationDetails :=
  let* (block_offset, index, tag) := self (fun c => split_address c address) in
  let* block_index := on_set index (CacheSet.self (CacheSet.find_block_index tag)) in
  let* h :=
    (if bool_decide (block_index = -1) then
       let* _ := on_set index (CacheSet.read_from_memory address tag block_offset) in
       ret miss
     else ret hit) in
  let* wb_mode := self write_back in
  let* d := on_set index
              (CacheSet.write_to_cache address tag block_index block_offset w wb_mode) in
  ret (with_hit_or_miss h d).

End Cache.

(** ** module cache_sim *)

Definition int_to_bytearray (num : Z) : list Z :=
  let b0 := num mod 256 in
  let num := num / 256 in
  let b1 := num mod 256 in
  let num := num / 256 in
  let b2 := num mod 256 in
  let num := num / 256 in
  let b3 := num mod 256 in
  [b0; b1; b2; b3].

Inductive OpType : Type := op_read | op_write.

Module CacheSim.

Record t : Type := mk {
  address_size : Z;
  cache_size : Z;
  block_size : Z;
  associativity : Z;
  write_back : bool;
  memory_size : Z;
  memory : Memory;
  cache : Cache.t
}.

Definition set_store (st : Cache.St) (sim : t) : t :=
  {| address_size := address_size sim; cache_size := cache_size sim;
     block_size := block_size sim; associativity := associativity sim;
     write_back := write_back sim; memory_size := memory_size sim;
     memory := fst st; cache := snd st |}.

(** A method of the cache, run on [self.cache] and [self.memory]. *)
Definition on_cache {A} (m : M Cache.St A) : M t A :=
  zoom (fun sim => (memory sim, cache sim)) set_store m.

(** [self.memory[i + p] = bytes_to_load[p]] for [p] in [range(0, 4)] *)
Definition store_word (mem : Memory) (i : Z) (bytes_to_load : list Z) : option Memory :=
  b0 ← bytes_to_load !! 0%nat; mem ← py_set mem (i + 0) b0;
  b1 ← bytes_to_load !! 1%nat; mem ← py_set mem (i + 1) b1;
  b2 ← bytes_to_load !! 2%nat; mem ← py_set mem (i + 2) b2;
  b3 ← bytes_to_load !! 3%nat; py_set mem (i + 3) b3.

(** The loop [for i in range(i, i + 4 * n, 4)] that fills the memory. *)
Fixpoint init_memory (n : nat) (i : Z) (mem : Memory) : exn + Memory :=
  match n with
  | O => inr mem
  | S n' =>
      match store_word mem i (int_to_bytearray i) with
      | None => inl IndexError
      | Some mem' => init_memory n' (i + 4) mem'
      end
  end.

Definition init (address_size cache_size block_size associativity : Z) (write_back : bool)
    : exn + t :=
  let memory_size := 2 ^ address_size in
  match init_memory (Z.to_nat ((memory_size + 3) / 4)) 0 (bytearray memory_size) with
  | inl e => inl e
  | inr mem =>
      match Cache.init address_size cache_size block_size associativity write_back with
      | inl e => inl e
      | inr c =>
          inr {| address_size := address_size; cache_size := cache_size;
                 block_size := block_size; associativity := associativity;
                 write_back := write_back; memory_size := memory_size;
                 memory := mem; cache := c |}
      end
  end.

Definition assert (b : bool) : M t unit :=
  if b then ret tt else raise AssertionError.

(** The record handed to [operation_details_to_string] and printed. *)
Definition read (address : Z) : M t (OpType * OperationDetails) :=
  assert (bool_decide (address mod 4 = 0)) ;;;
  let* size := gets memory_size in
  assert (bool_decide (0 <= address <= size)) ;;;
  let* r := on_cache (Cache.read address) in
  ret (op_read, r).

Definition write (address : Z) (w : Z) : M t (OpType * OperationDetails) :=
  assert (bool_decide (address mod 4 = 0)) ;;;
  let* size := gets memory_size in
  assert (bool_decide (0 <= address <= size)) ;;;
  let byte_word := int_to_bytearray w in
  let* r := on_cache (Cache.write address byte_word) in
  ret (op_write, r).

End CacheSim.

(** ** Sequences of operations *)

Inductive Op : Type :=
  | Read (address : Z)
  | Write (address : Z) (w : Z).

Definition sim_step (o : Op) : M CacheSim.t (OpType * OperationDetails) :=
  match o with
  | Read a => CacheSim.read a
  | Write a w => CacheSim.write a w
  end.

(** Runs the operations in order; an exception ends the run. *)
Fixpoint sim_run (ops : list Op) : M CacheSim.t (list (OpType * OperationDetails)) :=
  match ops with
  | [] => ret []
  | o :: rest =>
      let* r := sim_step o in
      let* rs := sim_run rest in
      ret (r :: rs)
  end.

Definition cache_step (o : Op) : M Cache.St OperationDetails :=
  match o with
  | Read a => Cache.read a
  | Write a w => Cache.write a (int_to_bytearray w)
  end.

Fixpoint cache_run (ops : list Op) : M Cache.St (list OperationDetails) :=
  match ops with
  | [] => ret []
  | o :: rest =>
      let* r := cache_step o in
      let* rs := cache_run rest in
      ret (r :: rs)
  end.

(** * Properties *)

(** ** Configurations *)

Definition is_power_of_two (n : Z) : bool :=
  bool_decide (0 < n /\ 2 ^ Z.log2 n = n).

Lemma is_power_of_two_log2 n : is_power_of_two n = true -> 0 < n /\ 2 ^ Z.log2 n = n.
Proof. unfold is_power_of_two. intros H. by apply bool_decide_eq_true in H. Qed.

(** What [__init__] computes before it builds the sets. *)
Lemma init_fields asz csz bsz assoc wb c :
  Cache.init asz csz bsz assoc wb = inr c ->
  0 < bsz /\ assoc <> 0 /\ 0 < Cache.num_sets c /\
  Cache.block_size c = bsz /\
  Cache.write_back c = wb /\
  Cache.num_blocks c = Z.quot csz bsz /\
  Cache.num_sets c = Z.quot (Z.quot csz bsz) assoc /\
  Cache.num_blocks_per_set c = Z.quot (Z.quot csz bsz) (Cache.num_sets c) /\
  Cache.index_size c = Z.log2 (Cache.num_sets c) /\
  Cache.block_offset_size c = Z.log2 bsz /\
  Cache.tag_size c = asz - (Cache.index_size c + Cache.block_offset_size c) /\
  Cache.build_sets (Z.to_nat (Cache.num_sets c)) 0 wb (Cache.num_blocks_per_set c) bsz
    = inr (Cache.sets c).
Proof.
  unfold Cache.init. intros H.
  repeat case_bool_decide; try discriminate.
  destruct (Cache.build_sets _ _ _ _ _) as [e|ss] eqn:Hb; [discriminate|].
  injection H as <-. simpl. repeat split; try lia. exact Hb.
Qed.

Lemma float_of_int_exact n : Z.abs n < 2 ^ 53 -> float_of_int n = n.
Proof. intros H. unfold float_of_int. by rewrite bool_decide_eq_true_2. Qed.

Lemma float_of_int_nonneg n : 0 <= n -> 0 <= float_of_int n.
Proof.
  intros H. unfold float_of_int. case_bool_decide; [done|]. cbv zeta.
  set (e := Z.log2 (Z.abs n) - 52).
  pose proof (Z.pow_nonneg 2 e ltac:(lia)).
  pose proof (Z.div_pos (Z.abs n) (2 ^ e) ltac:(lia)).
  assert (0 <= Z.abs n / 2 ^ e).
  { destruct (decide (2 ^ e = 0)) as [->|]; [by rewrite Z.div_0_r|]. apply Z.div_pos; lia. }
  assert (0 <= Z.sgn n) by lia.
  repeat case_bool_decide; try destruct (Z.even _); nia.
Qed.

(** On a left operand that is not negative, [%] and [//] are the integer
    remainder and quotient. *)
Lemma float_mod_nonneg x w : 0 <= x -> 0 < w -> float_mod x w = x mod w.
Proof.
  intros Hx Hw. unfold float_mod. cbv zeta. rewrite Z.rem_mod_nonneg by lia.
  pose proof (Z.mod_pos_bound x w Hw). rewrite bool_decide_eq_false_2 by lia. done.
Qed.

Lemma float_floordiv_nonneg x w : 0 <= x -> 0 < w -> float_floordiv x w = x / w.
Proof.
  intros Hx Hw. unfold float_floordiv. cbv zeta. rewrite Z.rem_mod_nonneg by lia.
  pose proof (Z.mod_pos_bound x w Hw) as Hm. rewrite bool_decide_eq_false_2 by lia.
  pose proof (Z.mod_le x w Hx Hw).
  rewrite Z.quot_div_nonneg by lia.
  pose proof (Z.div_mod x w ltac:(lia)) as Hdm.
  replace (x - x mod w) with (x / w * w) by lia. apply Z.div_mul. lia.
Qed.

Lemma split_address_nonneg c a :
  0 <= a -> 0 <= Cache.block_offset_size c -> 0 <= Cache.index_size c ->
  Cache.split_address c a =
    (float_of_int a mod 2 ^ Cache.block_offset_size c,
     (float_of_int a / 2 ^ Cache.block_offset_size c) mod 2 ^ Cache.index_size c,
     float_of_int a / 2 ^ Cache.block_offset_size c / 2 ^ Cache.index_size c).
Proof.
  intros Ha Hoff Hix. unfold Cache.split_address. cbv zeta.
  pose proof (float_of_int_nonneg a Ha) as Hx.
  pose proof (Z.pow_pos_nonneg 2 _ ltac:(lia) Hoff) as Hpo.
  pose proof (Z.pow_pos_nonneg 2 _ ltac:(lia) Hix) as Hpi.
  rewrite !(float_floordiv_nonneg (float_of_int a)) by lia.
  rewrite float_mod_nonneg by lia.
  pose proof (Z.div_pos (float_of_int a) _ Hx Hpo).
  by rewrite float_mod_nonneg, float_floordiv_nonneg by lia.
Qed.

(** C6, as the code has it.  In a cache built with a block size and a
    number of sets that are powers of two, from a cache size below
    [2 ^ 53] in magnitude, [split_address] answers, for every address [a]
    of the address space that is below [2 ^ 53], offset
    [a mod block_size], index [(a div block_size) mod num_sets] and tag
    [a div (block_size * num_sets)]; the three fields put together give
    [a] back; and the call leaves the memory and the cache as they were. *)
Theorem split_address_reconstructs asz csz bsz assoc wb c (mem : Memory) a :
  Cache.init asz csz bsz assoc wb = inr c ->
  Z.abs csz < 2 ^ 53 ->
  is_power_of_two bsz = true ->
  is_power_of_two (Cache.num_sets c) = true ->
  0 <= a < 2 ^ asz ->
  a < 2 ^ 53 ->
  let offset := a mod bsz in
  let index := (a / bsz) mod Cache.num_sets c in
  let tag := a / (bsz * Cache.num_sets c) in
  Cache.split_address c a = (offset, index, tag) /\
  tag * Cache.num_sets c * bsz + index * bsz + offset = a /\
  Cache.self (fun c => Cache.split_address c a) (mem, c) = Done (offset, index, tag) (mem, c).
Proof.
  intros Hinit _ Hb Hs Ha Hsmall.
  apply init_fields in Hinit as (Hbpos & _ & Hspos & _ & _ & _ & _ & _ & Hix & Hoff & _).
  apply is_power_of_two_log2 in Hb as [_ Hb].
  apply is_power_of_two_log2 in Hs as [_ Hs].
  assert (Hsplit : Cache.split_address c a =
                   (a mod bsz, (a / bsz) mod Cache.num_sets c, a / (bsz * Cache.num_sets c))).
  { pose proof (Z.log2_nonneg bsz). pose proof (Z.log2_nonneg (Cache.num_sets c)).
    rewrite split_address_nonneg by lia. rewrite float_of_int_exact by lia.
    rewrite Hix, Hoff, Hb, Hs. rewrite Z.div_div by lia. reflexivity. }
  simpl. split; [exact Hsplit|]. split.
  - rewrite <- Z.div_div by lia.
    pose proof (Z.div_mod a bsz ltac:(lia)) as H1.
    pose proof (Z.div_mod (a / bsz) (Cache.num_sets c) ltac:(lia)) as H2.
    nia.
  - unfold Cache.self, gets. by rewrite Hsplit.
Qed.

Lemma split_address_reconstructs_witness :
  exists c, Cache.init 16 1024 64 1 true = inr c /\
    Cache.split_address c 1064 = (40, 0, 1) /\
    1 * Cache.num_sets c * 64 + 0 * 64 + 40 = 1064.
Proof.
  eexists. split; [vm_compute; reflexivity|].
  pose proof (split_address_reconstructs 16 1024 64 1 true _ [] 1064
                eq_refl eq_refl eq_refl eq_refl ltac:(lia) ltac:(lia)) as H.
  simpl in H. destruct H as (H1 & H2 & _). split; [exact H1 | exact H2].
Defined.

(** C6, as stated, fails from [2 ^ 53] on.  The address is turned into a
    double before it is split: with 64-bit addresses, two sets and blocks
    of 32, the odd address [2 ^ 53 + 1] of the address space is answered
    the fields of [2 ^ 53], offset 0 instead of 1, and the fields do not
    give the address back. *)
Lemma split_address_rounds_large_addresses :
  exists c,
    Cache.init 64 64 32 1 true = inr c /\ Z.abs 64 < 2 ^ 53 /\
    is_power_of_two 32 = true /\ is_power_of_two (Cache.num_sets c) = true /\
    0 <= 2 ^ 53 + 1 < 2 ^ 64 /\
    Cache.split_address c (2 ^ 53 + 1) = (0, 0, 2 ^ 47) /\
    (2 ^ 53 + 1) mod 32 = 1 /\
    2 ^ 47 * Cache.num_sets c * 32 + 0 * 32 + 0 <> 2 ^ 53 + 1.
Proof.
  eexists. split; [vm_compute; reflexivity|]. split; [done|].
  split; [by vm_compute|]. split; [by vm_compute|]. split; [by vm_compute|].
  split; [by vm_compute|]. split; [by vm_compute|]. by vm_compute.
Qed.

(** ** Construction *)

(** The block and the set the constructors build when they succeed. *)
Definition fresh_block (bsz : Z) : CacheBlock.t :=
  {| CacheBlock.occupied := false; CacheBlock.dirty := false; CacheBlock.tag := -1;
     CacheBlock.word := bytearray (Z.quot bsz 8) |}.

Definition fresh_set (wb : bool) (nb bsz i : Z) : CacheSet.t :=
  {| CacheSet.write_back := wb; CacheSet.tag_queue := TagQueue.init nb;
     CacheSet.blocks := replicate (Z.to_nat nb) (fresh_block bsz);
     CacheSet.num_blocks := nb; CacheSet.block_size := bsz; CacheSet.set_index := i;
     CacheSet.evicted_tag := -1; CacheSet.evicted_block_index := -1;
     CacheSet.last_write_address := -1 |}.

Lemma block_init_ok bsz : 0 < bsz -> CacheBlock.init bsz = inr (fresh_block bsz).
Proof.
  intros H. unfold CacheBlock.init. simpl.
  pose proof (Z.quot_pos bsz 8 ltac:(lia) ltac:(lia)).
  case_bool_decide; [lia|reflexivity].
Qed.

Lemma replicate_blocks_ok n bsz :
  0 < bsz -> CacheSet.replicate_blocks n bsz = inr (replicate n (fresh_block bsz)).
Proof.
  intros H. induction n as [|n IH]; simpl; [reflexivity|].
  by rewrite block_init_ok, IH.
Qed.

Lemma set_init_ok wb nb bsz i :
  0 < bsz -> CacheSet.init wb nb bsz i = inr (fresh_set wb nb bsz i).
Proof. intros H. unfold CacheSet.init. by rewrite replicate_blocks_ok. Qed.

Lemma build_sets_ok n i wb nb bsz :
  0 < bsz ->
  exists ss, Cache.build_sets n i wb nb bsz = inr ss /\ length ss = n /\
             Forall (fun s => exists j, s = fresh_set wb nb bsz j) ss.
Proof.
  intros H. revert i. induction n as [|n IH]; intros i; simpl.
  - exists []. by repeat split.
  - rewrite set_init_ok by done. destruct (IH (i + 1)) as (ss & -> & Hl & Hf).
    exists (fresh_set wb nb bsz i :: ss). repeat split; [by rewrite <- Hl|].
    constructor; [by exists i|done].
Qed.

(** The configurations the specification calls valid: [num_sets] and
    [block_size] exact powers of two, [cache_size] evenly divided into
    [num_sets] sets of [associativity] blocks of [block_size], and a tag
    width that is not negative. *)
Definition configuration_valid (asz csz bsz assoc : Z) : bool :=
  let num_sets := Z.quot (Z.quot csz bsz) assoc in
  is_power_of_two num_sets && is_power_of_two bsz
  && bool_decide (csz = num_sets * assoc * bsz)
  && bool_decide (0 <= asz - (Z.log2 num_sets + Z.log2 bsz)).

(** C7, as the code has it.  The constructor validates nothing.  For a
    cache size below [2 ^ 45] in magnitude, where its float quotients and
    logarithms are those of the integers, it returns a cache exactly when
    [block_size] is positive, [associativity] is not zero and the derived
    [num_sets] is positive, whatever else the configuration is; in every
    other case it raises the arithmetic exception of the division or
    logarithm that fails ([ZeroDivisionError] or [ValueError]) and returns
    no cache. *)
Theorem init_succeeds_unless_arithmetic_fails asz csz bsz assoc wb :
  Z.abs csz < 2 ^ 45 ->
  match Cache.init asz csz bsz assoc wb with
  | inr c =>
      0 < bsz /\ assoc <> 0 /\ 0 < Z.quot (Z.quot csz bsz) assoc /\
      Cache.num_sets c = Z.quot (Z.quot csz bsz) assoc /\
      length (Cache.sets c) = Z.to_nat (Cache.num_sets c)
  | inl e =>
      (bsz <= 0 \/ assoc = 0 \/ Z.quot (Z.quot csz bsz) assoc <= 0) /\
      (e = ZeroDivisionError \/ e = ValueError)
  end.
Proof.
  intros _.
  destruct (Cache.init asz csz bsz assoc wb) as [e|c] eqn:Hi.
  - unfold Cache.init in Hi.
    repeat case_bool_decide; try (injection Hi as <-; split; [lia|tauto]).
    destruct (build_sets_ok (Z.to_nat (Z.quot (Z.quot csz bsz) assoc)) 0 wb
                (Z.quot (Z.quot csz bsz) (Z.quot (Z.quot csz bsz) assoc)) bsz)
      as (ss & Hss & _); [lia|].
    rewrite Hss in Hi. discriminate.
  - apply init_fields in Hi as (? & ? & ? & _ & _ & _ & Hns & Hnb & _ & _ & _ & Hb).
    destruct (build_sets_ok (Z.to_nat (Cache.num_sets c)) 0 wb
                (Cache.num_blocks_per_set c) bsz) as (ss & Hss & Hl & _); [done|].
    rewrite Hss in Hb. injection Hb as <-. rewrite <- Hns. by repeat split.
Qed.

Lemma init_succeeds_unless_arithmetic_fails_witness :
  (exists c, Cache.init 16 1024 64 2 true = inr c /\
             Cache.num_sets c = 8 /\ length (Cache.sets c) = 8%nat) /\
  Cache.init 16 1024 0 2 true = inl ZeroDivisionError /\
  Cache.init 16 1024 64 (-2) true = inl ValueError.
Proof.
  split; [|split; reflexivity].
  pose proof (init_succeeds_unless_arithmetic_fails 16 1024 64 2 true eq_refl) as H.
  destruct (Cache.init 16 1024 64 2 true) as [e|c] eqn:Hi; [by vm_compute in Hi|].
  destruct H as (_ & _ & _ & Hn & Hl).
  change (8 ÷ 1) with 8 in Hn. change (1024 ÷ 64 ÷ 2) with 8 in Hn.
  exists c. split; [reflexivity|]. split; [exact Hn|]. by rewrite Hl, Hn.
Defined.

(** C7, as stated, fails: the constructor returns a cache for a number of
    sets that is not a power of two (3 sets), for a block size that is not
    a power of two (96), for a cache size that is not a whole number of
    blocks (1030 = 16 * 64 + 6) and for a negative tag width (4 - 10). *)
Lemma init_accepts_invalid_configurations :
  (configuration_valid 16 192 64 1 = false /\
   exists c, Cache.init 16 192 64 1 true = inr c /\ Cache.num_sets c = 3 /\
             length (Cache.sets c) = 3%nat) /\
  (configuration_valid 16 1536 96 1 = false /\
   exists c, Cache.init 16 1536 96 1 true = inr c /\ Cache.block_size c = 96) /\
  (configuration_valid 16 1030 64 1 = false /\
   exists c, Cache.init 16 1030 64 1 true = inr c /\ Cache.num_blocks c = 16) /\
  (configuration_valid 4 1024 64 1 = false /\
   exists c, Cache.init 4 1024 64 1 true = inr c /\ Cache.tag_size c = -6).
Proof.
  repeat split; try (vm_compute; reflexivity);
    eexists; (split; [vm_compute; reflexivity|]); by vm_compute.
Qed.

(** ** Runs on small caches

    The caches below have an 8-bit address space (256 bytes of memory,
    byte [i] of word [a] holding byte [i] of the number [a]) and blocks of
    size 32; addresses 0, 64, 128 and 192 all fall in set 0, with tags 0,
    1, 2 and 3. *)

(** The four bytes of memory at address [a]. *)
Definition mem_word (mem : Memory) (a : Z) : list Z := take 4 (drop (Z.to_nat a) mem).

(** The blocks and the tag queue of set [i] of the simulator's cache. *)
Definition sim_blocks (sim : CacheSim.t) (i : nat) : list CacheBlock.t :=
  from_option CacheSet.blocks [] (Cache.sets (CacheSim.cache sim) !! i).

Definition sim_queue (sim : CacheSim.t) (i : nat) : list Z :=
  from_option (fun s => TagQueue.queue (CacheSet.tag_queue s)) []
              (Cache.sets (CacheSim.cache sim) !! i).

Ltac run_sim :=
  repeat match goal with
         | |- exists _, _ => eexists
         | |- _ = inr _ /\ _ => split; [vm_compute; reflexivity|]
         | |- _ = Done _ _ /\ _ => split; [vm_compute; reflexivity|]
         | |- _ = Raise _ _ /\ _ => split; [vm_compute; reflexivity|]
         end.

(** C1, at a failing input.  Write-back cache with one block per set: word
    7 is written to address 0, then address 64 (same set, other tag) is
    read.  The dirty block is flushed to address 64, the address being
    read, and not to address 0: memory at 0 keeps its old word, memory at
    64 is overwritten with 7, and the read answers 7 in place of the word
    64 that memory held there. *)
Theorem eviction_flushes_to_accessed_address :
  exists sim rs sim',
    CacheSim.init 8 64 32 1 true = inr sim /\
    sim_run [Write 0 7; Read 64] sim = Done rs sim' /\
    mem_word (CacheSim.memory sim) 0 = [0; 0; 0; 0] /\
    mem_word (CacheSim.memory sim) 64 = [64; 0; 0; 0] /\
    mem_word (CacheSim.memory sim') 0 = [0; 0; 0; 0] /\
    mem_word (CacheSim.memory sim') 64 = [7; 0; 0; 0] /\
    map (fun r => (hit_or_miss (snd r), word (snd r), write_back (snd r))) rs =
      [(Some miss, 7, WriteBackFlag true); (Some miss, 7, WriteBackRange 64 95)].
Proof. run_sim. vm_compute. by repeat split. Qed.

(** C2, at a failing input.  Cache with two blocks per set, empty: word 7
    is written to address 0.  The miss allocates block 0 of set 0 for tag 0,
    but the word goes to block [-1], the last block of the set: the block
    that holds tag 0 keeps the word loaded from memory, block 1 holds 7 and
    is dirty without being occupied, and reading address 0 next is a hit
    that answers 0. *)
Theorem write_miss_writes_last_block :
  exists sim rs sim',
    CacheSim.init 8 128 32 2 true = inr sim /\
    sim_run [Write 0 7; Read 0] sim = Done rs sim' /\
    sim_blocks sim' 0 =
      [ {| CacheBlock.occupied := true; CacheBlock.dirty := false;
           CacheBlock.tag := 0; CacheBlock.word := [0; 0; 0; 0] |};
        {| CacheBlock.occupied := false; CacheBlock.dirty := true;
           CacheBlock.tag := -1; CacheBlock.word := [7; 0; 0; 0] |} ] /\
    map (fun r => (fst r, hit_or_miss (snd r), tag (snd r), word (snd r))) rs =
      [(op_write, Some miss, 0, 7); (op_read, Some hit, 0, 0)].
Proof. run_sim. vm_compute. by repeat split. Qed.

(** C4, at a failing input.  Cache with two blocks per set: tags 0 and 1
    are read into set 0, then word 7 is written to address 0, a write hit
    on tag 0.  The tag queue reported by the write, and held by the set
    afterwards, is still [[0; 1]]: the write hit did not touch it, and tag
    0 is not at the most-recently-used end, where one call of
    [update_queue] would have put it. *)
Theorem write_hit_leaves_queue_untouched :
  exists sim rs sim',
    CacheSim.init 8 128 32 2 true = inr sim /\
    sim_run [Read 0; Read 64; Write 0 7] sim = Done rs sim' /\
    map (fun r => (fst r, hit_or_miss (snd r), tag (snd r), tag_queue (snd r))) rs =
      [(op_read, Some miss, 0, [-1; 0]);
       (op_read, Some miss, 1, [0; 1]);
       (op_write, Some hit, 0, [0; 1])] /\
    sim_queue sim' 0 = [0; 1] /\
    TagQueue.update_queue 0 {| TagQueue.queue := [0; 1]; TagQueue.size := 2 |} =
      Done true {| TagQueue.queue := [1; 0]; TagQueue.size := 2 |}.
Proof. run_sim. vm_compute. by repeat split. Qed.

(** C9, at a failing input.  Same cache: tags 0 and 1 are read into set 0
    and fill it, then address 0 is written (write hit on tag 0).  The
    queue is [[0; 1]]: index 0 holds tag 0, the tag used last, and the last
    index holds tag 1, the tag used longest ago.  Reading address 128 next
    therefore evicts tag 0 and keeps tag 1. *)
Theorem queue_order_wrong_after_write_hit :
  exists sim rs sim' r sim'',
    CacheSim.init 8 128 32 2 true = inr sim /\
    sim_run [Read 0; Read 64; Write 0 7] sim = Done rs sim' /\
    map (fun r => tag (snd r)) rs = [0; 1; 0] /\
    map CacheBlock.occupied (sim_blocks sim' 0) = [true; true] /\
    sim_queue sim' 0 !! 0%nat = Some 0 /\
    last (sim_queue sim' 0) = Some 1 /\
    CacheSim.read 128 sim' = Done r sim'' /\
    replace_details (snd r) = Some (Replaced 0 0) /\
    map CacheBlock.tag (sim_blocks sim'' 0) = [2; 1] /\
    sim_queue sim'' 0 = [1; 2].
Proof.
  run_sim. split; [by vm_compute|]. split; [by vm_compute|].
  split; [by vm_compute|]. split; [by vm_compute|].
  run_sim. vm_compute. by repeat split.
Qed.

(** Addresses the assertions of [CacheSim.read] turn away: the simulator
    is left as it was. *)
Lemma sim_read_rejected sim a :
  a mod 4 <> 0 \/ a < 0 \/ CacheSim.memory_size sim < a ->
  CacheSim.read a sim = Raise AssertionError sim.
Proof.
  intros H. unfold CacheSim.read, bind, CacheSim.assert.
  case_bool_decide; [|reflexivity]. simpl.
  case_bool_decide; [lia|reflexivity].
Qed.

Lemma sim_write_rejected sim a w :
  a mod 4 <> 0 \/ a < 0 \/ CacheSim.memory_size sim < a ->
  CacheSim.write a w sim = Raise AssertionError sim.
Proof.
  intros H. unfold CacheSim.write, bind, CacheSim.assert.
  case_bool_decide; [|reflexivity]. simpl.
  case_bool_decide; [lia|reflexivity].
Qed.

(** C8, at a failing input.  The memory has 256 bytes, so address 256 is
    outside the address space; it is aligned, and the range assertion
    [0 <= address <= memory_size] lets it through.  The read then marks
    block 0 of set 0 occupied with tag 4 before the load from memory raises
    [IndexError]: the operation fails after it changed the cache, and a
    second read of address 256 is answered as a hit. *)
Theorem address_memory_size_passes_assertion :
  exists sim sim' r sim'',
    CacheSim.init 8 64 32 1 true = inr sim /\
    CacheSim.memory_size sim = 256 /\
    length (CacheSim.memory sim) = 256%nat /\
    CacheSim.read 256 sim = Raise IndexError sim' /\
    map (fun b => (CacheBlock.occupied b, CacheBlock.tag b)) (sim_blocks sim 0) =
      [(false, -1)] /\
    map (fun b => (CacheBlock.occupied b, CacheBlock.tag b)) (sim_blocks sim' 0) =
      [(true, 4)] /\
    CacheSim.read 256 sim' = Done r sim'' /\
    hit_or_miss (snd r) = Some hit /\
    CacheSim.write 256 7 sim = Raise IndexError sim'.
Proof.
  run_sim. split; [by vm_compute|]. split; [by vm_compute|].
  run_sim. split; [by vm_compute|]. split; [by vm_compute|].
  run_sim. split; [by vm_compute|]. by vm_compute.
Qed.

(** C3.  The code diverges: the boolean a write reports under
    ["write_back"] is the mode of the cache and not what the write did.
    In write-back mode [write(0, 7)] reports [True], which the printer
    shows as "write back" and documents as data written back to memory,
    although the write leaves every byte of the memory as it was.  In
    write-through mode it reports [False] and stores the word at once. *)
Theorem write_flag_is_the_mode :
  (exists sim rs sim',
      CacheSim.init 8 64 32 1 true = inr sim /\
      sim_run [Write 0 7] sim = Done rs sim' /\
      map (fun r => write_back (snd r)) rs = [WriteBackFlag true] /\
      CacheSim.memory sim' = CacheSim.memory sim) /\
  (exists sim rs sim',
      CacheSim.init 8 64 32 1 false = inr sim /\
      sim_run [Write 0 7] sim = Done rs sim' /\
      map (fun r => write_back (snd r)) rs = [WriteBackFlag false] /\
      mem_word (CacheSim.memory sim) 0 = [0; 0; 0; 0] /\
      mem_word (CacheSim.memory sim') 0 = [7; 0; 0; 0]).
Proof. split; run_sim; vm_compute; by repeat split. Qed.

(** C5, as stated, fails for the first read.  After word 7 is written to
    address 0 of a write-back cache, the first read of address 64 evicts
    the dirty block and flushes it: the read changes the memory. *)
Lemma first_read_can_change_memory :
  exists sim rs sim1 r sim2,
    CacheSim.init 8 64 32 1 true = inr sim /\
    sim_run [Write 0 7] sim = Done rs sim1 /\
    CacheSim.read 64 sim1 = Done r sim2 /\
    hit_or_miss (snd r) = Some miss /\
    CacheSim.memory sim2 <> CacheSim.memory sim1.
Proof. run_sim. split; [by vm_compute|]. by vm_compute. Qed.

(** ** Invariants of computations

    [inv I m]: from a state that satisfies [I], the computation [m] ends,
    normally or by an exception, in a state that satisfies [I]. *)

Definition inv {St A} (I : St -> Prop) (m : M St A) : Prop :=
  forall s, I s -> I (final_state (m s)).

Section InvRules.
Context {St : Type} (I : St -> Prop).

Lemma inv_ret {A} (a : A) : inv I (ret a).
Proof. intros s H. exact H. Qed.

Lemma inv_raise {A} e : inv I (@raise St A e).
Proof. intros s H. exact H. Qed.

Lemma inv_gets {A} (f : St -> A) : inv I (gets f).
Proof. intros s H. exact H. Qed.

Lemma inv_orelse {A} (o : option A) e : inv I (orelse o e).
Proof. destruct o; [apply inv_ret | apply inv_raise]. Qed.

Lemma inv_modify (f : St -> St) : (forall s, I s -> I (f s)) -> inv I (modify f).
Proof. intros Hf s H. apply Hf, H. Qed.

Lemma inv_bind {A B} (m : M St A) (f : A -> M St B) :
  inv I m -> (forall a, inv I (f a)) -> inv I (bind m f).
Proof.
  intros Hm Hf s H. unfold bind. specialize (Hm s H).
  destruct (m s) as [a s'|e s']; simpl in *; [by apply Hf | done].
Qed.

(** The same, when the value of [m] is known to satisfy [R]. *)
Lemma inv_bind_val {A B} (R : A -> Prop) (m : M St A) (f : A -> M St B) :
  (forall s, I s -> match m s with Done a s' => I s' /\ R a | Raise _ s' => I s' end) ->
  (forall a, R a -> inv I (f a)) -> inv I (bind m f).
Proof.
  intros Hm Hf s H. unfold bind. specialize (Hm s H).
  destruct (m s) as [a s'|e s']; simpl in *; [|done].
  destruct Hm as [Hs Ha]. by apply Hf.
Qed.

Lemma inv_zoom {S A} (J : S -> Prop) (proj : St -> S) (upd : S -> St -> St) (m : M S A) :
  inv J m ->
  (forall t, I t -> J (proj t)) ->
  (forall s t, I t -> J s -> I (upd s t)) ->
  inv I (zoom proj upd m).
Proof.
  intros Hm Hp Hu t H. unfold zoom. specialize (Hm (proj t) (Hp t H)).
  destruct (m (proj t)) as [a s|e s]; simpl in *; by apply Hu.
Qed.

End InvRules.

Ltac inv_auto :=
  repeat first
    [ apply inv_ret | apply inv_raise | apply inv_gets | apply inv_orelse
    | apply inv_bind; [|intros ?] ].

(** ** Write-through mode sets no dirty bit *)

Definition block_clean (st : CacheBlock.St) : Prop := CacheBlock.dirty (snd st) = false.

Definition set_clean (st : CacheSet.St) : Prop :=
  Forall (fun b => CacheBlock.dirty b = false) (CacheSet.blocks (snd st)).

Definition cache_clean (st : Cache.St) : Prop :=
  Cache.write_back (snd st) = false /\
  Forall (fun s => Forall (fun b => CacheBlock.dirty b = false) (CacheSet.blocks s))
         (Cache.sets (snd st)).

Lemma block_upd_clean f :
  (forall b, CacheBlock.dirty (f b) = CacheBlock.dirty b) -> inv block_clean (CacheBlock.upd f).
Proof. intros Hf. apply inv_modify. intros [mem b] H. unfold block_clean in *. simpl. by rewrite Hf. Qed.

Lemma load_byte_clean a i : inv block_clean (CacheBlock.load_byte a i).
Proof.
  intros [mem b] H. unfold CacheBlock.load_byte.
  destruct (py_get mem (a + i)); [|done]. by destruct (py_set _ i _).
Qed.

Lemma store_byte_clean a i : inv block_clean (CacheBlock.store_byte a i).
Proof.
  intros [mem b] H. unfold CacheBlock.store_byte.
  destruct (py_get _ i); [|done]. by destruct (py_set mem _ _).
Qed.

Lemma block_read_from_memory_clean a t : inv block_clean (CacheBlock.read_from_memory a t).
Proof.
  unfold CacheBlock.read_from_memory.
  inv_auto; first [apply load_byte_clean | by apply block_upd_clean].
Qed.

Lemma block_read_from_cache_clean t : inv block_clean (CacheBlock.read_from_cache t).
Proof. unfold CacheBlock.read_from_cache. inv_auto; by apply block_upd_clean. Qed.

Lemma block_write_to_memory_clean a : inv block_clean (CacheBlock.write_to_memory a).
Proof. unfold CacheBlock.write_to_memory. inv_auto; apply store_byte_clean. Qed.

Lemma block_write_to_cache_clean w : inv block_clean (CacheBlock.write_to_cache w).
Proof. by apply block_upd_clean. Qed.

Lemma block_clear_clean : inv block_clean CacheBlock.clear_block.
Proof.
  unfold CacheBlock.clear_block. inv_auto; try by apply block_upd_clean.
  apply inv_modify. by intros [mem b] _.
Qed.

Lemma block_get_word_dec_clean : inv block_clean CacheBlock.get_word_dec.
Proof. intros [mem b] H. unfold CacheBlock.get_word_dec. by destruct (CacheBlock.word_dec _). Qed.

Lemma on_block_clean {A} i (m : M CacheBlock.St A) :
  inv block_clean m -> inv set_clean (CacheSet.on_block i m).
Proof.
  intros Hm [mem s] H. unfold CacheSet.on_block.
  destruct (py_index _ i) as [n|]; [|done].
  destruct (CacheSet.blocks s !! n) as [b|] eqn:Hb; [|done].
  unfold CacheSet.on_block_at.
  apply (inv_zoom set_clean block_clean); [done| | |done].
  - intros [mem0 s0] _. unfold block_clean, set_clean in *. simpl in *.
    by eapply (Forall_lookup_1 _ _ _ _ H Hb).
  - intros [mem' b'] [mem0 s0] H0 Hb'. unfold block_clean, set_clean in *. simpl in *.
    by apply Forall_insert.
Qed.

Lemma on_tag_queue_clean {A} (m : M TagQueue.t A) : inv set_clean (CacheSet.on_tag_queue m).
Proof.
  apply (inv_zoom set_clean (fun _ => True)); [done|done|].
  by intros q [mem s] H _.
Qed.

Lemma set_upd_clean f :
  (forall s, CacheSet.blocks (f s) = CacheSet.blocks s) -> inv set_clean (CacheSet.upd f).
Proof. intros Hf. apply inv_modify. intros [mem s] H. unfold set_clean in *. simpl. by rewrite Hf. Qed.

Lemma set_self_clean {A} (f : CacheSet.t -> A) : inv set_clean (CacheSet.self f).
Proof. apply inv_gets. Qed.

Ltac set_clean_auto :=
  repeat first
    [ apply set_self_clean | apply on_tag_queue_clean
    | apply on_block_clean;
      first [ apply block_read_from_memory_clean | apply block_read_from_cache_clean
            | apply block_write_to_memory_clean | apply block_write_to_cache_clean
            | apply block_clear_clean | apply block_get_word_dec_clean ]
    | by apply set_upd_clean
    | apply inv_ret | apply inv_raise | apply inv_orelse
    | apply inv_bind; [|intros ?] ].

Lemma replace_cache_block_clean a t : inv set_clean (CacheSet.replace_cache_block a t).
Proof.
  unfold CacheSet.replace_cache_block. set_clean_auto.
  match goal with |- inv _ (if ?c then _ else _) => destruct c end; set_clean_auto.
Qed.

Lemma set_read_from_memory_clean a t o : inv set_clean (CacheSet.read_from_memory a t o).
Proof.
  unfold CacheSet.read_from_memory. set_clean_auto.
  - match goal with |- inv _ (match ?x with _ => _ end) => destruct x end;
      [set_clean_auto | apply replace_cache_block_clean].
  - match goal with a : (_ * _ * _)%type |- _ => destruct a as [[? ?] ?] end.
    set_clean_auto.
Qed.

Lemma set_read_from_cache_clean a t i o : inv set_clean (CacheSet.read_from_cache a t i o).
Proof. unfold CacheSet.read_from_cache. set_clean_auto. Qed.

(** With the write-through flag, [write_to_cache] takes the branch that
    never assigns [dirty]. *)
Lemma set_write_to_cache_wt_clean a t i o w :
  inv set_clean (CacheSet.write_to_cache a t i o w false).
Proof.
  unfold CacheSet.write_to_cache, CacheSet.write_to_cache_wt. set_clean_auto.
  match goal with a : (_ * _)%type |- _ => destruct a as [? ?] end. set_clean_auto.
Qed.

Lemma on_set_clean {A} i (m : M CacheSet.St A) :
  inv set_clean m -> inv cache_clean (Cache.on_set i m).
Proof.
  intros Hm [mem c] H. unfold Cache.on_set.
  destruct (py_index _ i) as [n|]; [|done].
  destruct (Cache.sets c !! n) as [s|] eqn:Hs; [|done].
  apply (inv_zoom cache_clean set_clean); [done| | |done].
  - intros [mem0 c0] _. destruct H as [_ H]. unfold set_clean. simpl in *.
    by eapply (Forall_lookup_1 _ _ _ _ H Hs).
  - intros [mem' s'] [mem0 c0] [Hw H0] Hs'. unfold set_clean, cache_clean in *. simpl in *.
    split; [done|]. by apply Forall_insert.
Qed.

Lemma cache_read_clean a : inv cache_clean (Cache.read a).
Proof.
  unfold Cache.read. apply inv_bind; [apply inv_gets|]. intros [[off ix] tg].
  apply inv_bind; [apply on_set_clean, set_self_clean|]. intros bi.
  case_bool_decide.
  - apply inv_bind; [apply on_set_clean, set_read_from_memory_clean|]. intros d. apply inv_ret.
  - apply inv_bind; [apply on_set_clean, set_read_from_cache_clean|]. intros d. apply inv_ret.
Qed.

Lemma cache_write_clean a w : inv cache_clean (Cache.write a w).
Proof.
  unfold Cache.write. apply inv_bind; [apply inv_gets|]. intros [[off ix] tg].
  apply inv_bind; [apply on_set_clean, set_self_clean|]. intros bi.
  apply inv_bind.
  { case_bool_decide; [|apply inv_ret].
    apply inv_bind; [apply on_set_clean, set_read_from_memory_clean|]. intros d. apply inv_ret. }
  intros h. apply (inv_bind_val _ (fun b => b = false)).
  { intros [mem c] H. split; [done|]. by destruct H. }
  intros wb ->.
  apply inv_bind; [apply on_set_clean, set_write_to_cache_wt_clean|]. intros d. apply inv_ret.
Qed.

Lemma cache_run_clean ops : inv cache_clean (cache_run ops).
Proof.
  induction ops as [|o ops IH]; simpl; [apply inv_ret|].
  apply inv_bind.
  - destruct o; [apply cache_read_clean | apply cache_write_clean].
  - intros r. apply inv_bind; [exact IH|]. intros rs. apply inv_ret.
Qed.

Definition sim_clean (sim : CacheSim.t) : Prop :=
  cache_clean (CacheSim.memory sim, CacheSim.cache sim).

Lemma on_cache_clean {A} (m : M Cache.St A) : inv cache_clean m -> inv sim_clean (CacheSim.on_cache m).
Proof.
  intros Hm. apply (inv_zoom sim_clean cache_clean); [done|done|].
  by intros [mem c] sim _ H.
Qed.

Lemma sim_step_clean o : inv sim_clean (sim_step o).
Proof.
  destruct o; simpl; unfold CacheSim.read, CacheSim.write, CacheSim.assert.
  - inv_auto; try by case_bool_decide; inv_auto.
    apply on_cache_clean, cache_read_clean.
  - inv_auto; try by case_bool_decide; inv_auto.
    apply on_cache_clean, cache_write_clean.
Qed.

Lemma sim_run_clean ops : inv sim_clean (sim_run ops).
Proof.
  induction ops as [|o ops IH]; simpl; [apply inv_ret|].
  apply inv_bind; [apply sim_step_clean|].
  intros r. apply inv_bind; [exact IH|]. intros rs. apply inv_ret.
Qed.

Lemma cache_init_clean asz csz bsz assoc c mem :
  Cache.init asz csz bsz assoc false = inr c -> cache_clean (mem, c).
Proof.
  intros Hi. apply init_fields in Hi as (Hb & _ & _ & _ & Hw & _ & _ & _ & _ & _ & _ & Hs).
  split; [exact Hw|]. simpl.
  destruct (build_sets_ok (Z.to_nat (Cache.num_sets c)) 0 false
              (Cache.num_blocks_per_set c) bsz Hb) as (ss & Hss & _ & Hf).
  rewrite Hss in Hs. injection Hs as <-.
  eapply Forall_impl; [exact Hf|]. intros s [j ->]. simpl.
  by apply Forall_replicate.
Qed.

(** C10.  In a simulator constructed in write-through mode, whatever
    reads and writes are run, and whether the run ends normally or in an
    exception, every block of every set has its dirty flag false. *)
Theorem write_through_never_dirty asz csz bsz assoc sim ops s b :
  CacheSim.init asz csz bsz assoc false = inr sim ->
  s ∈ Cache.sets (CacheSim.cache (final_state (sim_run ops sim))) ->
  b ∈ CacheSet.blocks s ->
  CacheBlock.dirty b = false.
Proof.
  intros Hi Hs Hb.
  assert (Hc : sim_clean sim).
  { unfold CacheSim.init in Hi.
    destruct (CacheSim.init_memory _ _ _) as [e|mem]; [discriminate|].
    destruct (Cache.init asz csz bsz assoc false) as [e|c] eqn:Hc; [discriminate|].
    injection Hi as <-. by eapply cache_init_clean. }
  pose proof (sim_run_clean ops sim Hc) as [_ H]. simpl in H.
  rewrite Forall_forall in H. specialize (H s Hs).
  rewrite Forall_forall in H. by apply H.
Qed.

Lemma write_through_never_dirty_witness :
  exists sim s b,
    CacheSim.init 8 64 32 1 false = inr sim /\
    Cache.sets (CacheSim.cache (final_state (sim_run [Write 0 7; Read 64] sim))) !! 0%nat
      = Some s /\
    CacheSet.blocks s !! 0%nat = Some b /\
    CacheBlock.tag b = 1 /\
    CacheBlock.dirty b = false.
Proof.
  do 3 eexists.
  split; [vm_compute; reflexivity|].
  split; [vm_compute; reflexivity|].
  split; [vm_compute; reflexivity|].
  split; [reflexivity|].
  eapply (write_through_never_dirty 8 64 32 1 _ [Write 0 7; Read 64]).
  - vm_compute; reflexivity.
  - eapply (list_elem_of_lookup_2 _ 0%nat). vm_compute; reflexivity.
  - eapply (list_elem_of_lookup_2 _ 0%nat). vm_compute; reflexivity.
Defined.

(** ** Operations that complete *)

Lemma py_index_nonneg len i :
  0 <= i < Z.of_nat len -> py_index len i = Some (Z.to_nat i).
Proof. intros H. unfold py_index. by rewrite bool_decide_eq_true_2. Qed.

Lemma py_index_of_nat len (k : nat) : (k < len)%nat -> py_index len (Z.of_nat k) = Some k.
Proof. intros H. rewrite py_index_nonneg by lia. by rewrite Nat2Z.id. Qed.

Lemma py_index_lt len i n : py_index len i = Some n -> (n < len)%nat.
Proof.
  unfold py_index. repeat case_bool_decide; intros [= <-]; lia.
Qed.

Lemma py_index_last len : (0 < len)%nat -> py_index len (-1) = Some (len - 1)%nat.
Proof.
  intros H. unfold py_index.
  rewrite bool_decide_eq_false_2 by lia. rewrite bool_decide_eq_true_2 by lia.
  f_equal. lia.
Qed.

(** The word at [a] lies inside the memory. *)
Definition valid_address (mem : Memory) (a : Z) : Prop :=
  0 <= a /\ a + 4 <= Z.of_nat (length mem).

Definition block_wf (b : CacheBlock.t) : Prop := (4 <= length (CacheBlock.word b))%nat.

Lemma load_byte_ok mem b a i :
  valid_address mem a -> 0 <= i < 4 -> block_wf b ->
  exists w, length w = length (CacheBlock.word b) /\
            CacheBlock.load_byte a i (mem, b) = Done tt (mem, CacheBlock.set_word w b).
Proof.
  intros [Ha1 Ha2] Hi Hb. unfold block_wf in Hb. unfold CacheBlock.load_byte, py_get, py_set.
  rewrite py_index_nonneg by lia. simpl.
  destruct (lookup_lt_is_Some_2 mem (Z.to_nat (a + i)) ltac:(lia)) as [x ->].
  rewrite py_index_nonneg by lia. simpl.
  eexists. split; [|reflexivity]. apply length_insert.
Qed.

Lemma block_read_from_memory_ok mem b a t :
  valid_address mem a -> block_wf b ->
  exists w, length w = length (CacheBlock.word b) /\
            CacheBlock.read_from_memory a t (mem, b) =
              Done tt (mem, CacheBlock.mk true (CacheBlock.dirty b) t w).
Proof.
  intros Ha Hb. unfold CacheBlock.read_from_memory, bind, CacheBlock.upd, modify.
  cbv beta iota.
  repeat match goal with
  | |- context [CacheBlock.load_byte a ?i (mem, ?b0)] =>
      let w := fresh "w" in let Hl := fresh "Hl" in let Heq := fresh "Heq" in
      destruct (load_byte_ok mem b0 a i) as (w & Hl & Heq);
      [done | lia | unfold block_wf in *; simpl in *; lia | rewrite Heq; clear Heq; simpl in Hl; cbv beta iota]
  end.
  eexists. split; [|reflexivity]. lia.
Qed.


Lemma store_byte_ok mem b a i :
  valid_address mem a -> 0 <= i < 4 -> block_wf b ->
  exists mem', length mem' = length mem /\
               CacheBlock.store_byte a i (mem, b) = Done tt (mem', b).
Proof.
  intros [Ha1 Ha2] Hi Hb. unfold block_wf in Hb. unfold CacheBlock.store_byte, py_get, py_set.
  rewrite py_index_nonneg by lia. simpl.
  destruct (lookup_lt_is_Some_2 (CacheBlock.word b) (Z.to_nat i) ltac:(lia)) as [x ->].
  rewrite py_index_nonneg by lia. simpl.
  eexists. split; [|reflexivity]. apply length_insert.
Qed.

Lemma block_write_to_memory_ok mem b a :
  valid_address mem a -> block_wf b ->
  exists mem', length mem' = length mem /\
               CacheBlock.write_to_memory a (mem, b) = Done tt (mem', b).
Proof.
  intros Ha Hb. unfold CacheBlock.write_to_memory, bind.
  repeat match goal with
  | |- context [CacheBlock.store_byte a ?i (?m0, b)] =>
      let m := fresh "m" in let Hl := fresh "Hl" in let Heq := fresh "Heq" in
      destruct (store_byte_ok m0 b a i) as (m & Hl & Heq);
      [unfold valid_address in *; lia | lia | done | rewrite Heq; clear Heq; cbv beta iota]
  end.

  eexists. split; [|reflexivity]. lia.
Qed.

Lemma block_get_word_dec_ok mem b :
  block_wf b ->
  exists v, CacheBlock.word_dec (CacheBlock.word b) = Some v /\
            CacheBlock.get_word_dec (mem, b) = Done v (mem, b).
Proof.
  intros Hb. unfold block_wf in Hb. unfold CacheBlock.get_word_dec, CacheBlock.word_dec, py_get.
  rewrite !py_index_nonneg by lia. simpl.
  destruct (lookup_lt_is_Some_2 (CacheBlock.word b) 0%nat ltac:(lia)) as [x0 H0].
  destruct (lookup_lt_is_Some_2 (CacheBlock.word b) 1%nat ltac:(lia)) as [x1 H1].
  destruct (lookup_lt_is_Some_2 (CacheBlock.word b) 2%nat ltac:(lia)) as [x2 H2].
  destruct (lookup_lt_is_Some_2 (CacheBlock.word b) 3%nat ltac:(lia)) as [x3 H3].
  change (Z.to_nat 0) with 0%nat. change (Z.to_nat 1) with 1%nat.
  change (Z.to_nat 2) with 2%nat. change (Z.to_nat 3) with 3%nat.
  rewrite H0, H1, H2, H3. simpl. eexists. split; reflexivity.
Qed.

Definition queue_wf (q : TagQueue.t) : Prop :=
  length (TagQueue.queue q) = Z.to_nat (TagQueue.size q) /\ TagQueue.queue q <> [].

Lemma search_ok q t i n :
  (i + n <= length q)%nat ->
  exists r, TagQueue.search q t i n = Done r tt /\
            match r with Some j => (j < length q)%nat | None => True end.
Proof.
  revert i. induction n as [|n IH]; intros i H; simpl.
  - by exists None.
  - destruct (lookup_lt_is_Some_2 q i ltac:(lia)) as [x ->].
    case_bool_decide.
    + exists (Some i). split; [done|lia].
    + apply IH. lia.
Qed.

Lemma update_queue_ok t q :
  queue_wf q ->
  exists r q', TagQueue.update_queue t q = Done r q' /\ queue_wf q'.
Proof.
  intros [Hl Hne]. unfold TagQueue.update_queue.
  destruct (search_ok (TagQueue.queue q) t 0 (Z.to_nat (TagQueue.size q)) ltac:(lia))
    as ([j|] & -> & Hj).
  - do 2 eexists. split; [reflexivity|]. unfold queue_wf. simpl.
    rewrite length_app, length_delete by (by apply lookup_lt_is_Some_2). simpl.
    split; [lia|]. by destruct (delete j (TagQueue.queue q)).
  - destruct (TagQueue.queue q) as [|x rest] eqn:Hq; [done|].
    do 2 eexists. split; [reflexivity|]. unfold queue_wf. simpl.
    rewrite length_app. simpl in *. split; [lia|]. by destruct rest.
Qed.

Definition set_wf (s : CacheSet.t) : Prop :=
  queue_wf (CacheSet.tag_queue s) /\ CacheSet.blocks s <> [] /\
  Forall block_wf (CacheSet.blocks s).

Lemma on_block_run {A} (m : M CacheBlock.St A) i k b mem s :
  py_index (length (CacheSet.blocks s)) i = Some k ->
  CacheSet.blocks s !! k = Some b ->
  CacheSet.on_block i m (mem, s) =
    match m (mem, b) with
    | Done x (mem', b') => Done x (mem', CacheSet.set_blocks (<[k:=b']> (CacheSet.blocks s)) s)
    | Raise e (mem', b') => Raise e (mem', CacheSet.set_blocks (<[k:=b']> (CacheSet.blocks s)) s)
    end.
Proof.
  intros Hi Hb. unfold CacheSet.on_block. rewrite Hi, Hb.
  unfold CacheSet.on_block_at, zoom.
  by destruct (m (mem, b)) as [x [mem' b']|e [mem' b']].
Qed.

Lemma on_tag_queue_run {A} (m : M TagQueue.t A) mem s :
  CacheSet.on_tag_queue m (mem, s) =
    match m (CacheSet.tag_queue s) with
    | Done x q => Done x (mem, CacheSet.set_tag_queue q s)
    | Raise e q => Raise e (mem, CacheSet.set_tag_queue q s)
    end.
Proof. reflexivity. Qed.

Lemma set_blocks_id s : CacheSet.set_blocks (CacheSet.blocks s) s = s.
Proof. by destruct s. Qed.

Lemma set_read_from_cache_ok mem s a t off k b :
  set_wf s -> CacheSet.blocks s !! k = Some b ->
  CacheBlock.occupied b = true -> CacheBlock.tag b = t ->
  exists d q',
    CacheSet.read_from_cache a t (Z.of_nat k) off (mem, s) =
      Done d (mem, CacheSet.set_tag_queue q' s) /\
    queue_wf q' /\
    CacheBlock.word_dec (CacheBlock.word b) = Some (word d).
Proof.
  intros (Hq & Hne & Hbs) Hb Hocc Htag.
  assert (Hk : (k < length (CacheSet.blocks s))%nat) by (by eapply lookup_lt_Some).
  unfold CacheSet.read_from_cache, bind.
  rewrite (on_block_run _ _ k b) by (by try apply py_index_of_nat).
  assert (Hrc : CacheBlock.read_from_cache t (mem, b) = Done tt (mem, b)).
  { destruct b; simpl in *; by subst. }
  rewrite Hrc, list_insert_id, set_blocks_id by done.
  rewrite on_tag_queue_run.
  destruct (update_queue_ok t _ Hq) as (r & q' & -> & Hq').
  rewrite (on_block_run _ _ k b) by (by try apply py_index_of_nat).
  destruct (block_get_word_dec_ok mem b) as (v & Hv & ->).
  { by eapply (Forall_lookup_1 _ _ _ _ Hbs Hb). }
  simpl. rewrite list_insert_id by done.
  eexists _, q'. split; [|split; [done|]].
  - reflexivity.
  - by simpl.
Qed.

Lemma set_tag_queue_id s : CacheSet.set_tag_queue (CacheSet.tag_queue s) s = s.
Proof. by destruct s. Qed.

Lemma first_match_range bs t i :
  CacheSet.first_match bs t i = -1 \/
  i <= CacheSet.first_match bs t i < i + Z.of_nat (length bs).
Proof.
  revert i. induction bs as [|b bs IH]; intros i; simpl; [by left|].
  destruct (bool_decide (CacheBlock.tag b = t) && CacheBlock.occupied b).
  - right. lia.
  - destruct (IH (i + 1)) as [H|H]; [by left|right; lia].
Qed.

Lemma find_block_index_valid t s :
  CacheSet.blocks s <> [] ->
  exists k b, py_index (length (CacheSet.blocks s)) (CacheSet.find_block_index t s) = Some k /\
              CacheSet.blocks s !! k = Some b.
Proof.
  intros Hne. unfold CacheSet.find_block_index.
  assert (0 < length (CacheSet.blocks s))%nat by (destruct (CacheSet.blocks s); [done|simpl; lia]).
  destruct (first_match_range (CacheSet.blocks s) t 0) as [->|Hr].
  - rewrite py_index_last by done.
    destruct (lookup_lt_is_Some_2 (CacheSet.blocks s) (length (CacheSet.blocks s) - 1) ltac:(lia))
      as [b Hb]. by eexists _, b.
  - rewrite py_index_nonneg by lia.
    destruct (lookup_lt_is_Some_2 (CacheSet.blocks s)
                (Z.to_nat (CacheSet.first_match (CacheSet.blocks s) t 0)) ltac:(lia))
      as [b Hb]. by eexists _, b.
Qed.

(** The last steps of a read: touch the queue, fetch the word of the block,
    build the details. *)
Lemma read_tail_ok mem s a t off bi k b rd wb :
  queue_wf (CacheSet.tag_queue s) ->
  py_index (length (CacheSet.blocks s)) bi = Some k ->
  CacheSet.blocks s !! k = Some b -> block_wf b ->
  exists d q',
    (let* _ := CacheSet.on_tag_queue (TagQueue.update_queue t) in
     let* w := CacheSet.on_block bi CacheBlock.get_word_dec in
     CacheSet.self (CacheSet.add_basic_operation_details w rd wb a off t)) (mem, s) =
      Done d (mem, CacheSet.set_tag_queue q' s) /\
    queue_wf q' /\
    CacheBlock.word_dec (CacheBlock.word b) = Some (word d).
Proof.
  intros Hq Hi Hb Hwf. unfold bind. rewrite on_tag_queue_run.
  destruct (update_queue_ok t _ Hq) as (r & q' & -> & Hq').
  rewrite (on_block_run _ _ k b) by done.
  destruct (block_get_word_dec_ok mem b Hwf) as (v & Hv & ->).
  simpl. rewrite list_insert_id by done.
  eexists _, q'. split; [reflexivity|]. by split.
Qed.

(** Clearing a block and loading the word at [a] into it. *)
Lemma refill_ok {A} (x : A) mem s a t bi k b :
  py_index (length (CacheSet.blocks s)) bi = Some k ->
  CacheSet.blocks s !! k = Some b ->
  valid_address mem a ->
  exists w,
    length w = 4%nat /\
    (CacheSet.on_block bi CacheBlock.clear_block ;;;
     CacheSet.on_block bi (CacheBlock.read_from_memory a t) ;;;
     ret x) (mem, s) =
      Done x (mem, CacheSet.set_blocks
                     (<[k := CacheBlock.mk true false t w]> (CacheSet.blocks s)) s).
Proof.
  intros Hi Hb Ha. unfold bind. pose proof (py_index_lt _ _ _ Hi) as Hk.
  rewrite (on_block_run _ _ k b) by done.
  change (CacheBlock.clear_block (mem, b))
    with (Done (St := CacheBlock.St) tt (mem, CacheBlock.mk false false (-1) (bytearray 4))).
  cbv beta iota.
  rewrite (on_block_run _ _ k (CacheBlock.mk false false (-1) (bytearray 4))).
  2: { simpl. by rewrite length_insert. }
  2: { simpl. by apply list_lookup_insert_eq. }
  destruct (block_read_from_memory_ok mem (CacheBlock.mk false false (-1) (bytearray 4)) a t Ha)
    as (w & Hl & ->); [unfold block_wf; simpl; lia|].
  simpl. rewrite list_insert_insert_eq. by exists w.
Qed.

Lemma bind_run {St A B} (m : M St A) (f : A -> M St B) s :
  bind m f s = match m s with Done a s' => f a s' | Raise e s' => Raise e s' end.
Proof. reflexivity. Qed.

Lemma set_self_run {A} (f : CacheSet.t -> A) mem s :
  CacheSet.self f (mem, s) = Done (f s) (mem, s).
Proof. reflexivity. Qed.

Lemma set_upd_run f mem s : CacheSet.upd f (mem, s) = Done tt (mem, f s).
Proof. reflexivity. Qed.

Lemma ret_run {St A} (x : A) (s : St) : ret x s = Done x s.
Proof. reflexivity. Qed.

Lemma py_get_index {A} (l : list A) i k :
  py_index (length l) i = Some k -> py_get l i = l !! k.
Proof. unfold py_get. by intros ->. Qed.

Lemma replace_cache_block_ok mem s a t :
  set_wf s -> valid_address mem a ->
  exists bi wb rd mem' s' k b0 w,
    CacheSet.replace_cache_block a t (mem, s) = Done (bi, wb, rd) (mem', s') /\
    py_index (length (CacheSet.blocks s)) bi = Some k /\
    CacheSet.blocks s !! k = Some b0 /\
    CacheSet.blocks s' = <[k := CacheBlock.mk true false t w]> (CacheSet.blocks s) /\
    length w = 4%nat /\
    CacheSet.tag_queue s' = CacheSet.tag_queue s /\
    length mem' = length mem /\
    (CacheSet.write_back s && CacheBlock.dirty b0 = false -> mem' = mem).
Proof.
  intros (Hq & Hne & Hbs) Ha. unfold CacheSet.replace_cache_block.
  rewrite bind_run, on_tag_queue_run.
  destruct Hq as [Hql Hqne].
  destruct (TagQueue.queue (CacheSet.tag_queue s)) as [|x rest] eqn:Hqueue; [done|].
  unfold TagQueue.get_least_recently_used. rewrite Hqueue, set_tag_queue_id.
  rewrite bind_run, set_self_run.
  destruct (find_block_index_valid x s Hne) as (k & b0 & Hi & Hb0).
  set (bi := CacheSet.find_block_index x s) in *.
  rewrite bind_run, (bind_run (CacheSet.self CacheSet.blocks)), set_self_run.
  rewrite (py_get_index _ _ _ Hi), Hb0. unfold orelse. rewrite ret_run.
  rewrite bind_run, set_self_run, bind_run.
  assert (Hwf0 : block_wf b0) by (by eapply (Forall_lookup_1 _ _ _ _ Hbs Hb0)).
  destruct (CacheSet.write_back s && CacheBlock.dirty b0) eqn:Hd.
  - rewrite bind_run, (on_block_run _ _ k b0) by done.
    destruct (block_write_to_memory_ok mem b0 a Ha Hwf0) as (mem' & Hl & ->).
    rewrite list_insert_id, set_blocks_id by done.
    rewrite bind_run, set_upd_run, bind_run, set_self_run, ret_run.
    destruct (refill_ok (bi, WriteBackRange (find_range a (CacheSet.block_size s)).1
                               (find_range a (CacheSet.block_size s)).2, Replaced x bi)
                mem' (CacheSet.set_last_write_address a s) a t bi k b0 Hi Hb0)
      as (w & Hw & Heq); [unfold valid_address in *; lia|].
    eexists bi, _, _, mem', _, k, b0, w. split; [exact Heq|].
    repeat split; try done. intros; congruence.
  - rewrite ret_run.
    destruct (refill_ok (bi, WriteBackNone, Replaced x bi) mem s a t bi k b0 Hi Hb0 Ha)
      as (w & Hw & Heq).
    eexists bi, _, _, mem, _, k, b0, w. split; [exact Heq|].
    by repeat split.
Qed.

Lemma insert_nonempty {A} (l : list A) i x : l <> [] -> <[i:=x]> l <> [].
Proof. destruct l; [done|]. by destruct i. Qed.

Lemma first_free_lookup bs i n :
  CacheSet.first_free bs i = Some n ->
  (i <= n)%nat /\ exists b, bs !! (n - i)%nat = Some b.
Proof.
  revert i. induction bs as [|b bs IH]; intros i; simpl; [done|].
  destruct (CacheBlock.occupied b).
  - intros H. destruct (IH _ H) as (Hle & b' & Hb'). split; [lia|].
    exists b'. by replace (n - i)%nat with (S (n - S i)) by lia.
  - intros [= <-]. split; [lia|]. exists b. by rewrite Nat.sub_diag.
Qed.

Lemma set_read_from_memory_ok mem s a t off :
  set_wf s -> valid_address mem a ->
  exists d mem' s' k b',
    CacheSet.read_from_memory a t off (mem, s) = Done d (mem', s') /\
    set_wf s' /\ length mem' = length mem /\
    (k < length (CacheSet.blocks s))%nat /\
    CacheSet.blocks s' = <[k := b']> (CacheSet.blocks s) /\
    CacheBlock.occupied b' = true /\ CacheBlock.tag b' = t /\
    CacheBlock.word_dec (CacheBlock.word b') = Some (word d) /\
    ((forall b, b ∈ CacheSet.blocks s ->
        CacheSet.write_back s && CacheBlock.dirty b = false) -> mem' = mem).
Proof.
  intros Hwf Ha. pose proof Hwf as (Hq & Hne & Hbs).
  unfold CacheSet.read_from_memory.
  rewrite bind_run, set_upd_run, bind_run, set_self_run, bind_run.
  set (s0 := CacheSet.set_last_write_address (-1) s).
  destruct (CacheSet.find_free_block s0) as [n|] eqn:Hfree.
  - apply first_free_lookup in Hfree as (_ & b & Hb). rewrite Nat.sub_0_r in Hb.
    assert (Hn : (n < length (CacheSet.blocks s))%nat) by (by eapply lookup_lt_Some).
    assert (Hwfb : block_wf b) by (by eapply (Forall_lookup_1 _ _ _ _ Hbs Hb)).
    rewrite bind_run, (on_block_run _ _ n b) by (by try apply py_index_of_nat).
    destruct (block_read_from_memory_ok mem b a t Ha Hwfb) as (w & Hw & ->).
    rewrite bind_run, set_upd_run, ret_run.
    set (b' := CacheBlock.mk true (CacheBlock.dirty b) t w).
    set (s1 := CacheSet.set_evicted _ _ _).
    destruct (read_tail_ok mem s1 a t off (Z.of_nat n) n b' (Some ReplaceNone) WriteBackAbsent)
      as (d & q' & Heq & Hq' & Hd); [done| | |unfold block_wf, b'; simpl; unfold block_wf in Hwfb; lia|].
    { simpl. rewrite length_insert. by apply py_index_of_nat. }
    { simpl. by apply list_lookup_insert_eq. }
    assert (Hwfb' : block_wf b') by (unfold block_wf, b'; simpl; unfold block_wf in Hwfb; lia).
    eexists d, mem, _, n, b'. split; [exact Heq|].
    split; [|by repeat split].
    split; [exact Hq'|]. simpl.
    split; [by apply insert_nonempty | by apply Forall_insert].
  - destruct (replace_cache_block_ok mem s0 a t Hwf Ha)
      as (bi & wb & rd & mem' & s1 & k & b0 & w & -> & Hi & Hb0 & Hbl & Hw & Htq & Hl & Hm).
    set (b' := CacheBlock.mk true false t w) in *.
    pose proof (py_index_lt _ _ _ Hi) as Hk. simpl in Hk, Hb0, Hbl, Htq, Hi.
    destruct (read_tail_ok mem' s1 a t off bi k b' (Some rd) wb)
      as (d & q' & Heq & Hq' & Hd).
    { by rewrite Htq. }
    { by rewrite Hbl, length_insert. }
    { rewrite Hbl. by apply list_lookup_insert_eq. }
    { unfold block_wf, b'. simpl. lia. }
    assert (Hwfb' : block_wf b') by (unfold block_wf, b'; simpl; lia).
    eexists d, mem', _, k, b'. split; [exact Heq|].
    split.
    { split; [exact Hq'|]. simpl. rewrite Hbl.
      split; [by apply insert_nonempty | by apply Forall_insert]. }
    repeat split; try done.
    intros Hclean. apply Hm. simpl. apply Hclean. by eapply list_elem_of_lookup_2.
Qed.

(** Well-formed caches: the index field selects an existing set, every
    set has a block and a queue as long as its [size], every block a word of
    at least four bytes.  [Cache.__init__] builds such a cache for a
    positive associativity and a block size of at least 32
    ([cache_init_wf]), and every read or write that completes leaves one
    ([cache_step_ok]). *)
Definition cache_wf (c : Cache.t) : Prop :=
  0 <= Cache.block_offset_size c /\ 0 <= Cache.index_size c /\
  2 ^ Cache.index_size c <= Z.of_nat (length (Cache.sets c)) /\
  Forall set_wf (Cache.sets c).

(** The set index and the tag of an address. *)
Definition index_of (c : Cache.t) (a : Z) : Z := snd (fst (Cache.split_address c a)).
Definition tag_of (c : Cache.t) (a : Z) : Z := snd (Cache.split_address c a).
Definition offset_of (c : Cache.t) (a : Z) : Z := fst (fst (Cache.split_address c a)).

Lemma on_set_run {A} (m : M CacheSet.St A) i n s mem c :
  py_index (length (Cache.sets c)) i = Some n ->
  Cache.sets c !! n = Some s ->
  Cache.on_set i m (mem, c) =
    match m (mem, s) with
    | Done x (mem', s') => Done x (mem', Cache.set_sets (<[n:=s']> (Cache.sets c)) c)
    | Raise e (mem', s') => Raise e (mem', Cache.set_sets (<[n:=s']> (Cache.sets c)) c)
    end.
Proof.
  intros Hi Hs. unfold Cache.on_set. rewrite Hi, Hs. unfold zoom.
  by destruct (m (mem, s)) as [x [mem' s']|e [mem' s']].
Qed.

Lemma set_sets_id c : Cache.set_sets (Cache.sets c) c = c.
Proof. by destruct c. Qed.

Lemma index_of_valid c a :
  cache_wf c -> 0 <= a ->
  exists n s, py_index (length (Cache.sets c)) (index_of c a) = Some n /\
              Cache.sets c !! n = Some s /\ set_wf s.
Proof.
  intros (Hb & Hi & Hl & Hwf) Ha. unfold index_of.
  rewrite split_address_nonneg by done. simpl.
  set (x := float_of_int a).
  pose proof (Z.mod_pos_bound (x / 2 ^ Cache.block_offset_size c) (2 ^ Cache.index_size c)
                ltac:(by apply Z.pow_pos_nonneg)) as Hr.
  rewrite py_index_nonneg by lia.
  destruct (lookup_lt_is_Some_2 (Cache.sets c)
              (Z.to_nat ((x / 2 ^ Cache.block_offset_size c) mod 2 ^ Cache.index_size c))
              ltac:(lia)) as [s Hs].
  eexists _, s. split; [done|]. split; [done|]. by eapply (Forall_lookup_1 _ _ _ _ Hwf Hs).
Qed.

Lemma cache_read_run a mem c :
  Cache.read a (mem, c) =
    (let* block_index :=
       Cache.on_set (index_of c a) (CacheSet.self (CacheSet.find_block_index (tag_of c a))) in
     if bool_decide (block_index = -1) then
       let* d := Cache.on_set (index_of c a)
                   (CacheSet.read_from_memory a (tag_of c a) (offset_of c a)) in
       ret (with_hit_or_miss miss d)
     else
       let* d := Cache.on_set (index_of c a)
                   (CacheSet.read_from_cache a (tag_of c a) block_index (offset_of c a)) in
       ret (with_hit_or_miss hit d)) (mem, c).
Proof. reflexivity. Qed.

Lemma cache_write_run a w mem c :
  Cache.write a w (mem, c) =
    (let* block_index :=
       Cache.on_set (index_of c a) (CacheSet.self (CacheSet.find_block_index (tag_of c a))) in
     let* h :=
       (if bool_decide (block_index = -1) then
          let* _ := Cache.on_set (index_of c a)
                      (CacheSet.read_from_memory a (tag_of c a) (offset_of c a)) in
          ret miss
        else ret hit) in
     let* wb_mode := Cache.self Cache.write_back in
     let* d := Cache.on_set (index_of c a)
                 (CacheSet.write_to_cache a (tag_of c a) block_index (offset_of c a) w wb_mode) in
     ret (with_hit_or_miss h d)) (mem, c).
Proof. reflexivity. Qed.

(** The word of address [a] is in the cache: the set of [a] has a block,
    the first one found for the tag of [a], whose word is [v]. *)
Definition resident (a v : Z) (c : Cache.t) : Prop :=
  exists n s k b,
    py_index (length (Cache.sets c)) (index_of c a) = Some n /\
    Cache.sets c !! n = Some s /\
    CacheSet.find_block_index (tag_of c a) s = Z.of_nat k /\
    CacheSet.blocks s !! k = Some b /\
    CacheBlock.word_dec (CacheBlock.word b) = Some v.

Lemma first_match_found bs t i j :
  CacheSet.first_match bs t i = j -> 0 <= i <= j ->
  exists b, bs !! Z.to_nat (j - i) = Some b /\
            CacheBlock.tag b = t /\ CacheBlock.occupied b = true.
Proof.
  revert i. induction bs as [|b bs IH]; intros i; simpl; [intros <- ?; lia|].
  destruct (bool_decide (CacheBlock.tag b = t) && CacheBlock.occupied b) eqn:Hm.
  - intros <- _. rewrite Z.sub_diag. exists b. simpl.
    apply andb_true_iff in Hm as [Ht Ho]. by apply bool_decide_eq_true in Ht.
  - intros Hj Hle.
    destruct (first_match_range bs t (i + 1)) as [Hr|Hr]; [lia|].
    destruct (IH (i + 1) Hj ltac:(lia)) as (b' & Hb' & H').
    exists b'. split; [|done].
    by replace (Z.to_nat (j - i)) with (S (Z.to_nat (j - (i + 1)))) by lia.
Qed.

Lemma first_match_insert bs t i k b' :
  CacheSet.first_match bs t i = -1 -> 0 <= i -> (k < length bs)%nat ->
  CacheBlock.tag b' = t -> CacheBlock.occupied b' = true ->
  CacheSet.first_match (<[k:=b']> bs) t i = i + Z.of_nat k.
Proof.
  revert i k. induction bs as [|b bs IH]; intros i k Hm Hi Hk Ht Ho; simpl in *; [lia|].
  destruct (bool_decide (CacheBlock.tag b = t) && CacheBlock.occupied b) eqn:Hb; [lia|].
  destruct k as [|k]; simpl.
  - rewrite Ho, bool_decide_eq_true_2 by done. simpl. lia.
  - rewrite Hb. rewrite (IH (i + 1) k) by (done || lia). lia.
Qed.

Lemma cache_wf_insert c n s s' :
  cache_wf c -> Cache.sets c !! n = Some s -> set_wf s' ->
  cache_wf (Cache.set_sets (<[n:=s']> (Cache.sets c)) c).
Proof.
  intros (Hb & Hi & Hl & Hwf) Hs Hs'. unfold cache_wf. simpl.
  rewrite length_insert. repeat split; try done. by apply Forall_insert.
Qed.

Lemma cache_read_hit_ok a v mem c :
  cache_wf c -> resident a v c ->
  exists d c',
    Cache.read a (mem, c) = Done d (mem, c') /\
    hit_or_miss d = Some hit /\ word d = v /\
    cache_wf c' /\ resident a v c'.
Proof.
  intros Hwf (n & s & k & b & Hn & Hs & Hfind & Hb & Hv).
  assert (Hswf : set_wf s).
  { destruct Hwf as (_ & _ & _ & Hf). by eapply (Forall_lookup_1 _ _ _ _ Hf Hs). }
  destruct (first_match_found _ _ 0 _ Hfind ltac:(lia)) as (b0 & Hb0 & Htag & Hocc).
  rewrite Z.sub_0_r, Nat2Z.id, Hb in Hb0. injection Hb0 as <-.
  rewrite cache_read_run, bind_run, (on_set_run _ _ n s), set_self_run by done.
  rewrite list_insert_id, set_sets_id, Hfind by done.
  rewrite bool_decide_eq_false_2 by lia.
  rewrite bind_run, (on_set_run _ _ n s) by done.
  destruct (set_read_from_cache_ok mem s a (tag_of c a) (offset_of c a) k b Hswf Hb Hocc Htag)
    as (d & q' & -> & Hq' & Hd).
  rewrite ret_run.
  assert (Hswf' : set_wf (CacheSet.set_tag_queue q' s)).
  { destruct Hswf as (_ & ? & ?). by split. }
  eexists _, _. split; [reflexivity|]. split; [done|]. split.
  { simpl. rewrite Hd in Hv. by injection Hv. }
  split; [by eapply cache_wf_insert|].
  exists n, (CacheSet.set_tag_queue q' s), k, b.
  pose proof (py_index_lt _ _ _ Hn) as Hlt.
  split; [simpl; by rewrite length_insert|].
  split; [simpl; by apply list_lookup_insert_eq|]. by repeat split.
Qed.

(** No block whose flush an eviction would carry out. *)
Definition nothing_to_flush (c : Cache.t) : Prop :=
  forall s b, s ∈ Cache.sets c -> b ∈ CacheSet.blocks s ->
              CacheSet.write_back s && CacheBlock.dirty b = false.

Lemma cache_read_miss_ok a mem c n s :
  cache_wf c -> valid_address mem a ->
  py_index (length (Cache.sets c)) (index_of c a) = Some n ->
  Cache.sets c !! n = Some s ->
  CacheSet.find_block_index (tag_of c a) s = -1 ->
  exists d mem' c',
    Cache.read a (mem, c) = Done d (mem', c') /\
    hit_or_miss d = Some miss /\
    cache_wf c' /\ resident a (word d) c' /\
    length mem' = length mem /\
    (nothing_to_flush c -> mem' = mem).
Proof.
  intros Hwf Ha Hn Hs Hfind.
  assert (Hswf : set_wf s).
  { destruct Hwf as (_ & _ & _ & Hf). by eapply (Forall_lookup_1 _ _ _ _ Hf Hs). }
  rewrite cache_read_run, bind_run, (on_set_run _ _ n s), set_self_run by done.
  rewrite list_insert_id, set_sets_id, Hfind by done.
  rewrite bool_decide_eq_true_2 by done.
  rewrite bind_run, (on_set_run _ _ n s) by done.
  destruct (set_read_from_memory_ok mem s a (tag_of c a) (offset_of c a) Hswf Ha)
    as (d & mem' & s' & k & b' & -> & Hswf' & Hl & Hk & Hbl & Hocc & Htag & Hd & Hm).
  rewrite ret_run.
  eexists _, mem', _. split; [reflexivity|]. split; [done|].
  split; [by eapply cache_wf_insert|].
  pose proof (py_index_lt _ _ _ Hn) as Hlt.
  split; [|split; [done|]].
  - exists n, s', k, b'.
    split; [simpl; by rewrite length_insert|].
    split; [simpl; by apply list_lookup_insert_eq|].
    split; [|split; [|done]].
    + unfold CacheSet.find_block_index in *. rewrite Hbl.
      by rewrite (first_match_insert _ _ 0 k b') by (done || lia).
    + rewrite Hbl. by apply list_lookup_insert_eq.
  - intros Hc. apply Hm. intros b Hb. apply (Hc s b); [|done].
    by eapply list_elem_of_lookup_2.
Qed.

Lemma resident_of_hit a (mem : Memory) c n s :
  cache_wf c ->
  py_index (length (Cache.sets c)) (index_of c a) = Some n ->
  Cache.sets c !! n = Some s ->
  CacheSet.find_block_index (tag_of c a) s <> -1 ->
  exists v, resident a v c.
Proof.
  intros Hwf Hn Hs Hh.
  assert (Hswf : set_wf s).
  { destruct Hwf as (_ & _ & _ & Hf). by eapply (Forall_lookup_1 _ _ _ _ Hf Hs). }
  unfold CacheSet.find_block_index in Hh.
  destruct (first_match_range (CacheSet.blocks s) (tag_of c a) 0) as [?|Hr]; [done|].
  set (j := CacheSet.first_match (CacheSet.blocks s) (tag_of c a) 0) in *.
  destruct (lookup_lt_is_Some_2 (CacheSet.blocks s) (Z.to_nat j) ltac:(lia)) as [b Hb].
  destruct (block_get_word_dec_ok mem b) as (v & Hv & _).
  { destruct Hswf as (_ & _ & Hf). by eapply (Forall_lookup_1 _ _ _ _ Hf Hb). }
  exists v, n, s, (Z.to_nat j), b. split_and!; try done.
  unfold CacheSet.find_block_index. fold j. lia.
Qed.

Lemma cache_read_ok a mem c :
  cache_wf c -> valid_address mem a ->
  exists d mem' c',
    Cache.read a (mem, c) = Done d (mem', c') /\
    cache_wf c' /\ resident a (word d) c' /\
    length mem' = length mem /\
    (nothing_to_flush c -> mem' = mem).
Proof.
  intros Hwf Ha.
  destruct (index_of_valid c a Hwf (proj1 Ha)) as (n & s & Hn & Hs & Hswf).
  destruct (decide (CacheSet.find_block_index (tag_of c a) s = -1)) as [Hm|Hh].
  - destruct (cache_read_miss_ok a mem c n s Hwf Ha Hn Hs Hm)
      as (d & mem' & c' & Hr & _ & H). by exists d, mem', c'.
  - destruct (resident_of_hit a mem c n s Hwf Hn Hs Hh) as [v Hres].
    destruct (cache_read_hit_ok a v mem c Hwf Hres) as (d & c' & Hr' & _ & Hw & Hwf' & Hres').
    exists d, mem, c'. rewrite Hw. by split_and!.
Qed.

Lemma repeated_hits a v mem n : forall c,
  cache_wf c -> resident a v c ->
  exists ds c',
    cache_run (replicate n (Read a)) (mem, c) = Done ds (mem, c') /\
    length ds = n /\
    Forall (fun d => hit_or_miss d = Some hit /\ word d = v) ds.
Proof.
  induction n as [|n IH]; intros c Hwf Hres; simpl.
  - by exists [], c.
  - destruct (cache_read_hit_ok a v mem c Hwf Hres) as (d & c1 & Hr & Hh & Hw & Hwf1 & Hres1).
    destruct (IH c1 Hwf1 Hres1) as (ds & c' & Hrun & Hl & Hf).
    exists (d :: ds), c'. rewrite bind_run, Hr, bind_run, Hrun, ret_run.
    split; [done|]. split; [simpl; by rewrite Hl|]. by constructor.
Qed.

Lemma fresh_set_wf wb nb bsz i : 1 <= nb -> 32 <= bsz -> set_wf (fresh_set wb nb bsz i).
Proof.
  intros Hnb Hbsz. unfold set_wf, queue_wf. simpl.
  rewrite length_replicate.
  assert (exists m, Z.to_nat nb = S m) as [m ->] by (exists (Z.to_nat nb - 1)%nat; lia).
  split_and!; try done.
  apply Forall_replicate. unfold block_wf, fresh_block, bytearray. simpl.
  rewrite length_replicate.
  pose proof (Z.quot_le_mono 32 bsz 8 ltac:(lia) ltac:(lia)) as H.
  change (32 ÷ 8) with 4 in H. lia.
Qed.

Lemma cache_init_wf asz csz bsz assoc wb c :
  Cache.init asz csz bsz assoc wb = inr c -> 0 < assoc -> 32 <= bsz -> cache_wf c.
Proof.
  intros Hi Hassoc Hbsz.
  apply init_fields in Hi as (Hb & _ & Hns & _ & _ & _ & Hnse & Hnb & Hix & Hoff & _ & Hs).
  destruct (build_sets_ok (Z.to_nat (Cache.num_sets c)) 0 wb
              (Cache.num_blocks_per_set c) bsz Hb) as (ss & Hss & Hl & Hf).
  rewrite Hss in Hs. injection Hs as ->.
  unfold cache_wf. rewrite Hix, Hoff, Hl.
  pose proof (Z.log2_nonneg bsz). pose proof (Z.log2_nonneg (Cache.num_sets c)).
  pose proof (Z.log2_spec _ Hns) as [Hlog _].
  split_and!; try lia.
  eapply Forall_impl; [exact Hf|]. intros s [j ->]. apply fresh_set_wf; [|done].
  rewrite Hnb. set (nblk := csz ÷ bsz) in *.
  assert (0 < nblk).
  { destruct (Z.lt_ge_cases 0 nblk) as [|Hle]; [done|].
    pose proof (Z.quot_opp_l nblk assoc ltac:(lia)).
    pose proof (Z.quot_pos (- nblk) assoc ltac:(lia) ltac:(lia)). lia. }
  assert (Cache.num_sets c <= nblk).
  { rewrite Hnse. rewrite Z.quot_div_nonneg by lia.
    apply Z.div_le_upper_bound; [lia|]. nia. }
  pose proof (Z.quot_le_mono (Cache.num_sets c) nblk (Cache.num_sets c) ltac:(lia) ltac:(lia)) as H'.
  rewrite Z.quot_same in H' by lia. lia.
Qed.

(** C5, as the code has it.  In a well-formed cache, for an address [a]
    whose word lies inside the memory, the first [read(a)] completes, and
    however many reads of [a] follow it, all complete, all report a hit, all
    answer the word the first read answered, and none changes the memory.
    The first read leaves the memory unchanged as well when no set in
    write-back mode holds a dirty block. *)
Theorem repeated_reads_agree mem c a n :
  cache_wf c -> valid_address mem a ->
  exists d1 mem1 c1 ds cn,
    Cache.read a (mem, c) = Done d1 (mem1, c1) /\
    cache_run (replicate n (Read a)) (mem1, c1) = Done ds (mem1, cn) /\
    length ds = n /\
    Forall (fun d => hit_or_miss d = Some hit /\ word d = word d1) ds /\
    (nothing_to_flush c -> mem1 = mem).
Proof.
  intros Hwf Ha.
  destruct (cache_read_ok a mem c Hwf Ha) as (d1 & mem1 & c1 & Hr & Hwf1 & Hres & _ & Hm).
  destruct (repeated_hits a (word d1) mem1 n c1 Hwf1 Hres) as (ds & cn & Hrun & Hl & Hf).
  by exists d1, mem1, c1, ds, cn.
Qed.

(** ** Writes *)

Lemma store_byte_exact mem b a i x :
  valid_address mem a -> 0 <= i < 4 ->
  CacheBlock.word b !! Z.to_nat i = Some x ->
  CacheBlock.store_byte a i (mem, b) = Done tt (<[Z.to_nat (a + i) := x]> mem, b).
Proof.
  intros [Ha1 Ha2] Hi Hx. unfold CacheBlock.store_byte.
  pose proof (lookup_lt_Some _ _ _ Hx) as Hlt.
  rewrite (py_get_index _ _ (Z.to_nat i)) by (apply py_index_nonneg; lia).
  rewrite Hx. unfold py_set. by rewrite py_index_nonneg by lia.
Qed.

Lemma mem_word_store (mem : Memory) n x0 x1 x2 x3 :
  (n + 4 <= length mem)%nat ->
  take 4 (drop n (<[(n + 3)%nat := x3]> (<[(n + 2)%nat := x2]>
                   (<[(n + 1)%nat := x1]> (<[(n + 0)%nat := x0]> mem))))) = [x0; x1; x2; x3].
Proof.
  revert mem. induction n as [|n IH]; intros mem H.
  - destruct mem as [|y0 [|y1 [|y2 [|y3 rest]]]]; simpl in H; try lia. reflexivity.
  - destruct mem as [|y mem]; simpl in H; [lia|]. simpl. apply IH. lia.
Qed.

Lemma block_write_to_memory_exact mem b a x0 x1 x2 x3 rest :
  valid_address mem a ->
  CacheBlock.word b = x0 :: x1 :: x2 :: x3 :: rest ->
  exists mem',
    CacheBlock.write_to_memory a (mem, b) = Done tt (mem', b) /\
    length mem' = length mem /\
    mem_word mem' a = [x0; x1; x2; x3].
Proof.
  intros Ha Hw. unfold CacheBlock.write_to_memory.
  assert (Hv : forall m : Memory, length m = length mem -> valid_address m a).
  { intros m Hm. unfold valid_address in *. by rewrite Hm. }
  rewrite bind_run, (store_byte_exact mem b a 0 x0) by (done || lia || by rewrite Hw).
  rewrite bind_run, (store_byte_exact _ b a 1 x1)
    by (lia || (by rewrite Hw) || (apply Hv; by rewrite !length_insert)).
  rewrite bind_run, (store_byte_exact _ b a 2 x2)
    by (lia || (by rewrite Hw) || (apply Hv; by rewrite !length_insert)).
  rewrite (store_byte_exact _ b a 3 x3)
    by (lia || (by rewrite Hw) || (apply Hv; by rewrite !length_insert)).
  eexists. split; [reflexivity|]. split; [by rewrite !length_insert|].
  destruct Ha as [Ha1 Ha2]. unfold mem_word.
  rewrite !Z2Nat.inj_add by lia.
  change (Z.to_nat 0) with 0%nat. change (Z.to_nat 1) with 1%nat.
  change (Z.to_nat 2) with 2%nat. change (Z.to_nat 3) with 3%nat.
  apply mem_word_store. lia.
Qed.

Lemma word_dec_ok (w : list Z) :
  (4 <= length w)%nat -> exists v, CacheBlock.word_dec w = Some v.
Proof.
  intros H. destruct (block_get_word_dec_ok [] (CacheBlock.mk false false 0 w) H) as (v & Hv & _).
  by exists v.
Qed.

Lemma set_write_to_cache_ok mem s a t bi off w wb k b :
  py_index (length (CacheSet.blocks s)) bi = Some k ->
  CacheSet.blocks s !! k = Some b ->
  valid_address mem a -> (4 <= length w)%nat ->
  exists d mem',
    CacheSet.write_to_cache a t bi off w wb (mem, s) =
      Done d (mem', CacheSet.set_blocks
                      (<[k := CacheBlock.mk (CacheBlock.occupied b)
                                 (if wb then true else CacheBlock.dirty b)
                                 (CacheBlock.tag b) w]> (CacheSet.blocks s)) s) /\
    write_back d = WriteBackFlag wb /\
    CacheBlock.word_dec w = Some (word d) /\
    length mem' = length mem /\
    (if wb then mem' = mem else mem_word mem' a = take 4 w).
Proof.
  intros Hi Hb Ha Hw. pose proof (py_index_lt _ _ _ Hi) as Hk.
  destruct (word_dec_ok w Hw) as [v Hv].
  unfold CacheSet.write_to_cache. rewrite bind_run. destruct wb.
  - unfold CacheSet.write_to_cache_wb.
    rewrite bind_run, (on_block_run _ _ k b) by done.
    change (CacheBlock.write_to_cache w (mem, b))
      with (Done (St := CacheBlock.St) tt (mem, CacheBlock.set_word w b)).
    cbv beta iota.
    rewrite bind_run, (on_block_run _ _ k (CacheBlock.set_word w b)).
    2: { simpl. by rewrite length_insert. }
    2: { simpl. by apply list_lookup_insert_eq. }
    change (CacheBlock.upd (CacheBlock.set_dirty true) (mem, CacheBlock.set_word w b))
      with (Done (St := CacheBlock.St) tt
              (mem, CacheBlock.mk (CacheBlock.occupied b) true (CacheBlock.tag b) w)).
    cbv beta iota.
    rewrite bind_run, (on_block_run _ _ k (CacheBlock.mk (CacheBlock.occupied b) true (CacheBlock.tag b) w)).
    2: { simpl. by rewrite !length_insert. }
    2: { simpl. apply list_lookup_insert_eq. by rewrite length_insert. }
    unfold CacheBlock.get_word_dec. simpl CacheBlock.word. rewrite Hv. unfold orelse.
    rewrite !ret_run. cbv beta iota. rewrite set_self_run.
    simpl. rewrite !list_insert_insert_eq.
    eexists _, mem. split; [reflexivity|]. by split_and!.
  - unfold CacheSet.write_to_cache_wt.
    rewrite bind_run, (on_block_run _ _ k b) by done.
    change (CacheBlock.write_to_cache w (mem, b))
      with (Done (St := CacheBlock.St) tt (mem, CacheBlock.set_word w b)).
    cbv beta iota.
    rewrite bind_run, (on_block_run _ _ k (CacheBlock.set_word w b)).
    2: { simpl. by rewrite length_insert. }
    2: { simpl. by apply list_lookup_insert_eq. }
    destruct w as [|x0 [|x1 [|x2 [|x3 rest]]]]; simpl in Hw; try lia.
    destruct (block_write_to_memory_exact mem (CacheBlock.set_word (x0 :: x1 :: x2 :: x3 :: rest) b)
                a x0 x1 x2 x3 rest Ha eq_refl) as (mem' & -> & Hl & Hmw).
    rewrite bind_run, (on_block_run _ _ k (CacheBlock.set_word (x0 :: x1 :: x2 :: x3 :: rest) b)).
    2: { simpl. by rewrite !length_insert. }
    2: { simpl. apply list_lookup_insert_eq. by rewrite length_insert. }
    unfold CacheBlock.get_word_dec. simpl CacheBlock.word. rewrite Hv. unfold orelse.
    rewrite !ret_run. cbv beta iota. rewrite set_self_run.
    simpl. rewrite !list_insert_insert_eq.
    eexists _, mem'. split; [reflexivity|]. by split_and!.
Qed.

Lemma cache_self_run {A} (f : Cache.t -> A) mem c :
  Cache.self f (mem, c) = Done (f c) (mem, c).
Proof. reflexivity. Qed.

Lemma block_index_valid (bs : list CacheBlock.t) bi :
  bs <> [] -> bi = -1 \/ 0 <= bi < Z.of_nat (length bs) ->
  exists k b, py_index (length bs) bi = Some k /\ bs !! k = Some b.
Proof.
  intros Hne Hbi.
  assert (0 < length bs)%nat by (destruct bs; [done|simpl; lia]).
  destruct Hbi as [->|Hr].
  - rewrite py_index_last by done.
    destruct (lookup_lt_is_Some_2 bs (length bs - 1) ltac:(lia)) as [b Hb]. by eexists _, b.
  - rewrite py_index_nonneg by lia.
    destruct (lookup_lt_is_Some_2 bs (Z.to_nat bi) ltac:(lia)) as [b Hb]. by eexists _, b.
Qed.

(** The second half of [Cache.write]: the word is put in block
    [block_index] of the set. *)
Lemma cache_write_tail_ok mem c a t ix bi off w h n s :
  cache_wf c ->
  py_index (length (Cache.sets c)) ix = Some n ->
  Cache.sets c !! n = Some s ->
  bi = -1 \/ 0 <= bi < Z.of_nat (length (CacheSet.blocks s)) ->
  valid_address mem a -> (4 <= length w)%nat ->
  exists d mem' c',
    (let* wb_mode := Cache.self Cache.write_back in
     let* d := Cache.on_set ix (CacheSet.write_to_cache a t bi off w wb_mode) in
     ret (with_hit_or_miss h d)) (mem, c) = Done d (mem', c') /\
    hit_or_miss d = Some h /\
    write_back d = WriteBackFlag (Cache.write_back c) /\
    CacheBlock.word_dec w = Some (word d) /\
    cache_wf c' /\ Cache.write_back c' = Cache.write_back c /\
    length mem' = length mem /\
    (if Cache.write_back c then mem' = mem else mem_word mem' a = take 4 w).
Proof.
  intros Hwf Hn Hs Hbi Ha Hw.
  assert (Hswf : set_wf s).
  { destruct Hwf as (_ & _ & _ & Hf). by eapply (Forall_lookup_1 _ _ _ _ Hf Hs). }
  destruct Hswf as (Hq & Hne & Hbs).
  destruct (block_index_valid _ bi Hne Hbi) as (k & b & Hk & Hb).
  rewrite bind_run, cache_self_run, bind_run, (on_set_run _ _ n s) by done.
  destruct (set_write_to_cache_ok mem s a t bi off w (Cache.write_back c) k b Hk Hb Ha Hw)
    as (d & mem' & -> & Hflag & Hv & Hl & Hm).
  rewrite ret_run. eexists _, mem', _. split; [reflexivity|].
  split_and!; try done.
  eapply cache_wf_insert; [done|done|].
  split; [done|]. simpl. split; [by apply insert_nonempty|].
  apply Forall_insert; [done|]. by unfold block_wf.
Qed.

(** A write whose word lies inside the memory completes.  Its flag is the
    mode of the cache; in write-through mode the word is in memory
    afterwards; in write-back mode the memory is the one a read of the same
    address would have left. *)
Lemma cache_write_ok a w mem c :
  cache_wf c -> valid_address mem a -> (4 <= length w)%nat ->
  exists d mem' c',
    Cache.write a w (mem, c) = Done d (mem', c') /\
    write_back d = WriteBackFlag (Cache.write_back c) /\
    CacheBlock.word_dec w = Some (word d) /\
    cache_wf c' /\ Cache.write_back c' = Cache.write_back c /\
    length mem' = length mem /\
    (Cache.write_back c = false -> mem_word mem' a = take 4 w) /\
    (Cache.write_back c = true -> mem' = fst (final_state (Cache.read a (mem, c)))).
Proof.
  intros Hwf Ha Hw.
  destruct (index_of_valid c a Hwf (proj1 Ha)) as (n & s & Hn & Hs & Hswf).
  pose proof (py_index_lt _ _ _ Hn) as Hlt.
  rewrite cache_write_run, bind_run, (on_set_run _ _ n s), set_self_run by done.
  rewrite list_insert_id, set_sets_id by done.
  rewrite bind_run. case_bool_decide as Hbi.
  - rewrite bind_run, (on_set_run _ _ n s) by done.
    destruct (set_read_from_memory_ok mem s a (tag_of c a) (offset_of c a) Hswf Ha)
      as (d0 & mem1 & s1 & k & b' & Hrfm & Hswf1 & Hl1 & Hk & Hbl & _).
    assert (Hread : fst (final_state (Cache.read a (mem, c))) = mem1).
    { rewrite cache_read_run, bind_run, (on_set_run _ _ n s), set_self_run by done.
      rewrite list_insert_id, set_sets_id, Hbi by done.
      rewrite bool_decide_eq_true_2 by done.
      by rewrite bind_run, (on_set_run _ _ n s), Hrfm, ret_run by done. }
    rewrite Hrfm, ret_run.
    set (c1 := Cache.set_sets (<[n:=s1]> (Cache.sets c)) c).
    assert (Hwf1 : cache_wf c1) by (by eapply cache_wf_insert).
    destruct (cache_write_tail_ok mem1 c1 a (tag_of c a) (index_of c a)
                (CacheSet.find_block_index (tag_of c a) s) (offset_of c a) w miss n s1)
      as (d & mem' & c' & Heq & Hh & Hflag & Hv & Hwf' & Hwb & Hl & Hm); try done.
    { simpl. by rewrite length_insert. }
    { simpl. by apply list_lookup_insert_eq. }
    { by left. }
    { unfold valid_address in *. by rewrite Hl1. }
    exists d, mem', c'. split; [exact Heq|]. simpl in Hm.
    split_and!; try done; try congruence.
    + intros Hwt. by rewrite Hwt in Hm.
    + intros Hwt. rewrite Hwt in Hm. by rewrite Hread.
  - destruct (resident_of_hit a mem c n s Hwf Hn Hs Hbi) as [v Hres].
    destruct (cache_read_hit_ok a v mem c Hwf Hres) as (dr & cr & Hread & _).
    rewrite ret_run.
    destruct (cache_write_tail_ok mem c a (tag_of c a) (index_of c a)
                (CacheSet.find_block_index (tag_of c a) s) (offset_of c a) w hit n s)
      as (d & mem' & c' & Heq & Hh & Hflag & Hv & Hwf' & Hwb & Hl & Hm); try done.
    { right. unfold CacheSet.find_block_index in *.
      destruct (first_match_range (CacheSet.blocks s) (tag_of c a) 0); [done|lia]. }
    exists d, mem', c'. split; [exact Heq|]. split_and!; try done.
    + intros Hwt. by rewrite Hwt in Hm.
    + intros Hwt. rewrite Hwt in Hm. by rewrite Hread.
Qed.

Definition valid_op (mem : Memory) (o : Op) : Prop :=
  match o with
  | Read a => valid_address mem a
  | Write a _ => valid_address mem a
  end.

Lemma cache_step_ok o mem c :
  cache_wf c -> valid_op mem o ->
  exists d mem' c',
    cache_step o (mem, c) = Done d (mem', c') /\
    cache_wf c' /\ length mem' = length mem.
Proof.
  intros Hwf Ho. destruct o as [a|a w]; simpl in *.
  - destruct (cache_read_ok a mem c Hwf Ho) as (d & mem' & c' & Hr & Hwf' & _ & Hl & _).
    by exists d, mem', c'.
  - destruct (cache_write_ok a (int_to_bytearray w) mem c Hwf Ho) as
      (d & mem' & c' & Hr & _ & _ & Hwf' & _ & Hl & _); [simpl; lia|].
    by exists d, mem', c'.
Qed.

(** The flag on every write.  A write whose word lies inside the memory
    completes, and the boolean it reports under ["write_back"] is the mode
    of the cache: [True] in write-back mode, [False] in write-through
    mode.  In write-through mode the word is in memory at the address
    when the write returns.  In write-back mode the write stores nothing
    itself: the memory it leaves is the memory a read of the same address
    would have left. *)
Lemma write_flag_reports_mode a w mem c :
  cache_wf c -> valid_address mem a -> length w = 4%nat ->
  exists d mem' c',
    Cache.write a w (mem, c) = Done d (mem', c') /\
    write_back d = WriteBackFlag (Cache.write_back c) /\
    (Cache.write_back c = false -> mem_word mem' a = w) /\
    (Cache.write_back c = true -> mem' = fst (final_state (Cache.read a (mem, c)))).
Proof.
  intros Hwf Ha Hw.
  destruct (cache_write_ok a w mem c Hwf Ha ltac:(lia))
    as (d & mem' & c' & Hr & Hflag & _ & _ & _ & _ & Hwt & Hwb).
  exists d, mem', c'. split_and!; try done.
  intros Hm. rewrite (Hwt Hm). apply take_ge. lia.
Qed.

Ltac example_wf :=
  unfold cache_wf, set_wf, queue_wf, block_wf, valid_address; simpl;
  repeat first [ split | apply Forall_cons | apply Forall_nil | lia | done ].

Lemma write_flag_reports_mode_witness :
  exists c d mem' c',
    Cache.init 8 64 32 1 false = inr c /\
    Cache.write 64 [7; 0; 0; 0] (bytearray 256, c) = Done d (mem', c') /\
    write_back d = WriteBackFlag false /\
    mem_word mem' 64 = [7; 0; 0; 0].
Proof.
  eexists. 
  destruct (write_flag_reports_mode 64 [7; 0; 0; 0] (bytearray 256)
              ltac:(let c := eval vm_compute in (Cache.init 8 64 32 1 false) in
                    match c with inr ?c => exact c end))
    as (d & mem' & c' & Hr & Hflag & Hwt & _); [example_wf..|reflexivity|].
  exists d, mem', c'. split; [vm_compute; reflexivity|].
  split; [exact Hr|]. split; [exact Hflag|]. by apply Hwt.
Defined.

Lemma repeated_reads_agree_witness :
  exists c d1 mem1 c1 ds cn,
    Cache.init 8 64 32 1 true = inr c /\
    Cache.read 64 (bytearray 256, c) = Done d1 (mem1, c1) /\
    cache_run [Read 64; Read 64; Read 64] (mem1, c1) = Done ds (mem1, cn) /\
    Forall (fun d => hit_or_miss d = Some hit /\ word d = word d1) ds.
Proof.
  eexists.
  destruct (repeated_reads_agree (bytearray 256)
              ltac:(let c := eval vm_compute in (Cache.init 8 64 32 1 true) in
                    match c with inr ?c => exact c end) 64 3)
    as (d1 & mem1 & c1 & ds & cn & Hr & Hrun & _ & Hf & _); [example_wf..|].
  exists d1, mem1, c1, ds, cn. split; [vm_compute; reflexivity|].
  split; [exact Hr|]. split; [exact Hrun|exact Hf].
Defined.

(** ** The simulator on the addresses of its address space *)

(** A simulator whose cache is well formed and whose memory is a whole
    number of words, of the size it records. *)
Definition sim_wf (sim : CacheSim.t) : Prop :=
  cache_wf (CacheSim.cache sim) /\
  CacheSim.memory_size sim = Z.of_nat (length (CacheSim.memory sim)) /\
  CacheSim.memory_size sim mod 4 = 0.

Lemma py_set_length {A} (l l' : list A) i x : py_set l i x = Some l' -> length l' = length l.
Proof.
  unfold py_set. destruct (py_index (length l) i); [|done].
  intros [= <-]. apply length_insert.
Qed.

Lemma store_word_length mem i bs mem' :
  CacheSim.store_word mem i bs = Some mem' -> length mem' = length mem.
Proof.
  unfold CacheSim.store_word. intros H.
  repeat match type of H with
         | (match ?o with _ => _ end) = _ => destruct o eqn:?; simpl in H; [|done]
         | mbind _ ?o = _ => destruct o eqn:?; simpl in H; [|done]
         end.
  repeat match goal with
         | H : py_set _ _ _ = Some _ |- _ => apply py_set_length in H
         end.
  congruence.
Qed.

Lemma init_memory_length n : forall i mem mem',
  CacheSim.init_memory n i mem = inr mem' -> length mem' = length mem.
Proof.
  induction n as [|n IH]; intros i mem mem'; simpl.
  - by intros [= <-].
  - destruct (CacheSim.store_word mem i (int_to_bytearray i)) as [m|] eqn:Hs; [|done].
    intros H. apply IH in H. apply store_word_length in Hs. congruence.
Qed.

Lemma sim_init_wf asz csz bsz assoc wb sim :
  CacheSim.init asz csz bsz assoc wb = inr sim ->
  2 <= asz -> 0 < assoc -> 32 <= bsz -> sim_wf sim.
Proof.
  unfold CacheSim.init. intros Hi Hasz Hassoc Hbsz.
  destruct (CacheSim.init_memory _ _ _) as [e|mem] eqn:Hm; [done|].
  destruct (Cache.init asz csz bsz assoc wb) as [e|c] eqn:Hc; [done|].
  injection Hi as <-. unfold sim_wf. simpl.
  apply init_memory_length in Hm. unfold bytearray in Hm. rewrite length_replicate in Hm.
  pose proof (Z.pow_pos_nonneg 2 asz ltac:(lia) ltac:(lia)).
  split; [by eapply cache_init_wf|]. split; [lia|].
  replace asz with (2 + (asz - 2)) by lia. rewrite Z.pow_add_r by lia.
  change (2 ^ 2) with 4. by rewrite Z.mul_comm, Z.mod_mul.
Qed.

Lemma aligned_address_valid sim a :
  sim_wf sim -> a mod 4 = 0 -> 0 <= a < CacheSim.memory_size sim ->
  valid_address (CacheSim.memory sim) a.
Proof.
  intros (_ & Hsz & Hmod) Ha Hr. unfold valid_address. rewrite <- Hsz.
  split; [lia|].
  pose proof (Z.div_mod a 4 ltac:(lia)). pose proof (Z.div_mod (CacheSim.memory_size sim) 4 ltac:(lia)).
  lia.
Qed.

(** The part of C8 the code keeps: on an aligned address inside the address
    space every read and every write passes the assertions and completes
    with its record, in a simulator that is well formed again. *)
Lemma sim_step_ok sim o :
  sim_wf sim ->
  (match o with Read a | Write a _ => a mod 4 = 0 /\ 0 <= a < CacheSim.memory_size sim end) ->
  exists r sim', sim_step o sim = Done r sim' /\ sim_wf sim'.
Proof.
  intros Hwf Ho.
  assert (exists a, (a mod 4 = 0 /\ 0 <= a < CacheSim.memory_size sim) /\
                    match o with Read b | Write b _ => b = a end) as (a & [Hal Hr] & Hoa).
  { destruct o as [a|a w]; by exists a. }
  pose proof (aligned_address_valid sim a Hwf Hal Hr) as Hv.
  pose proof Hwf as (Hc & Hsz & Hmod).
  destruct (cache_step_ok o (CacheSim.memory sim) (CacheSim.cache sim) Hc)
    as (d & mem' & c' & Hstep & Hc' & Hl).
  { destruct o; simpl; by subst. }
  destruct o as [b|b w]; subst b; simpl in *.
  - unfold CacheSim.read. rewrite bind_run. unfold CacheSim.assert.
    rewrite bool_decide_eq_true_2 by done. rewrite ret_run, bind_run.
    unfold gets. rewrite bind_run, bool_decide_eq_true_2 by lia.
    rewrite ret_run, bind_run. unfold CacheSim.on_cache, zoom. rewrite Hstep, ret_run.
    eexists _, _. split; [reflexivity|]. unfold sim_wf. simpl. rewrite Hl. by split_and!.
  - unfold CacheSim.write. rewrite bind_run. unfold CacheSim.assert.
    rewrite bool_decide_eq_true_2 by done. rewrite ret_run, bind_run.
    unfold gets. rewrite bind_run, bool_decide_eq_true_2 by lia.
    rewrite ret_run, bind_run. unfold CacheSim.on_cache, zoom. rewrite Hstep, ret_run.
    eexists _, _. split; [reflexivity|]. unfold sim_wf. simpl. rewrite Hl. by split_and!.
Qed.

(** * Further properties of the code *)

(** ** Words and bytes *)

Lemma word_dec_int_to_bytearray n :
  CacheBlock.word_dec (int_to_bytearray n) = Some (n mod 2 ^ 32).
Proof.
  unfold int_to_bytearray, CacheBlock.word_dec, py_get.
  rewrite !py_index_nonneg by (simpl; lia). simpl. f_equal.
  change (2 ^ 32) with (256 * (256 * (256 * 256))).
  rewrite (Z.rem_mul_r n 256 (256 * (256 * 256))) by lia.
  rewrite (Z.rem_mul_r (n / 256) 256 (256 * 256)) by lia.
  rewrite (Z.rem_mul_r (n / 256 / 256) 256 256) by lia.
  reflexivity.
Qed.

(** [int_to_bytearray] answers the four little-endian bytes of its argument
    reduced modulo [2 ^ 32], and [get_word_dec] reads such a word back. *)
Theorem int_to_bytearray_roundtrip n :
  length (int_to_bytearray n) = 4%nat /\
  Forall (fun b => 0 <= b < 256) (int_to_bytearray n) /\
  CacheBlock.word_dec (int_to_bytearray n) = Some (n mod 2 ^ 32).
Proof.
  split; [reflexivity|]. split.
  - unfold int_to_bytearray. repeat constructor; apply Z.mod_pos_bound; lia.
  - apply word_dec_int_to_bytearray.
Qed.

(** ** Block ranges *)

(** For a positive block size and an address, both below [2 ^ 53] in
    magnitude, [find_range] answers the first and last address of the
    block of [block_size] addresses that holds [address]; among the
    addresses below [2 ^ 53] in magnitude, the ones it answers the same
    range for are the ones between these two. *)
Theorem find_range_bounds address block_size :
  0 < block_size < 2 ^ 53 -> Z.abs address < 2 ^ 53 ->
  let '(lower_limit, upper_limit) := find_range address block_size in
  lower_limit <= address <= upper_limit /\
  upper_limit - lower_limit = block_size - 1 /\
  lower_limit mod block_size = 0 /\
  forall other, Z.abs other < 2 ^ 53 ->
                (lower_limit <= other <= upper_limit <->
                 find_range other block_size = (lower_limit, upper_limit)).
Proof.
  intros [H _] _. unfold find_range. cbv zeta.
  pose proof (Z.div_mod address block_size ltac:(lia)) as Hdm.
  pose proof (Z.mod_pos_bound address block_size H) as Hm.
  split; [lia|]. split; [lia|]. split.
  { rewrite Z.mul_comm. apply Z.mod_mul. lia. }
  intros other _.
  pose proof (Z.div_mod other block_size ltac:(lia)) as Hdm'.
  pose proof (Z.mod_pos_bound other block_size H) as Hm'.
  split.
  - intros Hr. assert (other / block_size = address / block_size) as -> by nia. done.
  - intros [= Heq _]. assert (other / block_size = address / block_size) as Hq by nia.
    rewrite Hq in Hdm'. lia.
Qed.

Lemma find_range_bounds_witness :
  find_range 1064 64 = (1024, 1087) /\ 1024 <= 1064 <= 1087.
Proof.
  pose proof (find_range_bounds 1064 64 ltac:(lia) eq_refl) as H.
  change (find_range 1064 64) with (1024, 1087) in H. cbv beta iota in H.
  split; [reflexivity|]. destruct H as [H _]. exact H.
Defined.

(** ** The tag queue *)

Lemma search_first q t : forall i n,
  (i + n = length q)%nat ->
  ((t ∉ drop i q) /\ TagQueue.search q t i n = Done None tt) \/
  (exists l1 l2, drop i q = l1 ++ t :: l2 /\ (t ∉ l1) /\
                 TagQueue.search q t i n = Done (Some (i + length l1)%nat) tt).
Proof.
  intros i n. revert i. induction n as [|n IH]; intros i H; simpl.
  - left. rewrite drop_ge by lia. split; [apply not_elem_of_nil|done].
  - destruct (lookup_lt_is_Some_2 q i ltac:(lia)) as [x Hx]. rewrite Hx.
    pose proof (drop_S q x i Hx) as Hd.
    case_bool_decide as Hxt.
    + right. exists [], (drop (S i) q). subst x. rewrite Hd. simpl.
      split; [done|]. split; [apply not_elem_of_nil|]. by rewrite Nat.add_0_r.
    + destruct (IH (S i) ltac:(lia)) as [[Hn ->]|(l1 & l2 & Hl & Hn & ->)].
      * left. split; [|done]. rewrite Hd. by apply not_elem_of_cons.
      * right. exists (x :: l1), l2. rewrite Hd, Hl. simpl.
        split; [done|]. split; [by apply not_elem_of_cons|].
        by replace (i + S (length l1))%nat with (S i + length l1)%nat by lia.
Qed.

Lemma update_queue_cases t q :
  length (TagQueue.queue q) = Z.to_nat (TagQueue.size q) ->
  (forall l1 l2, TagQueue.queue q = l1 ++ t :: l2 -> t ∉ l1 ->
     TagQueue.update_queue t q = Done true (TagQueue.mk (l1 ++ l2 ++ [t]) (TagQueue.size q))) /\
  (forall x rest, TagQueue.queue q = x :: rest -> t ∉ TagQueue.queue q ->
     TagQueue.update_queue t q = Done false (TagQueue.mk (rest ++ [t]) (TagQueue.size q))) /\
  (TagQueue.queue q = [] -> TagQueue.update_queue t q = Raise IndexError q).
Proof.
  intros Hl. unfold TagQueue.update_queue.
  destruct (search_first (TagQueue.queue q) t 0 (Z.to_nat (TagQueue.size q)) ltac:(lia))
    as [[Hn ->]|(l1 & l2 & Hq & Hn & ->)]; rewrite drop_0 in *.
  - split; [|split].
    + intros l1 l2 Hq Hn1. exfalso. apply Hn. rewrite Hq.
      apply elem_of_app. right. apply list_elem_of_here.
    + by intros x rest ->.
    + by intros ->.
  - split; [|split].
    + intros l1' l2' Hq' Hn'. rewrite Hq in Hq'.
      assert (l1 = l1' /\ l2 = l2') as [<- <-].
      { clear -Hq' Hn Hn'. revert l1' Hq' Hn'.
        induction l1 as [|y l1 IH]; intros [|y' l1'] Hq' Hn'; simpl in *.
        - by injection Hq' as <-.
        - injection Hq' as <- _. exfalso. apply Hn'. apply list_elem_of_here.
        - injection Hq' as -> _. exfalso. apply Hn. apply list_elem_of_here.
        - injection Hq' as <- Hq'. apply not_elem_of_cons in Hn as [_ Hn].
          apply not_elem_of_cons in Hn' as [_ Hn'].
          by destruct (IH Hn l1' Hq' Hn') as [<- <-]. }
      simpl. f_equal. f_equal. rewrite Hq.
      rewrite delete_middle. by rewrite <- app_assoc.
    + intros x rest _ Hn'. exfalso. apply Hn'. rewrite Hq.
      apply elem_of_app. right. apply list_elem_of_here.
    + intros Hq'. rewrite Hq' in Hq. by destruct l1.
Qed.

(** [update_queue] on a queue as long as its [size].  A tag that is present
    is taken out at its first position and appended, the other entries
    keeping their order, and the answer is [True]; for a tag that is absent
    the front entry is dropped, the tag appended, and the answer is [False];
    on an empty queue the [pop] raises [IndexError] and the queue is left as
    it was. *)
Theorem update_queue_spec t q :
  length (TagQueue.queue q) = Z.to_nat (TagQueue.size q) ->
  (forall l1 l2, TagQueue.queue q = l1 ++ t :: l2 -> t ∉ l1 ->
     TagQueue.update_queue t q = Done true (TagQueue.mk (l1 ++ l2 ++ [t]) (TagQueue.size q))) /\
  (forall x rest, TagQueue.queue q = x :: rest -> t ∉ TagQueue.queue q ->
     TagQueue.update_queue t q = Done false (TagQueue.mk (rest ++ [t]) (TagQueue.size q))) /\
  (TagQueue.queue q = [] -> TagQueue.update_queue t q = Raise IndexError q).
Proof. apply update_queue_cases. Qed.

Lemma update_queue_spec_witness :
  TagQueue.update_queue 7 (TagQueue.mk [3; 7; 5] 3) = Done true (TagQueue.mk [3; 5; 7] 3).
Proof.
  destruct (update_queue_spec 7 (TagQueue.mk [3; 7; 5] 3) eq_refl) as (H & _ & _).
  apply (H [3] [5] eq_refl). intros Hin. apply list_elem_of_singleton in Hin. discriminate.
Defined.

(** Touching the tags of [ts] one after the other. *)
Fixpoint touch_all (ts : list Z) : M TagQueue.t unit :=
  match ts with
  | [] => ret tt
  | t :: rest => let* _ := TagQueue.update_queue t in touch_all rest
  end.

Lemma touch_all_fresh ts : forall done,
  NoDup (done ++ ts) -> (-1) ∉ ts ->
  touch_all ts (TagQueue.mk (replicate (length ts) (-1) ++ done)
                            (Z.of_nat (length ts + length done))) =
    Done tt (TagQueue.mk (done ++ ts) (Z.of_nat (length ts + length done))).
Proof.
  induction ts as [|t ts IH]; intros done Hnd Hs; simpl.
  - by rewrite app_nil_r.
  - apply not_elem_of_cons in Hs as [Ht Hs].
    apply NoDup_app in Hnd as (Hd & Hdis & Hts). apply NoDup_cons in Hts as [Htts Hts].
    destruct (update_queue_cases t
                (TagQueue.mk (-1 :: replicate (length ts) (-1) ++ done)
                             (Z.of_nat (S (length ts + length done))))) as (_ & Hab & _).
    { simpl. rewrite length_app, length_replicate. lia. }
    rewrite bind_run, (Hab (-1) (replicate (length ts) (-1) ++ done) eq_refl).
    2: { simpl. intros Hin. apply elem_of_cons in Hin as [?|Hin]; [done|].
         apply elem_of_app in Hin as [Hin|Hin].
         - apply elem_of_replicate in Hin as [? _]. done.
         - apply (Hdis t Hin). apply list_elem_of_here. }
    simpl. rewrite <- (app_assoc _ done [t]).
    replace (S (length ts + length done)) with (length ts + length (done ++ [t]))%nat
      by (rewrite length_app; simpl; lia).
    rewrite (IH (done ++ [t])); [by rewrite <- (app_assoc done [t] ts)|..|done].
    rewrite <- (app_assoc done [t] ts). simpl.
    apply NoDup_app. split; [done|]. split; [done|]. by apply NoDup_cons.
Qed.

(** The order the queue keeps.  Touching [n] distinct tags in a fresh queue
    of size [n] leaves exactly these tags, in the order they were touched.
    The least recently used tag is then the first one touched, and after
    it is touched again the least recently used tag is the second. *)
Theorem queue_keeps_access_order t1 t2 rest :
  NoDup (t1 :: t2 :: rest) -> (-1) ∉ (t1 :: t2 :: rest) ->
  let n := Z.of_nat (length (t1 :: t2 :: rest)) in
  touch_all (t1 :: t2 :: rest) (TagQueue.init n) = Done tt (TagQueue.mk (t1 :: t2 :: rest) n) /\
  (let* first := TagQueue.get_least_recently_used in
   let* present := TagQueue.update_queue t1 in
   let* second := TagQueue.get_least_recently_used in
   ret (first, present, second)) (TagQueue.mk (t1 :: t2 :: rest) n) =
    Done (t1, true, t2) (TagQueue.mk (t2 :: rest ++ [t1]) n).
Proof.
  intros Hnd Hs n. split.
  - pose proof (touch_all_fresh (t1 :: t2 :: rest) [] Hnd Hs) as H.
    rewrite app_nil_r, Nat.add_0_r in H. unfold TagQueue.init, n.
    by rewrite Nat2Z.id.
  - destruct (update_queue_cases t1 (TagQueue.mk (t1 :: t2 :: rest) n)) as (Hp & _ & _).
    { unfold n. simpl. lia. }
    unfold bind.
    change (TagQueue.get_least_recently_used (TagQueue.mk (t1 :: t2 :: rest) n))
      with (Done t1 (TagQueue.mk (t1 :: t2 :: rest) n)).
    cbv beta iota.
    rewrite (Hp [] (t2 :: rest) eq_refl (not_elem_of_nil _)). reflexivity.
Qed.

Lemma queue_keeps_access_order_witness :
  touch_all [5; 9; 2] (TagQueue.init 3) = Done tt (TagQueue.mk [5; 9; 2] 3).
Proof.
  assert (Hnd : NoDup [5; 9; 2]).
  { repeat (apply NoDup_cons; split; [intros Hin; repeat (apply elem_of_cons in Hin as [Hin|Hin]; [discriminate|]); by apply elem_of_nil in Hin|]). apply NoDup_nil_2. }
  assert (Hs : (-1) ∉ [5; 9; 2]).
  { intros Hin; repeat (apply elem_of_cons in Hin as [Hin|Hin]; [discriminate|]); by apply elem_of_nil in Hin. }
  exact (proj1 (queue_keeps_access_order 5 9 [2] Hnd Hs)).
Defined.

(** ** Lookups in a set *)

Definition block_matches (t : Z) (b : CacheBlock.t) : Prop :=
  CacheBlock.tag b = t /\ CacheBlock.occupied b = true.

Lemma first_match_none bs t i :
  CacheSet.first_match bs t i = -1 -> 0 <= i -> forall b, b ∈ bs -> ~ block_matches t b.
Proof.
  revert i. induction bs as [|b0 bs IH]; intros i Hm Hi b Hb; simpl in *.
  - by apply elem_of_nil in Hb.
  - destruct (bool_decide (CacheBlock.tag b0 = t) && CacheBlock.occupied b0) eqn:Hb0; [lia|].
    apply elem_of_cons in Hb as [->|Hb].
    + intros [Ht Ho]. rewrite Ho, bool_decide_eq_true_2 in Hb0 by done. done.
    + by apply (IH (i + 1) Hm ltac:(lia)).
Qed.

Lemma first_match_least bs t : forall i j,
  CacheSet.first_match bs t i = j -> 0 <= i <= j ->
  forall k b, (k < Z.to_nat (j - i))%nat -> bs !! k = Some b -> ~ block_matches t b.
Proof.
  induction bs as [|b0 bs IH]; intros i j Hm Hi k b Hk Hb; simpl in *; [done|].
  destruct (bool_decide (CacheBlock.tag b0 = t) && CacheBlock.occupied b0) eqn:Hb0; [lia|].
  destruct k as [|k]; simpl in Hb.
  - injection Hb as <-. intros [Ht Ho]. rewrite Ho, bool_decide_eq_true_2 in Hb0 by done. done.
  - destruct (first_match_range bs t (i + 1)) as [Hr|Hr]; [lia|].
    apply (IH (i + 1) j Hm ltac:(lia) k b); [lia|done].
Qed.

(** [find_block_index] answers [-1] exactly when no block of the set is
    occupied with the tag; otherwise it answers the least position of a
    block that is. *)
Theorem find_block_index_spec t s :
  let j := CacheSet.find_block_index t s in
  (j = -1 /\ forall b, b ∈ CacheSet.blocks s -> ~ block_matches t b) \/
  (0 <= j < Z.of_nat (length (CacheSet.blocks s)) /\
   (exists b, CacheSet.blocks s !! Z.to_nat j = Some b /\ block_matches t b) /\
   forall k b, (k < Z.to_nat j)%nat -> CacheSet.blocks s !! k = Some b -> ~ block_matches t b).
Proof.
  unfold CacheSet.find_block_index. cbv zeta.
  destruct (first_match_range (CacheSet.blocks s) t 0) as [Hm|Hr].
  - left. split; [done|]. by apply (first_match_none _ _ 0).
  - right. split; [lia|]. split.
    + destruct (first_match_found (CacheSet.blocks s) t 0 _ eq_refl) as (b & Hb & Hm); [lia|].
      rewrite Z.sub_0_r in Hb. by exists b.
    + intros k b Hk Hb.
      apply (first_match_least (CacheSet.blocks s) t 0 _ eq_refl) with (k := k); [lia| |done].
      by rewrite Z.sub_0_r.
Qed.

Lemma first_free_spec bs : forall i,
  match CacheSet.first_free bs i with
  | Some n => (i <= n)%nat /\
              (exists b, bs !! (n - i)%nat = Some b /\ CacheBlock.occupied b = false) /\
              forall k b, (k < n - i)%nat -> bs !! k = Some b -> CacheBlock.occupied b = true
  | None => forall b, b ∈ bs -> CacheBlock.occupied b = true
  end.
Proof.
  induction bs as [|b0 bs IH]; intros i; simpl.
  - intros b Hb. by apply elem_of_nil in Hb.
  - destruct (CacheBlock.occupied b0) eqn:Hb0.
    + specialize (IH (S i)). destruct (CacheSet.first_free bs (S i)) as [n|].
      * destruct IH as (Hle & (b & Hb & Ho) & Hk). split; [lia|]. split.
        { exists b. by replace (n - i)%nat with (S (n - S i)) by lia. }
        intros k b' Hlt Hb'. destruct k as [|k]; simpl in Hb'; [by injection Hb' as <-|].
        apply (Hk k b'); [lia|done].
      * intros b Hb. apply elem_of_cons in Hb as [->|Hb]; [done|by apply IH].
    + split; [lia|]. rewrite Nat.sub_diag. split; [by exists b0|]. intros k b Hk. lia.
Qed.

(** [find_free_block] answers the first block that is not occupied, and
    [None] exactly when every block of the set is occupied. *)
Theorem find_free_block_spec s :
  match CacheSet.find_free_block s with
  | Some n => (exists b, CacheSet.blocks s !! n = Some b /\ CacheBlock.occupied b = false) /\
              forall k b, (k < n)%nat -> CacheSet.blocks s !! k = Some b ->
                          CacheBlock.occupied b = true
  | None => forall b, b ∈ CacheSet.blocks s -> CacheBlock.occupied b = true
  end.
Proof.
  unfold CacheSet.find_free_block.
  pose proof (first_free_spec (CacheSet.blocks s) 0) as H.
  destruct (CacheSet.first_free (CacheSet.blocks s) 0) as [n|]; [|done].
  rewrite Nat.sub_0_r in H. by destruct H as (_ & H1 & H2).
Qed.

(** ** What the constructors build *)

Lemma build_sets_lookup n : forall i wb nb bsz ss,
  0 < bsz ->
  Cache.build_sets n i wb nb bsz = inr ss ->
  length ss = n /\
  forall k s, ss !! k = Some s -> s = fresh_set wb nb bsz (i + Z.of_nat k).
Proof.
  induction n as [|n IH]; intros i wb nb bsz ss Hb; simpl.
  - intros [= <-]. split; [done|]. intros k s Hk. by rewrite lookup_nil in Hk.
  - rewrite set_init_ok by done.
    destruct (Cache.build_sets n (i + 1) wb nb bsz) as [e|ss'] eqn:Hss; [done|].
    intros [= <-]. destruct (IH _ _ _ _ _ Hb Hss) as [Hl Hk]. split; [simpl; by rewrite Hl|].
    intros [|k] s Hs; simpl in Hs.
    + injection Hs as <-. by rewrite Z.add_0_r.
    + rewrite (Hk k s Hs). f_equal. lia.
Qed.

Lemma init_succeeds_or_not asz csz bsz assoc wb :
  match Cache.init asz csz bsz assoc wb with
  | inr c => 0 < bsz /\ assoc <> 0 /\ 0 < Z.quot (Z.quot csz bsz) assoc
  | inl e => bsz <= 0 \/ assoc = 0 \/ Z.quot (Z.quot csz bsz) assoc <= 0
  end.
Proof.
  destruct (Cache.init asz csz bsz assoc wb) as [e|c] eqn:Hi.
  - unfold Cache.init in Hi.
    repeat case_bool_decide; try lia.
    destruct (build_sets_ok (Z.to_nat (Z.quot (Z.quot csz bsz) assoc)) 0 wb
                (Z.quot (Z.quot csz bsz) (Z.quot (Z.quot csz bsz) assoc)) bsz)
      as (ss & Hss & _); [lia|].
    rewrite Hss in Hi. discriminate.
  - apply init_fields in Hi as (? & ? & ? & _ & _ & _ & Hns & _). rewrite <- Hns. done.
Qed.

(** A cache of [ns] sets of [assoc] blocks of size [bsz], for positive
    numbers: the constructor succeeds, derives exactly these numbers, sizes
    the three address fields so that their widths add up to the address
    size, and builds [ns] sets, set [k] carrying index [k], the mode of the
    cache, [assoc] blocks that are neither occupied nor dirty, and a queue of
    [assoc] invalid tags. *)
Theorem init_builds_empty_cache asz ns bsz assoc wb :
  0 < ns -> 0 < assoc -> 0 < bsz ->
  exists c,
    Cache.init asz (ns * assoc * bsz) bsz assoc wb = inr c /\
    Cache.num_blocks c = ns * assoc /\
    Cache.num_sets c = ns /\
    Cache.num_blocks_per_set c = assoc /\
    Cache.tag_size c + Cache.index_size c + Cache.block_offset_size c = asz /\
    length (Cache.sets c) = Z.to_nat ns /\
    forall k s, Cache.sets c !! k = Some s ->
      CacheSet.set_index s = Z.of_nat k /\
      CacheSet.write_back s = wb /\
      CacheSet.blocks s = replicate (Z.to_nat assoc) (fresh_block bsz) /\
      TagQueue.queue (CacheSet.tag_queue s) = replicate (Z.to_nat assoc) (-1).
Proof.
  intros Hns Hassoc Hbsz.
  assert (Hq1 : (ns * assoc * bsz) ÷ bsz = ns * assoc).
  { rewrite Z.quot_div_nonneg by nia. by rewrite Z.div_mul by lia. }
  assert (Hq2 : (ns * assoc) ÷ assoc = ns).
  { rewrite Z.quot_div_nonneg by nia. by rewrite Z.div_mul by lia. }
  assert (Hq3 : (ns * assoc) ÷ ns = assoc).
  { rewrite Z.quot_div_nonneg by nia. by rewrite Z.mul_comm, Z.div_mul by lia. }
  destruct (Cache.init asz (ns * assoc * bsz) bsz assoc wb) as [e|c] eqn:Hi.
  - pose proof (init_succeeds_or_not asz (ns * assoc * bsz) bsz assoc wb) as H.
    rewrite Hi in H. rewrite Hq1, Hq2 in H. lia.
  - exists c. split; [done|].
    apply init_fields in Hi as (_ & _ & _ & _ & _ & Hnb & Hnse & Hnbps & Hix & Hoff & Htag & Hs).
    rewrite Hq1 in *. rewrite Hq2 in Hnse. rewrite Hnse, Hq3 in Hnbps.
    destruct (build_sets_lookup _ _ _ _ _ _ Hbsz Hs) as [Hl Hk].
    split_and!; try done; try lia.
    intros k s Hks. rewrite (Hk k s Hks), Hnbps. by rewrite Z.add_0_l.
Qed.

Lemma init_builds_empty_cache_witness :
  exists c, Cache.init 16 1024 64 1 true = inr c /\ Cache.num_sets c = 16 /\
            length (Cache.sets c) = 16%nat.
Proof.
  destruct (init_builds_empty_cache 16 16 64 1 true ltac:(lia) ltac:(lia) ltac:(lia))
    as (c & Hi & _ & Hns & _ & _ & Hl & _).
  exists c. by split_and!.
Defined.

Lemma mem_word_ext (m m' : Memory) n :
  (forall j, (j < 4)%nat -> m !! (n + j)%nat = m' !! (n + j)%nat) ->
  mem_word m (Z.of_nat n) = mem_word m' (Z.of_nat n).
Proof.
  intros H. unfold mem_word. rewrite Nat2Z.id. apply list_eq. intros j.
  rewrite !lookup_take. case_decide; [|done]. rewrite !lookup_drop. by apply H.
Qed.

Lemma store_word_ok (mem : Memory) i b0 b1 b2 b3 :
  0 <= i -> i + 4 <= Z.of_nat (length mem) ->
  CacheSim.store_word mem i [b0; b1; b2; b3] =
    Some (<[(Z.to_nat i + 3)%nat := b3]> (<[(Z.to_nat i + 2)%nat := b2]>
            (<[(Z.to_nat i + 1)%nat := b1]> (<[(Z.to_nat i + 0)%nat := b0]> mem)))).
Proof.
  intros Hi Hl. unfold CacheSim.store_word, py_set. simpl.
  rewrite py_index_nonneg by lia. simpl.
  rewrite py_index_nonneg by (rewrite !length_insert; lia). simpl.
  rewrite py_index_nonneg by (rewrite !length_insert; lia). simpl.
  rewrite py_index_nonneg by (rewrite !length_insert; lia). simpl.
  rewrite !Z2Nat.inj_add by lia. reflexivity.
Qed.

Lemma init_memory_ok n : forall i (mem : Memory),
  0 <= i -> i + 4 * Z.of_nat n <= Z.of_nat (length mem) ->
  exists mem',
    CacheSim.init_memory n i mem = inr mem' /\
    length mem' = length mem /\
    (forall j, (j < Z.to_nat i)%nat -> mem' !! j = mem !! j) /\
    (forall k, (k < n)%nat ->
       mem_word mem' (i + 4 * Z.of_nat k) = int_to_bytearray (i + 4 * Z.of_nat k)).
Proof.
  induction n as [|n IH]; intros i mem Hi Hl; simpl.
  - exists mem. split_and!; try done. intros k Hk. lia.
  - change (int_to_bytearray i) with
      [i mod 256; (i / 256) mod 256; (i / 256 / 256) mod 256; (i / 256 / 256 / 256) mod 256].
    rewrite store_word_ok by lia.
    set (mem1 := <[(Z.to_nat i + 3)%nat := _]> _).
    assert (Hl1 : length mem1 = length mem) by (unfold mem1; by rewrite !length_insert).
    destruct (IH (i + 4) mem1 ltac:(lia) ltac:(lia)) as (mem' & -> & Hl' & Hfr & Hw).
    exists mem'. split; [done|]. split; [congruence|]. split.
    + intros j Hj. rewrite Hfr by lia. unfold mem1.
      by rewrite !list_lookup_insert_ne by lia.
    + intros [|k] Hk.
      * rewrite Z.mul_0_r, Z.add_0_r. rewrite <- (Z2Nat.id i) at 1 by lia.
        rewrite (mem_word_ext mem' mem1).
        2: { intros j Hj. apply Hfr. lia. }
        rewrite Z2Nat.id by lia. unfold mem1, mem_word.
        apply mem_word_store. lia.
      * replace (i + 4 * Z.of_nat (S k)) with (i + 4 + 4 * Z.of_nat k) by lia.
        apply Hw. lia.
Qed.

Lemma sim_init_small asz csz bsz assoc wb :
  0 <= asz < 2 -> CacheSim.init asz csz bsz assoc wb = inl IndexError.
Proof. intros H. by assert (asz = 0 \/ asz = 1) as [-> | ->] by lia. Qed.

Lemma sim_init_cases asz csz bsz assoc wb :
  match CacheSim.init asz csz bsz assoc wb with
  | inr sim =>
      ~ 0 <= asz < 2 /\
      Cache.init asz csz bsz assoc wb = inr (CacheSim.cache sim) /\
      CacheSim.memory_size sim = 2 ^ asz /\
      Z.of_nat (length (CacheSim.memory sim)) = 2 ^ asz /\
      forall a, a mod 4 = 0 -> 0 <= a -> a + 4 <= 2 ^ asz ->
                mem_word (CacheSim.memory sim) a = int_to_bytearray a
  | inl e =>
      (0 <= asz < 2 /\ e = IndexError) \/
      (~ 0 <= asz < 2 /\ Cache.init asz csz bsz assoc wb = inl e)
  end.
Proof.
  destruct (decide (0 <= asz < 2)) as [Hsmall|Hbig].
  { rewrite sim_init_small by done. by left. }
  assert (Hsize : exists n, 2 ^ asz = 4 * Z.of_nat n) .
  { destruct (decide (asz < 0)).
    - exists 0%nat. by rewrite Z.pow_neg_r by lia.
    - exists (Z.to_nat (2 ^ (asz - 2))).
      pose proof (Z.pow_pos_nonneg 2 (asz - 2) ltac:(lia) ltac:(lia)).
      rewrite Z2Nat.id by lia. replace asz with (2 + (asz - 2)) at 1 by lia.
      by rewrite Z.pow_add_r by lia. }
  destruct Hsize as [n Hn].
  unfold CacheSim.init.
  replace (Z.to_nat ((2 ^ asz + 3) / 4)) with n.
  2: { rewrite Hn. replace (4 * Z.of_nat n + 3) with (3 + Z.of_nat n * 4) by lia.
       rewrite Z.div_add by lia. change (3 / 4) with 0. lia. }
  destruct (init_memory_ok n 0 (bytearray (2 ^ asz)) ltac:(lia)) as (mem & -> & Hl & _ & Hw).
  { unfold bytearray. rewrite length_replicate. lia. }
  unfold bytearray in Hl. rewrite length_replicate in Hl.
  destruct (Cache.init asz csz bsz assoc wb) as [e|c]; [by right|].
  simpl. split_and!; try done; try lia.
  intros a Hmod Ha0 Ha.
  pose proof (Z.div_mod a 4 ltac:(lia)) as Hdm. rewrite Hmod, Z.add_0_r in Hdm.
  specialize (Hw (Z.to_nat (a / 4)) ltac:(lia)).
  rewrite Z2Nat.id, Z.add_0_l, <- Hdm in Hw by (apply Z.div_pos; lia). done.
Qed.

(** [CacheSim.__init__].  For an address size of 0 or 1 the loop that fills
    the memory runs off its end and raises [IndexError]; otherwise the
    simulator is built exactly when the cache is, with a memory of
    [2 ^ address_size] bytes in which the word at every aligned address
    holds the little-endian bytes of that address. *)
Theorem sim_init_spec asz csz bsz assoc wb :
  match CacheSim.init asz csz bsz assoc wb with
  | inr sim =>
      ~ 0 <= asz < 2 /\
      Cache.init asz csz bsz assoc wb = inr (CacheSim.cache sim) /\
      CacheSim.memory_size sim = 2 ^ asz /\
      Z.of_nat (length (CacheSim.memory sim)) = 2 ^ asz /\
      forall a, a mod 4 = 0 -> 0 <= a -> a + 4 <= 2 ^ asz ->
                mem_word (CacheSim.memory sim) a = int_to_bytearray a
  | inl e =>
      (0 <= asz < 2 /\ e = IndexError) \/
      (~ 0 <= asz < 2 /\ Cache.init asz csz bsz assoc wb = inl e)
  end.
Proof.
  apply sim_init_cases.
Qed.

(** ** Operations of the simulator *)

Definition op_address (o : Op) : Z :=
  match o with Read a => a | Write a _ => a end.

Definition op_type (o : Op) : OpType :=
  match o with Read _ => op_read | Write _ _ => op_write end.

(** The addresses of the address space: aligned and below the memory size. *)
Definition in_address_space (size : Z) (o : Op) : Prop :=
  op_address o mod 4 = 0 /\ 0 <= op_address o < size.

Lemma sim_step_memory_size o sim :
  CacheSim.memory_size (final_state (sim_step o sim)) = CacheSim.memory_size sim.
Proof.
  destruct o as [a|a w]; simpl;
    unfold CacheSim.read, CacheSim.write, bind, CacheSim.assert, gets;
    (case_bool_decide; [|done]); simpl; (case_bool_decide; [|done]); simpl;
    unfold CacheSim.on_cache, zoom.
  - by destruct (Cache.read a _).
  - by destruct (Cache.write a _ _).
Qed.

Lemma sim_step_type o sim r sim' : sim_step o sim = Done r sim' -> fst r = op_type o.
Proof.
  destruct o as [a|a w]; simpl;
    unfold CacheSim.read, CacheSim.write, bind, CacheSim.assert, gets;
    (case_bool_decide; [|done]); simpl; (case_bool_decide; [|done]); simpl;
    unfold CacheSim.on_cache, zoom.
  - destruct (Cache.read a _); [|done]. by intros [= <- _].
  - destruct (Cache.write a _ _); [|done]. by intros [= <- _].
Qed.

Lemma sim_run_ok ops : forall sim,
  sim_wf sim -> Forall (in_address_space (CacheSim.memory_size sim)) ops ->
  exists rs sim',
    sim_run ops sim = Done rs sim' /\ sim_wf sim' /\
    map fst rs = map op_type ops /\
    CacheSim.memory_size sim' = CacheSim.memory_size sim.
Proof.
  induction ops as [|o ops IH]; intros sim Hwf Hops; simpl.
  - by exists [], sim.
  - apply Forall_cons in Hops as [Ho Hops].
    destruct (sim_step_ok sim o Hwf) as (r & sim1 & Hstep & Hwf1).
    { by destruct o. }
    pose proof (sim_step_memory_size o sim) as Hsz. rewrite Hstep in Hsz. simpl in Hsz.
    destruct (IH sim1 Hwf1) as (rs & sim' & Hrun & Hwf' & Hty & Hsz'); [by rewrite Hsz|].
    exists (r :: rs), sim'. rewrite bind_run, Hstep, bind_run, Hrun, ret_run.
    split_and!; try done; [|congruence]. simpl. rewrite Hty. f_equal.
    by eapply sim_step_type.
Qed.

(** A simulator built with a positive associativity and a block size of at
    least 32 runs every sequence of reads and writes on aligned addresses of
    its address space to the end: no operation raises, and each one answers
    its record. *)
Theorem accepted_operations_complete asz csz bsz assoc wb sim ops :
  CacheSim.init asz csz bsz assoc wb = inr sim ->
  0 < assoc -> 32 <= bsz ->
  Forall (in_address_space (2 ^ asz)) ops ->
  exists rs sim',
    sim_run ops sim = Done rs sim' /\
    map fst rs = map op_type ops /\
    CacheSim.memory_size sim' = 2 ^ asz.
Proof.
  intros Hi Hassoc Hbsz Hops.
  assert (Hsz : CacheSim.memory_size sim = 2 ^ asz).
  { unfold CacheSim.init in Hi.
    destruct (CacheSim.init_memory _ _ _); [done|].
    destruct (Cache.init _ _ _ _ _); [done|]. by injection Hi as <-. }
  destruct ops as [|o ops].
  { exists [], sim. by split_and!. }
  assert (2 <= asz).
  { apply Forall_cons in Hops as [[_ Ho] _].
    destruct (decide (asz < 0)); [rewrite Z.pow_neg_r in Ho by done; lia|].
    destruct (decide (asz < 2)); [|lia].
    rewrite sim_init_small in Hi by lia. done. }
  destruct (sim_run_ok (o :: ops) sim) as (rs & sim' & Hrun & _ & Hty & Hsz').
  { by eapply sim_init_wf. }
  { by rewrite Hsz. }
  exists rs, sim'. split_and!; try done. congruence.
Qed.

Lemma accepted_operations_complete_witness :
  exists sim rs sim',
    CacheSim.init 8 128 32 2 false = inr sim /\
    sim_run [Read 0; Write 64 9; Read 128; Read 64] sim = Done rs sim' /\
    map fst rs = [op_read; op_write; op_read; op_read].
Proof.
  eexists. 
  destruct (accepted_operations_complete 8 128 32 2 false
              ltac:(let s := eval vm_compute in (CacheSim.init 8 128 32 2 false) in
                    match s with inr ?s => exact s end)
              [Read 0; Write 64 9; Read 128; Read 64])
    as (rs & sim' & Hrun & Hty & _).
  - vm_compute. reflexivity.
  - lia.
  - lia.
  - repeat constructor; simpl; lia.
  - exists rs, sim'. split; [vm_compute; reflexivity|]. by split.
Defined.

(** An operation on an address that is not aligned, is negative or lies
    beyond the memory size fails its assertion: it raises [AssertionError],
    the simulator is left exactly as it was, and the operations after it in
    a run are not carried out. *)
Theorem rejected_operation_changes_nothing o ops sim :
  op_address o mod 4 <> 0 \/ op_address o < 0 \/ CacheSim.memory_size sim < op_address o ->
  sim_step o sim = Raise AssertionError sim /\
  sim_run (o :: ops) sim = Raise AssertionError sim.
Proof.
  intros H.
  assert (Hstep : sim_step o sim = Raise AssertionError sim).
  { destruct o as [a|a w]; simpl in *;
      [by apply sim_read_rejected | by apply sim_write_rejected]. }
  split; [done|]. simpl. by rewrite bind_run, Hstep.
Qed.

Lemma rejected_operation_changes_nothing_witness :
  exists sim, CacheSim.init 8 64 32 1 true = inr sim /\
              sim_run [Read 6; Read 4] sim = Raise AssertionError sim.
Proof.
  eexists. split; [vm_compute; reflexivity|].
  apply rejected_operation_changes_nothing. left. by vm_compute.
Defined.

(** ** Hits, misses and what a write leaves *)

(** The set of address [a] holds an occupied block with the tag of [a]. *)
Definition tag_resident (a : Z) (c : Cache.t) : Prop :=
  exists n s b,
    py_index (length (Cache.sets c)) (index_of c a) = Some n /\
    Cache.sets c !! n = Some s /\
    b ∈ CacheSet.blocks s /\ block_matches (tag_of c a) b.

Lemma find_block_index_found t s :
  CacheSet.find_block_index t s <> -1 <->
  exists b, b ∈ CacheSet.blocks s /\ block_matches t b.
Proof.
  unfold CacheSet.find_block_index. split.
  - intros Hne. destruct (first_match_range (CacheSet.blocks s) t 0) as [?|Hr]; [done|].
    destruct (first_match_found (CacheSet.blocks s) t 0 _ eq_refl) as (b & Hb & Hm); [lia|].
    exists b. split; [by eapply list_elem_of_lookup_2|done].
  - intros (b & Hb & Hm) Heq. by apply (first_match_none _ _ 0 Heq ltac:(lia) b Hb).
Qed.

Lemma tag_resident_find a c n s :
  py_index (length (Cache.sets c)) (index_of c a) = Some n ->
  Cache.sets c !! n = Some s ->
  tag_resident a c <-> CacheSet.find_block_index (tag_of c a) s <> -1.
Proof.
  intros Hn Hs. rewrite find_block_index_found. split.
  - intros (n' & s' & b & Hn' & Hs' & Hb). rewrite Hn in Hn'. injection Hn' as <-.
    rewrite Hs in Hs'. injection Hs' as <-. by exists b.
  - intros (b & Hb). by exists n, s, b.
Qed.

Lemma first_match_insert_same bs t k b b' : forall i,
  bs !! k = Some b ->
  CacheBlock.tag b' = CacheBlock.tag b -> CacheBlock.occupied b' = CacheBlock.occupied b ->
  CacheSet.first_match (<[k:=b']> bs) t i = CacheSet.first_match bs t i.
Proof.
  revert k. induction bs as [|b0 bs IH]; intros k i Hk Ht Ho; [done|].
  destruct k as [|k]; simpl in *.
  - injection Hk as ->. by rewrite Ht, Ho.
  - by rewrite (IH k (i + 1)).
Qed.

(** What [Cache.write] leaves in the set of the address: on a hit the
    block found gets the word; on a miss a block is filled for the tag and
    then the last block of the set gets the word. *)
Lemma cache_write_result a w mem c n s :
  cache_wf c -> valid_address mem a -> (4 <= length w)%nat ->
  py_index (length (Cache.sets c)) (index_of c a) = Some n ->
  Cache.sets c !! n = Some s ->
  exists d mem' s',
    Cache.write a w (mem, c) = Done d (mem', Cache.set_sets (<[n:=s']> (Cache.sets c)) c) /\
    set_wf s' /\
    CacheBlock.word_dec w = Some (word d) /\
    (CacheSet.find_block_index (tag_of c a) s <> -1 ->
       hit_or_miss d = Some hit /\
       exists k b, CacheSet.find_block_index (tag_of c a) s = Z.of_nat k /\
                   CacheSet.blocks s !! k = Some b /\
                   CacheSet.blocks s' =
                     <[k := CacheBlock.mk (CacheBlock.occupied b)
                              (if Cache.write_back c then true else CacheBlock.dirty b)
                              (CacheBlock.tag b) w]> (CacheSet.blocks s)) /\
    (CacheSet.find_block_index (tag_of c a) s = -1 ->
       hit_or_miss d = Some miss /\
       exists k0 b0 b1,
         (k0 < length (CacheSet.blocks s))%nat /\
         block_matches (tag_of c a) b0 /\
         <[k0 := b0]> (CacheSet.blocks s) !! (length (CacheSet.blocks s) - 1)%nat = Some b1 /\
         CacheSet.blocks s' =
           <[(length (CacheSet.blocks s) - 1)%nat :=
               CacheBlock.mk (CacheBlock.occupied b1)
                 (if Cache.write_back c then true else CacheBlock.dirty b1)
                 (CacheBlock.tag b1) w]> (<[k0 := b0]> (CacheSet.blocks s))).
Proof.
  intros Hwf Ha Hw Hn Hs.
  assert (Hswf : set_wf s).
  { destruct Hwf as (_ & _ & _ & Hf). by eapply (Forall_lookup_1 _ _ _ _ Hf Hs). }
  pose proof (py_index_lt _ _ _ Hn) as Hlt.
  destruct (word_dec_ok w Hw) as [v Hv].
  rewrite cache_write_run, bind_run, (on_set_run _ _ n s), set_self_run by done.
  rewrite list_insert_id, set_sets_id by done.
  rewrite bind_run. case_bool_decide as Hbi.
  - rewrite bind_run, (on_set_run _ _ n s) by done.
    destruct (set_read_from_memory_ok mem s a (tag_of c a) (offset_of c a) Hswf Ha)
      as (d0 & mem1 & s1 & k0 & b0 & -> & Hswf1 & Hl1 & Hk0 & Hbl & Hocc & Htag & _).
    rewrite ret_run, bind_run, cache_self_run, bind_run.
    destruct Hswf1 as (Hq1 & Hne1 & Hbs1).
    destruct (block_index_valid _ (-1) Hne1 ltac:(by left)) as (k & b1 & Hk & Hb1).
    assert (Hkl : k = (length (CacheSet.blocks s) - 1)%nat).
    { rewrite py_index_last in Hk by (destruct (CacheSet.blocks s1); [done|simpl; lia]).
      injection Hk as <-. by rewrite Hbl, length_insert. }
    rewrite (on_set_run _ _ n s1), Hbi.
    2: { simpl. by rewrite length_insert. }
    2: { simpl. by apply list_lookup_insert_eq. }
    change (Cache.write_back (Cache.set_sets (<[n:=s1]> (Cache.sets c)) c))
      with (Cache.write_back c).
    destruct (set_write_to_cache_ok mem1 s1 a (tag_of c a) (-1) (offset_of c a) w
                (Cache.write_back c) k b1 Hk Hb1)
      as (d & mem' & -> & Hflag & Hv' & Hl & _); [unfold valid_address in *; by rewrite Hl1|done|].
    rewrite ret_run. simpl. rewrite list_insert_insert_eq.
    eexists _, mem', _. split; [reflexivity|].
    split.
    { split; [done|]. simpl. split; [by apply insert_nonempty|].
      apply Forall_insert; [done|]. by unfold block_wf. }
    split; [done|]. split; [done|]. intros _. split; [done|].
    exists k0, b0, b1. rewrite <- Hkl, <- Hbl. by split_and!.
  - rewrite ret_run, bind_run, cache_self_run, bind_run, (on_set_run _ _ n s) by done.
    destruct (first_match_range (CacheSet.blocks s) (tag_of c a) 0) as [?|Hr]; [done|].
    fold (CacheSet.find_block_index (tag_of c a) s) in Hr.
    set (bi := CacheSet.find_block_index (tag_of c a) s) in *.
    destruct (lookup_lt_is_Some_2 (CacheSet.blocks s) (Z.to_nat bi) ltac:(lia)) as [b Hb].
    destruct (set_write_to_cache_ok mem s a (tag_of c a) bi (offset_of c a) w
                (Cache.write_back c) (Z.to_nat bi) b)
      as (d & mem' & -> & Hflag & Hv' & Hl & _); [by apply py_index_nonneg; lia|done..|].
    rewrite ret_run. destruct Hswf as (Hq & Hne & Hbs).
    eexists _, mem', _. split; [reflexivity|].
    split.
    { split; [done|]. simpl. split; [by apply insert_nonempty|].
      apply Forall_insert; [done|]. by unfold block_wf. }
    split; [done|]. split; [|done]. intros _. split; [done|].
    exists (Z.to_nat bi), b. split_and!; try done. lia.
Qed.

(** Reads and writes classify alike: an operation whose word lies inside
    the memory reports a hit exactly when the set of its address held an
    occupied block with its tag before the operation, and a miss otherwise. *)
Theorem hit_iff_tag_resident o mem c :
  cache_wf c -> valid_op mem o ->
  exists d st',
    cache_step o (mem, c) = Done d st' /\
    (tag_resident (op_address o) c -> hit_or_miss d = Some hit) /\
    (~ tag_resident (op_address o) c -> hit_or_miss d = Some miss).
Proof.
  intros Hwf Ho.
  assert (Ha0 : 0 <= op_address o) by (destruct o; exact (proj1 Ho)).
  destruct (index_of_valid c (op_address o) Hwf Ha0) as (n & s & Hn & Hs & Hswf).
  pose proof (tag_resident_find (op_address o) c n s Hn Hs) as Hres.
  destruct o as [a|a w]; simpl in *.
  - destruct (decide (CacheSet.find_block_index (tag_of c a) s = -1)) as [Hm|Hh].
    + destruct (cache_read_miss_ok a mem c n s Hwf Ho Hn Hs Hm)
        as (d & mem' & c' & Hr & Hmiss & _).
      exists d, (mem', c'). split; [done|]. split; [|done].
      intros Hr'. apply Hres in Hr'. done.
    + destruct (resident_of_hit a mem c n s Hwf Hn Hs Hh) as [v Hv].
      destruct (cache_read_hit_ok a v mem c Hwf Hv) as (d & c' & Hr & Hhit & _).
      exists d, (mem, c'). split; [done|]. split; [done|].
      intros Hr'. exfalso. apply Hr'. by apply Hres.
  - destruct (cache_write_result a (int_to_bytearray w) mem c n s Hwf Ho ltac:(simpl; lia) Hn Hs)
      as (d & mem' & s' & Hr & _ & _ & Hhit & Hmiss).
    eexists d, _. split; [exact Hr|]. split.
    + intros Hr'. apply Hres in Hr'. by apply Hhit.
    + intros Hr'. apply Hmiss.
      destruct (decide (CacheSet.find_block_index (tag_of c a) s = -1)); [done|].
      exfalso. apply Hr'. by apply Hres.
Qed.

Lemma hit_iff_tag_resident_witness :
  exists c d st',
    Cache.init 8 64 32 1 true = inr c /\
    cache_step (Read 64) (bytearray 256, c) = Done d st' /\
    hit_or_miss d = Some miss.
Proof.
  eexists.
  destruct (hit_iff_tag_resident (Read 64) (bytearray 256)
              ltac:(let c := eval vm_compute in (Cache.init 8 64 32 1 true) in
                    match c with inr ?c => exact c end))
    as (d & st' & Hr & _ & Hmiss); [example_wf..|].
  exists d, st'. split; [vm_compute; reflexivity|]. split; [exact Hr|].
  apply Hmiss. intros Hres.
  eapply (tag_resident_find 64 _ 0%nat) in Hres; [|reflexivity|reflexivity].
  by apply Hres.
Defined.

(** A word written and read back.  When the tag of the address is in the
    cache (a write hit), or every set has a single block, a write followed
    by a read of the same address gives a read hit that answers the word
    written and leaves the memory as the write left it. *)
Theorem read_after_write a w mem c :
  cache_wf c -> valid_address mem a -> length w = 4%nat ->
  tag_resident a c \/ Forall (fun s => length (CacheSet.blocks s) = 1%nat) (Cache.sets c) ->
  exists d1 mem1 c1 d2 c2,
    Cache.write a w (mem, c) = Done d1 (mem1, c1) /\
    Cache.read a (mem1, c1) = Done d2 (mem1, c2) /\
    hit_or_miss d2 = Some hit /\
    CacheBlock.word_dec w = Some (word d2).
Proof.
  intros Hwf Ha Hw Hcase.
  destruct (index_of_valid c a Hwf (proj1 Ha)) as (n & s & Hn & Hs & Hswf).
  pose proof (py_index_lt _ _ _ Hn) as Hlt.
  destruct (cache_write_result a w mem c n s Hwf Ha ltac:(lia) Hn Hs)
    as (d1 & mem1 & s' & Hwr & Hswf' & Hv & Hhit & Hmiss).
  set (c1 := Cache.set_sets (<[n:=s']> (Cache.sets c)) c) in *.
  assert (Hwf1 : cache_wf c1) by (by eapply cache_wf_insert).
  assert (Hres : resident a (word d1) c1).
  { destruct (decide (CacheSet.find_block_index (tag_of c a) s = -1)) as [Hm|Hh].
    - destruct Hcase as [Hr|Hone].
      { exfalso. by apply (tag_resident_find a c n s Hn Hs) in Hr. }
      destruct (Hmiss Hm) as (_ & k0 & b0 & b1 & Hk0 & [Ht Ho] & Hb1 & Hbl).
      pose proof (Forall_lookup_1 _ _ _ _ Hone Hs) as Hlen. simpl in Hlen.
      destruct (CacheSet.blocks s) as [|x [|? ?]] eqn:Hbs; simpl in Hlen; try lia.
      simpl in Hk0. assert (k0 = 0%nat) as -> by lia. simpl in Hb1, Hbl.
      injection Hb1 as <-.
      exists n, s', 0%nat, (CacheBlock.mk (CacheBlock.occupied b0)
                              (if Cache.write_back c then true else CacheBlock.dirty b0)
                              (CacheBlock.tag b0) w).
      split; [simpl; by rewrite length_insert|].
      split; [simpl; by apply list_lookup_insert_eq|].
      unfold CacheSet.find_block_index. rewrite Hbl. simpl.
      rewrite Ho, bool_decide_eq_true_2 by done. by split_and!.
    - destruct (Hhit Hh) as (_ & k & b & Hk & Hb & Hbl).
      exists n, s', k, (CacheBlock.mk (CacheBlock.occupied b)
                          (if Cache.write_back c then true else CacheBlock.dirty b)
                          (CacheBlock.tag b) w).
      split; [simpl; by rewrite length_insert|].
      split; [simpl; by apply list_lookup_insert_eq|].
      split.
      { unfold CacheSet.find_block_index in *. rewrite Hbl.
        by rewrite (first_match_insert_same _ _ k b). }
      split; [|done]. rewrite Hbl. apply list_lookup_insert_eq. by eapply lookup_lt_Some. }
  destruct (cache_read_hit_ok a (word d1) mem1 c1 Hwf1 Hres) as (d2 & c2 & Hrd & Hh2 & Hw2 & _).
  exists d1, mem1, c1, d2, c2. split_and!; try done. by rewrite Hw2.
Qed.

Lemma read_after_write_witness :
  exists c d1 mem1 c1 d2 c2,
    Cache.init 8 64 32 1 true = inr c /\
    Cache.write 64 [9; 0; 0; 0] (bytearray 256, c) = Done d1 (mem1, c1) /\
    Cache.read 64 (mem1, c1) = Done d2 (mem1, c2) /\
    hit_or_miss d2 = Some hit /\ word d2 = 9.
Proof.
  eexists.
  destruct (read_after_write 64 [9; 0; 0; 0] (bytearray 256)
              ltac:(let c := eval vm_compute in (Cache.init 8 64 32 1 true) in
                    match c with inr ?c => exact c end))
    as (d1 & mem1 & c1 & d2 & c2 & Hw & Hr & Hh & Hv); [example_wf..|reflexivity| |].
  { right. repeat constructor. }
  exists d1, mem1, c1, d2, c2. split; [vm_compute; reflexivity|].
  split_and!; try done. vm_compute in Hv. by injection Hv.
Defined.

(** ** What a miss loads *)

Lemma mem_word_lookup (mem : Memory) a :
  valid_address mem a ->
  exists m0 m1 m2 m3,
    mem_word mem a = [m0; m1; m2; m3] /\
    mem !! Z.to_nat (a + 0) = Some m0 /\ mem !! Z.to_nat (a + 1) = Some m1 /\
    mem !! Z.to_nat (a + 2) = Some m2 /\ mem !! Z.to_nat (a + 3) = Some m3.
Proof.
  intros [Ha Hl]. unfold mem_word.
  pose proof (length_drop mem (Z.to_nat a)) as Hd.
  destruct (drop (Z.to_nat a) mem) as [|m0 [|m1 [|m2 [|m3 rest]]]] eqn:Hdrop;
    simpl in Hd; try lia.
  exists m0, m1, m2, m3. split; [done|].
  rewrite !Z2Nat.inj_add by lia.
  rewrite <- !(lookup_drop mem (Z.to_nat a)), Hdrop. done.
Qed.

Lemma load_byte_exact mem b a i x :
  0 <= a + i -> 0 <= i -> (Z.to_nat i < length (CacheBlock.word b))%nat ->
  mem !! Z.to_nat (a + i) = Some x ->
  CacheBlock.load_byte a i (mem, b) =
    Done tt (mem, CacheBlock.set_word (<[Z.to_nat i := x]> (CacheBlock.word b)) b).
Proof.
  intros Ha Hi Hb Hx. unfold CacheBlock.load_byte.
  pose proof (lookup_lt_Some _ _ _ Hx).
  rewrite (py_get_index _ _ (Z.to_nat (a + i))) by (apply py_index_nonneg; lia).
  rewrite Hx. unfold py_set. by rewrite py_index_nonneg by lia.
Qed.

Lemma block_read_from_memory_exact mem b a t :
  valid_address mem a -> block_wf b ->
  exists w, length w = length (CacheBlock.word b) /\
            take 4 w = mem_word mem a /\
            CacheBlock.read_from_memory a t (mem, b) =
              Done tt (mem, CacheBlock.mk true (CacheBlock.dirty b) t w).
Proof.
  intros Ha Hb. destruct (mem_word_lookup mem a Ha) as (m0 & m1 & m2 & m3 & Hmw & H0 & H1 & H2 & H3).
  destruct Ha as [Ha Hl]. unfold block_wf in Hb.
  unfold CacheBlock.read_from_memory, bind, CacheBlock.upd, modify. cbv beta iota.
  rewrite (load_byte_exact _ _ a 0 m0) by (simpl; lia || done). cbv beta iota.
  rewrite (load_byte_exact _ _ a 1 m1) by (simpl; rewrite ?length_insert; lia || done).
  cbv beta iota.
  rewrite (load_byte_exact _ _ a 2 m2) by (simpl; rewrite ?length_insert; lia || done).
  cbv beta iota.
  rewrite (load_byte_exact _ _ a 3 m3) by (simpl; rewrite ?length_insert; lia || done).
  simpl. eexists. split; [|split; [|reflexivity]].
  - by rewrite !length_insert.
  - rewrite Hmw. destruct (CacheBlock.word b) as [|x0 [|x1 [|x2 [|x3 rest]]]]; simpl in Hb; try lia.
    reflexivity.
Qed.

Lemma word_dec_take (w : list Z) :
  (4 <= length w)%nat -> CacheBlock.word_dec (take 4 w) = CacheBlock.word_dec w.
Proof.
  intros H. destruct w as [|x0 [|x1 [|x2 [|x3 rest]]]]; simpl in H; try lia.
  unfold CacheBlock.word_dec, py_get.
  rewrite !py_index_nonneg by (simpl; lia). reflexivity.
Qed.

Lemma refill_loads {A} (x : A) mem s a t bi k b :
  py_index (length (CacheSet.blocks s)) bi = Some k ->
  CacheSet.blocks s !! k = Some b ->
  valid_address mem a ->
  exists w,
    length w = 4%nat /\ w = mem_word mem a /\
    (CacheSet.on_block bi CacheBlock.clear_block ;;;
     CacheSet.on_block bi (CacheBlock.read_from_memory a t) ;;;
     ret x) (mem, s) =
      Done x (mem, CacheSet.set_blocks
                     (<[k := CacheBlock.mk true false t w]> (CacheSet.blocks s)) s).
Proof.
  intros Hi Hb Ha. unfold bind. pose proof (py_index_lt _ _ _ Hi) as Hk.
  rewrite (on_block_run _ _ k b) by done.
  change (CacheBlock.clear_block (mem, b))
    with (Done (St := CacheBlock.St) tt (mem, CacheBlock.mk false false (-1) (bytearray 4))).
  cbv beta iota.
  rewrite (on_block_run _ _ k (CacheBlock.mk false false (-1) (bytearray 4))).
  2: { simpl. by rewrite length_insert. }
  2: { simpl. by apply list_lookup_insert_eq. }
  destruct (block_read_from_memory_exact mem (CacheBlock.mk false false (-1) (bytearray 4)) a t Ha)
    as (w & Hl & Ht & ->); [unfold block_wf; simpl; lia|].
  simpl in Hl. rewrite take_ge in Ht by lia.
  simpl. rewrite list_insert_insert_eq. by exists w.
Qed.

Lemma replace_cache_block_loads mem s a t :
  set_wf s -> valid_address mem a ->
  exists bi wb rd mem' s' k,
    CacheSet.replace_cache_block a t (mem, s) = Done (bi, wb, rd) (mem', s') /\
    py_index (length (CacheSet.blocks s)) bi = Some k /\
    CacheSet.blocks s' =
      <[k := CacheBlock.mk true false t (mem_word mem' a)]> (CacheSet.blocks s) /\
    CacheSet.tag_queue s' = CacheSet.tag_queue s /\
    length mem' = length mem.
Proof.
  intros (Hq & Hne & Hbs) Ha. unfold CacheSet.replace_cache_block.
  rewrite bind_run, on_tag_queue_run.
  destruct Hq as [Hql Hqne].
  destruct (TagQueue.queue (CacheSet.tag_queue s)) as [|x rest] eqn:Hqueue; [done|].
  unfold TagQueue.get_least_recently_used. rewrite Hqueue, set_tag_queue_id.
  rewrite bind_run, set_self_run.
  destruct (find_block_index_valid x s Hne) as (k & b0 & Hi & Hb0).
  set (bi := CacheSet.find_block_index x s) in *.
  rewrite bind_run, (bind_run (CacheSet.self CacheSet.blocks)), set_self_run.
  rewrite (py_get_index _ _ _ Hi), Hb0. unfold orelse. rewrite ret_run.
  rewrite bind_run, set_self_run, bind_run.
  assert (Hwf0 : block_wf b0) by (by eapply (Forall_lookup_1 _ _ _ _ Hbs Hb0)).
  destruct (CacheSet.write_back s && CacheBlock.dirty b0) eqn:Hd.
  - rewrite bind_run, (on_block_run _ _ k b0) by done.
    destruct (block_write_to_memory_ok mem b0 a Ha Hwf0) as (mem' & Hl & ->).
    rewrite list_insert_id, set_blocks_id by done.
    rewrite bind_run, set_upd_run, bind_run, set_self_run, ret_run.
    destruct (refill_loads (bi, WriteBackRange (find_range a (CacheSet.block_size s)).1
                               (find_range a (CacheSet.block_size s)).2, Replaced x bi)
                mem' (CacheSet.set_last_write_address a s) a t bi k b0 Hi Hb0)
      as (w & Hw & -> & Heq); [unfold valid_address in *; lia|].
    eexists bi, _, _, mem', _, k. split; [exact Heq|]. by repeat split.
  - rewrite ret_run.
    destruct (refill_loads (bi, WriteBackNone, Replaced x bi) mem s a t bi k b0 Hi Hb0 Ha)
      as (w & Hw & -> & Heq).
    eexists bi, _, _, mem, _, k. split; [exact Heq|]. by repeat split.
Qed.

Lemma mem_word_length (mem : Memory) a :
  valid_address mem a -> length (mem_word mem a) = 4%nat.
Proof.
  intros Ha. by destruct (mem_word_lookup mem a Ha) as (? & ? & ? & ? & -> & _).
Qed.

Lemma set_read_from_memory_loads mem s a t off :
  set_wf s -> valid_address mem a ->
  exists d mem' s',
    CacheSet.read_from_memory a t off (mem, s) = Done d (mem', s') /\
    length mem' = length mem /\
    CacheBlock.word_dec (mem_word mem' a) = Some (word d).
Proof.
  intros Hwf Ha. pose proof Hwf as (Hq & Hne & Hbs).
  unfold CacheSet.read_from_memory.
  rewrite bind_run, set_upd_run, bind_run, set_self_run, bind_run.
  set (s0 := CacheSet.set_last_write_address (-1) s).
  destruct (CacheSet.find_free_block s0) as [n|] eqn:Hfree.
  - apply first_free_lookup in Hfree as (_ & b & Hb). rewrite Nat.sub_0_r in Hb.
    assert (Hn : (n < length (CacheSet.blocks s))%nat) by (by eapply lookup_lt_Some).
    assert (Hwfb : block_wf b) by (by eapply (Forall_lookup_1 _ _ _ _ Hbs Hb)).
    rewrite bind_run, (on_block_run _ _ n b) by (by try apply py_index_of_nat).
    destruct (block_read_from_memory_exact mem b a t Ha Hwfb) as (w & Hw & Htk & ->).
    rewrite bind_run, set_upd_run, ret_run.
    set (b' := CacheBlock.mk true (CacheBlock.dirty b) t w).
    set (s1 := CacheSet.set_evicted _ _ _).
    assert (Hwfb' : block_wf b') by (unfold block_wf, b'; simpl; unfold block_wf in Hwfb; lia).
    destruct (read_tail_ok mem s1 a t off (Z.of_nat n) n b' (Some ReplaceNone) WriteBackAbsent)
      as (d & q' & Heq & Hq' & Hd); [done| | |done|].
    { simpl. rewrite length_insert. by apply py_index_of_nat. }
    { simpl. by apply list_lookup_insert_eq. }
    eexists d, mem, _. split; [exact Heq|]. split; [done|].
    rewrite <- Htk, word_dec_take by (unfold block_wf in Hwfb'; by simpl in Hwfb'). done.
  - destruct (replace_cache_block_loads mem s0 a t Hwf Ha)
      as (bi & wb & rd & mem' & s1 & k & -> & Hi & Hbl & Htq & Hl).
    assert (Ha' : valid_address mem' a) by (unfold valid_address in *; by rewrite Hl).
    set (b' := CacheBlock.mk true false t (mem_word mem' a)) in *.
    pose proof (py_index_lt _ _ _ Hi) as Hk. simpl in Hk, Hbl, Htq, Hi.
    assert (Hwfb' : block_wf b').
    { unfold block_wf, b'. simpl. rewrite mem_word_length by done. lia. }
    destruct (read_tail_ok mem' s1 a t off bi k b' (Some rd) wb)
      as (d & q' & Heq & Hq' & Hd); [by rewrite Htq| | |done|].
    { by rewrite Hbl, length_insert. }
    { rewrite Hbl. by apply list_lookup_insert_eq. }
    eexists d, mem', _. split; [exact Heq|]. by split.
Qed.

Lemma cache_read_miss_loads a mem c :
  cache_wf c -> valid_address mem a -> ~ tag_resident a c ->
  exists d mem' c',
    Cache.read a (mem, c) = Done d (mem', c') /\
    hit_or_miss d = Some miss /\
    length mem' = length mem /\
    CacheBlock.word_dec (mem_word mem' a) = Some (word d) /\
    (nothing_to_flush c -> mem' = mem).
Proof.
  intros Hwf Ha Hnot.
  destruct (index_of_valid c a Hwf (proj1 Ha)) as (n & s & Hn & Hs & Hswf).
  assert (Hfind : CacheSet.find_block_index (tag_of c a) s = -1).
  { destruct (decide (CacheSet.find_block_index (tag_of c a) s = -1)); [done|].
    exfalso. apply Hnot. by apply (tag_resident_find a c n s Hn Hs). }
  destruct (cache_read_miss_ok a mem c n s Hwf Ha Hn Hs Hfind)
    as (d0 & mem0 & c0 & Hr0 & _ & _ & _ & _ & Hsame).
  revert Hr0.
  rewrite cache_read_run, bind_run, (on_set_run _ _ n s), set_self_run by done.
  rewrite list_insert_id, set_sets_id, Hfind by done.
  rewrite bool_decide_eq_true_2 by done.
  rewrite bind_run, (on_set_run _ _ n s) by done.
  destruct (set_read_from_memory_loads mem s a (tag_of c a) (offset_of c a) Hswf Ha)
    as (d & mem' & s' & -> & Hl & Hd).
  rewrite ret_run. intros [= <- <- <-].
  eexists _, mem', _. split; [reflexivity|]. by split_and!.
Qed.

(** A read miss answers the word of the memory.  When no occupied block of
    the set holds the tag of the address, the read reports a miss and its
    word is the little-endian value of the four bytes the memory holds at
    the address once the read is over; with no dirty block to flush the
    memory is the one before the read. *)
Theorem read_miss_answers_memory_word a mem c :
  cache_wf c -> valid_address mem a -> ~ tag_resident a c ->
  exists d mem' c',
    Cache.read a (mem, c) = Done d (mem', c') /\
    hit_or_miss d = Some miss /\
    length mem' = length mem /\
    CacheBlock.word_dec (mem_word mem' a) = Some (word d) /\
    (nothing_to_flush c -> mem' = mem).
Proof. apply cache_read_miss_loads. Qed.

Lemma read_miss_answers_memory_word_witness :
  exists sim c d mem' c',
    CacheSim.init 8 64 32 1 true = inr sim /\
    c = CacheSim.cache sim /\
    Cache.read 64 (CacheSim.memory sim, c) = Done d (mem', c') /\
    hit_or_miss d = Some miss /\ word d = 64.
Proof.
  eexists.
  destruct (read_miss_answers_memory_word 64
              ltac:(let s := eval vm_compute in (CacheSim.init 8 64 32 1 true) in
                    match s with inr ?s => exact (CacheSim.memory s) end)
              ltac:(let c := eval vm_compute in (Cache.init 8 64 32 1 true) in
                    match c with inr ?c => exact c end))
    as (d & mem' & c' & Hr & Hmiss & _ & Hw & _); [example_wf..| |].
  { intros Hres. eapply (tag_resident_find 64 _ 0%nat) in Hres; [|reflexivity|reflexivity].
    by apply Hres. }
  eexists _, d, mem', c'. split; [vm_compute; reflexivity|]. split; [reflexivity|].
  split; [exact Hr|]. split; [exact Hmiss|].
  pose proof Hr as Hr'. vm_compute in Hr'. injection Hr' as <- <- <-.
  reflexivity.
Defined.

(** ** What an operation leaves alone *)

(** The state is the cache [c0] with some of its sets replaced, and only at
    the position that the set index [i] selects. *)
Definition only_set_changed (c0 : Cache.t) (i : Z) (st : Cache.St) : Prop :=
  exists ss,
    snd st = Cache.set_sets ss c0 /\
    length ss = length (Cache.sets c0) /\
    forall j, py_index (length (Cache.sets c0)) i <> Some j ->
              ss !! j = Cache.sets c0 !! j.

Lemma only_set_changed_refl c0 i mem : only_set_changed c0 i (mem, c0).
Proof. exists (Cache.sets c0). by rewrite set_sets_id. Qed.

Lemma on_set_only_set_changed {A} c0 i (m : M CacheSet.St A) :
  inv (only_set_changed c0 i) (Cache.on_set i m).
Proof.
  intros [mem c] (ss & Hc & Hl & Hj). simpl in Hc. subst c.
  assert (Hsame : only_set_changed c0 i (mem, Cache.set_sets ss c0)).
  { exists ss. by split_and!. }
  unfold Cache.on_set. simpl. rewrite Hl.
  destruct (py_index (length (Cache.sets c0)) i) as [n|] eqn:Hn; [|exact Hsame].
  destruct (ss !! n) as [s|] eqn:Hs; [|exact Hsame].
  unfold zoom.
  destruct (m (mem, s)) as [a [mem' s']|e [mem' s']];
    (exists (<[n:=s']> ss); split; [reflexivity|]; split;
     [rewrite length_insert; exact Hl|];
     intros j Hne; rewrite list_lookup_insert_ne by congruence; apply Hj;
     rewrite ?Hn; congruence).
Qed.

Lemma split_address_only_set_changed {B} c0 a (f : Z * Z * Z -> M Cache.St B) :
  (forall off tg, inv (only_set_changed c0 (index_of c0 a)) (f (off, index_of c0 a, tg))) ->
  inv (only_set_changed c0 (index_of c0 a))
      (bind (Cache.self (fun c => Cache.split_address c a)) f).
Proof.
  intros Hf. apply (inv_bind_val _ (fun v => v = Cache.split_address c0 a)).
  - intros [mem c] H. split; [done|]. destruct H as (ss & Hc & _). simpl in Hc. by subst c.
  - intros [[off ix] tg] Heq.
    assert (ix = index_of c0 a) as -> by (unfold index_of; by rewrite <- Heq).
    apply Hf.
Qed.

Lemma cache_read_only_set_changed c0 a :
  inv (only_set_changed c0 (index_of c0 a)) (Cache.read a).
Proof.
  unfold Cache.read. apply split_address_only_set_changed. intros off tg.
  apply inv_bind; [apply on_set_only_set_changed|]. intros bi.
  case_bool_decide;
    (apply inv_bind; [apply on_set_only_set_changed|]; intros d; apply inv_ret).
Qed.

Lemma cache_write_only_set_changed c0 a w :
  inv (only_set_changed c0 (index_of c0 a)) (Cache.write a w).
Proof.
  unfold Cache.write. apply split_address_only_set_changed. intros off tg.
  apply inv_bind; [apply on_set_only_set_changed|]. intros bi.
  apply inv_bind.
  { case_bool_decide; [|apply inv_ret].
    apply inv_bind; [apply on_set_only_set_changed|]. intros d. apply inv_ret. }
  intros h. apply inv_bind; [apply inv_gets|]. intros wb.
  apply inv_bind; [apply on_set_only_set_changed|]. intros d. apply inv_ret.
Qed.

Lemma sim_step_only_set_changed o sim :
  only_set_changed (CacheSim.cache sim) (index_of (CacheSim.cache sim) (op_address o))
    (CacheSim.memory (final_state (sim_step o sim)),
     CacheSim.cache (final_state (sim_step o sim))).
Proof.
  pose proof (only_set_changed_refl (CacheSim.cache sim)
                (index_of (CacheSim.cache sim) (op_address o)) (CacheSim.memory sim)) as Hsame.
  destruct o as [a|a w]; simpl in *.
  - unfold CacheSim.read, CacheSim.assert. rewrite bind_run.
    case_bool_decide; [|exact Hsame]. rewrite ret_run, bind_run.
    unfold gets. rewrite bind_run.
    case_bool_decide; [|exact Hsame]. rewrite ret_run, bind_run.
    unfold CacheSim.on_cache, zoom.
    pose proof (cache_read_only_set_changed (CacheSim.cache sim) a _ Hsame) as Hfr.
    by destruct (Cache.read a (CacheSim.memory sim, CacheSim.cache sim)) as [d [m c]|e [m c]].
  - unfold CacheSim.write, CacheSim.assert. rewrite bind_run.
    case_bool_decide; [|exact Hsame]. rewrite ret_run, bind_run.
    unfold gets. rewrite bind_run.
    case_bool_decide; [|exact Hsame]. rewrite ret_run, bind_run.
    unfold CacheSim.on_cache, zoom.
    pose proof (cache_write_only_set_changed (CacheSim.cache sim) a (int_to_bytearray w)
                  _ Hsame) as Hfr.
    by destruct (Cache.write a (int_to_bytearray w) (CacheSim.memory sim, CacheSim.cache sim))
      as [d [m c]|e [m c]].
Qed.

(** An operation touches one set.  In a simulator that was built by
    [CacheSim] and has run any operations, however the next read or write
    ends, normally or in an exception, the cache it leaves has the
    configuration fields and the number of sets it had, and every set other
    than the one the index field of the address selects is the set it
    was.  (The simulator hands every write a bytearray of its own, and the
    address is below [2 ^ 53].) *)
Theorem operation_changes_one_set asz csz bsz assoc wb sim ops o :
  CacheSim.init asz csz bsz assoc wb = inr sim ->
  Z.abs (op_address o) < 2 ^ 53 ->
  let before := CacheSim.cache (final_state (sim_run ops sim)) in
  let after := CacheSim.cache (final_state (sim_step o (final_state (sim_run ops sim)))) in
  exists ss,
    after = Cache.set_sets ss before /\
    length ss = length (Cache.sets before) /\
    forall j, py_index (length (Cache.sets before)) (index_of before (op_address o)) <> Some j ->
              ss !! j = Cache.sets before !! j.
Proof.
  intros _ _. exact (sim_step_only_set_changed o (final_state (sim_run ops sim))).
Qed.

Lemma operation_changes_one_set_witness :
  exists sim,
    CacheSim.init 8 64 32 1 true = inr sim /\
    Cache.sets (CacheSim.cache
                  (final_state (sim_step (Write 0 7) (final_state (sim_run [Read 32] sim)))))
      !! 1%nat
    = Cache.sets (CacheSim.cache (final_state (sim_run [Read 32] sim))) !! 1%nat.
Proof.
  eexists. split; [vm_compute; reflexivity|].
  destruct (operation_changes_one_set 8 64 32 1 true
              ltac:(let s := eval vm_compute in (CacheSim.init 8 64 32 1 true) in
                    match s with inr ?s => exact s end)
              [Read 32] (Write 0 7))
    as (ss & Hc & _ & Hj); [vm_compute; reflexivity|reflexivity|].
  rewrite Hc. apply Hj. vm_compute. congruence.
Defined.

(** ** Reads and the memory *)

Definition sets_clean (st : Cache.St) : Prop :=
  Forall (fun s => Forall (fun b => CacheBlock.dirty b = false) (CacheSet.blocks s))
         (Cache.sets (snd st)).

Lemma on_set_sets_clean {A} i (m : M CacheSet.St A) :
  inv set_clean m -> inv sets_clean (Cache.on_set i m).
Proof.
  intros Hm [mem c] H. unfold Cache.on_set.
  destruct (py_index _ i) as [n|]; [|done].
  destruct (Cache.sets c !! n) as [s|] eqn:Hs; [|done].
  apply (inv_zoom sets_clean set_clean); [done| | |done].
  - intros [mem0 c0] _. unfold sets_clean, set_clean in *. simpl in *.
    by eapply (Forall_lookup_1 _ _ _ _ H Hs).
  - intros [mem' s'] [mem0 c0] H0 Hs'. unfold set_clean, sets_clean in *. simpl in *.
    by apply Forall_insert.
Qed.

Lemma cache_read_sets_clean a : inv sets_clean (Cache.read a).
Proof.
  unfold Cache.read. apply inv_bind; [apply inv_gets|]. intros [[off ix] tg].
  apply inv_bind; [apply on_set_sets_clean, set_self_clean|]. intros bi.
  case_bool_decide.
  - apply inv_bind; [apply on_set_sets_clean, set_read_from_memory_clean|].
    intros d. apply inv_ret.
  - apply inv_bind; [apply on_set_sets_clean, set_read_from_cache_clean|].
    intros d. apply inv_ret.
Qed.

Lemma sets_clean_nothing_to_flush mem c : sets_clean (mem, c) -> nothing_to_flush c.
Proof.
  intros H s b Hs Hb. unfold sets_clean in H. simpl in H.
  rewrite Forall_forall in H. specialize (H s Hs).
  rewrite Forall_forall in H. rewrite (H b Hb). apply andb_false_r.
Qed.

Lemma reads_keep_memory addrs mem : forall c,
  cache_wf c -> sets_clean (mem, c) -> Forall (valid_address mem) addrs ->
  exists ds c',
    cache_run (map Read addrs) (mem, c) = Done ds (mem, c') /\
    length ds = length addrs /\
    cache_wf c' /\ sets_clean (mem, c').
Proof.
  induction addrs as [|a addrs IH]; intros c Hwf Hcl Ha; simpl.
  - by exists [], c.
  - apply Forall_cons in Ha as [Ha Has].
    destruct (cache_read_ok a mem c Hwf Ha) as (d & mem1 & c1 & Hr & Hwf1 & _ & _ & Hm).
    specialize (Hm (sets_clean_nothing_to_flush mem c Hcl)). subst mem1.
    pose proof (cache_read_sets_clean a (mem, c) Hcl) as Hcl1.
    rewrite Hr in Hcl1. simpl in Hcl1.
    destruct (IH c1 Hwf1 Hcl1 Has) as (ds & c' & Hrun & Hl & Hwf' & Hcl').
    exists (d :: ds), c'. rewrite bind_run, Hr, bind_run, Hrun, ret_run.
    split; [done|]. split; [simpl; by rewrite Hl|]. done.
Qed.

(** Reads never write.  On a cache that holds no dirty block, in
    write-back or in write-through mode, any sequence of reads of words
    that lie inside the memory runs to its end, answers one record per
    read, leaves every byte of the memory as it was and leaves no dirty
    block. *)
Theorem reads_leave_memory_unchanged addrs mem c :
  cache_wf c -> sets_clean (mem, c) -> Forall (valid_address mem) addrs ->
  exists ds c',
    cache_run (map Read addrs) (mem, c) = Done ds (mem, c') /\
    length ds = length addrs /\
    sets_clean (mem, c').
Proof.
  intros Hwf Hcl Ha.
  destruct (reads_keep_memory addrs mem c Hwf Hcl Ha) as (ds & c' & Hrun & Hl & _ & Hcl').
  by exists ds, c'.
Qed.

Lemma reads_leave_memory_unchanged_witness :
  exists c ds c',
    Cache.init 8 64 32 1 true = inr c /\
    cache_run [Read 0; Read 64; Read 32; Read 0] (bytearray 256, c)
      = Done ds (bytearray 256, c') /\
    length ds = 4%nat.
Proof.
  eexists.
  destruct (reads_leave_memory_unchanged [0; 64; 32; 0] (bytearray 256)
              ltac:(let c := eval vm_compute in (Cache.init 8 64 32 1 true) in
                    match c with inr ?c => exact c end))
    as (ds & c' & Hrun & Hl & _).
  - example_wf.
  - unfold sets_clean. simpl. repeat constructor.
  - repeat constructor; unfold valid_address; simpl; lia.
  - exists ds, c'. split; [vm_compute; reflexivity|]. by split.
Defined.

(** ** One word for a whole block *)

Lemma resident_same_block a a' v c :
  index_of c a' = index_of c a -> tag_of c a' = tag_of c a ->
  resident a v c -> resident a' v c.
Proof.
  intros Hi Ht (n & s & k & b & H). exists n, s, k, b. by rewrite Hi, Ht.
Qed.

(** A block keeps one word, whatever the offset.  After a read of [a], a
    read of any address [a'] with the index and the tag of [a] is a hit and
    answers the word the read of [a] answered, also when [a'] differs from
    [a], and leaves the memory as the first read left it. *)
Theorem same_block_read_answers_cached_word a a' mem c :
  cache_wf c -> valid_address mem a ->
  index_of c a' = index_of c a -> tag_of c a' = tag_of c a ->
  exists d1 mem1 c1 d2 c2,
    Cache.read a (mem, c) = Done d1 (mem1, c1) /\
    Cache.read a' (mem1, c1) = Done d2 (mem1, c2) /\
    hit_or_miss d2 = Some hit /\ word d2 = word d1.
Proof.
  intros Hwf Ha Hi Ht.
  destruct (cache_read_ok a mem c Hwf Ha) as (d1 & mem1 & c1 & Hr & Hwf1 & Hres & _).
  pose proof (cache_read_only_set_changed c a (mem, c) (only_set_changed_refl c _ mem))
    as (ss & Hc1 & _).
  rewrite Hr in Hc1. simpl in Hc1.
  assert (Hres' : resident a' (word d1) c1).
  { apply (resident_same_block a); [| |done]; subst c1.
    - change (index_of c a' = index_of c a). done.
    - change (tag_of c a' = tag_of c a). done. }
  destruct (cache_read_hit_ok a' (word d1) mem1 c1 Hwf1 Hres')
    as (d2 & c2 & Hr2 & Hh & Hw & _).
  by exists d1, mem1, c1, d2, c2.
Qed.

Lemma same_block_read_answers_cached_word_witness :
  exists sim d1 mem1 c1 d2 c2,
    CacheSim.init 8 64 32 1 true = inr sim /\
    Cache.read 64 (CacheSim.memory sim, CacheSim.cache sim) = Done d1 (mem1, c1) /\
    Cache.read 68 (mem1, c1) = Done d2 (mem1, c2) /\
    mem_word mem1 68 = [68; 0; 0; 0] /\
    hit_or_miss d2 = Some hit /\ word d2 = 64.
Proof.
  eexists.
  destruct (same_block_read_answers_cached_word 64 68
              ltac:(let s := eval vm_compute in (CacheSim.init 8 64 32 1 true) in
                    match s with inr ?s => exact (CacheSim.memory s) end)
              ltac:(let c := eval vm_compute in (Cache.init 8 64 32 1 true) in
                    match c with inr ?c => exact c end))
    as (d1 & mem1 & c1 & d2 & c2 & Hr1 & Hr2 & Hh & Hw); [example_wf..|reflexivity|reflexivity|].
  exists d1, mem1, c1, d2, c2. split; [vm_compute; reflexivity|].
  split; [exact Hr1|]. split; [exact Hr2|].
  pose proof Hr1 as Hr'. vm_compute in Hr'. injection Hr' as <- <- <-.
  split; [reflexivity|]. split; [exact Hh|]. by rewrite Hw.
Defined.

(** ** The first read of a fresh simulator *)

Lemma init_sets_fresh asz csz bsz assoc wb c :
  Cache.init asz csz bsz assoc wb = inr c ->
  Forall (fun s => Forall (fun b => CacheBlock.occupied b = false /\
                                    CacheBlock.dirty b = false) (CacheSet.blocks s))
         (Cache.sets c).
Proof.
  intros Hi. apply init_fields in Hi as (Hb & _ & _ & _ & _ & _ & _ & _ & _ & _ & _ & Hs).
  destruct (build_sets_ok (Z.to_nat (Cache.num_sets c)) 0 wb
              (Cache.num_blocks_per_set c) bsz Hb) as (ss & Hss & _ & Hf).
  rewrite Hss in Hs. injection Hs as <-.
  eapply Forall_impl; [exact Hf|]. intros s [j ->]. simpl.
  by apply Forall_replicate.
Qed.

(** Reading a fresh simulator.  In a simulator just built, with a positive
    associativity and blocks of at least 32 bits, the first read of any
    aligned address of the address space completes, reports a miss, answers
    the address itself (modulo [2 ^ 32]), and leaves the memory as it was
    built. *)
Theorem first_read_answers_address asz csz bsz assoc wb sim a :
  CacheSim.init asz csz bsz assoc wb = inr sim ->
  0 < assoc -> 32 <= bsz ->
  a mod 4 = 0 -> 0 <= a < 2 ^ asz ->
  exists d sim',
    sim_step (Read a) sim = Done (op_read, d) sim' /\
    hit_or_miss d = Some miss /\
    word d = a mod 2 ^ 32 /\
    CacheSim.memory sim' = CacheSim.memory sim.
Proof.
  intros Hi Hassoc Hbsz Hmod Ha.
  pose proof (sim_init_cases asz csz bsz assoc wb) as H. rewrite Hi in H.
  destruct H as (Hasz & Hc & Hms & Hlen & Hw).
  assert (2 <= asz).
  { destruct (decide (asz < 0)); [|lia]. rewrite Z.pow_neg_r in Ha by lia. lia. }
  pose proof (sim_init_wf _ _ _ _ _ _ Hi ltac:(lia) Hassoc Hbsz) as Hwf.
  pose proof (aligned_address_valid sim a Hwf Hmod ltac:(lia)) as Hv.
  pose proof Hwf as (Hcwf & _ & _).
  pose proof (init_sets_fresh _ _ _ _ _ _ Hc) as Hfresh.
  destruct (cache_read_miss_loads a (CacheSim.memory sim) (CacheSim.cache sim) Hcwf Hv)
    as (d & mem' & c' & Hr & Hmiss & _ & Hd & Hm).
  { intros (n & s & b & _ & Hs & Hb & _ & Hocc).
    apply list_elem_of_lookup_2 in Hs.
    rewrite Forall_forall in Hfresh. specialize (Hfresh s Hs).
    rewrite Forall_forall in Hfresh. destruct (Hfresh b Hb) as [Hfree _]. congruence. }
  assert (mem' = CacheSim.memory sim) as ->.
  { apply Hm. intros s b Hs Hb.
    rewrite Forall_forall in Hfresh. specialize (Hfresh s Hs).
    rewrite Forall_forall in Hfresh. destruct (Hfresh b Hb) as [_ ->]. apply andb_false_r. }
  rewrite Hw, word_dec_int_to_bytearray in Hd; [|done|lia|].
  2: { destruct Hv as [_ Hv]. lia. }
  injection Hd as Hd.
  exists d, (CacheSim.set_store (CacheSim.memory sim, c') sim).
  split; [|by split_and!].
  simpl. unfold CacheSim.read. rewrite bind_run. unfold CacheSim.assert.
  rewrite bool_decide_eq_true_2 by done. rewrite ret_run, bind_run.
  unfold gets. rewrite bind_run, bool_decide_eq_true_2 by lia.
  rewrite ret_run, bind_run. unfold CacheSim.on_cache, zoom. by rewrite Hr, ret_run.
Qed.

Lemma first_read_answers_address_witness :
  exists sim d sim',
    CacheSim.init 8 128 32 2 true = inr sim /\
    sim_step (Read 200) sim = Done (op_read, d) sim' /\
    hit_or_miss d = Some miss /\ word d = 200.
Proof.
  eexists.
  destruct (first_read_answers_address 8 128 32 2 true
              ltac:(let s := eval vm_compute in (CacheSim.init 8 128 32 2 true) in
                    match s with inr ?s => exact s end) 200)
    as (d & sim' & Hr & Hmiss & Hw & _); [vm_compute; reflexivity|lia|lia|reflexivity|lia|].
  exists d, sim'. split; [vm_compute; reflexivity|]. by split_and!.
Defined.
